(** * Workbench: hierarchy, cluster container and label selection model

    A shallow embedding of
    - [src/Common/ClusterContainer.cxx]  (module [Clusters]),
    - [src/Common/CaretHierarchy.cxx]    (module [Hierarchy]),
    - [src/Files/LabelSelectionItemModel.cxx] (module [LabelModel]),
    with the properties stated for them. *)

From Stdlib Require Import ZArith QArith Lia Permutation OrdersEx.
From stdpp Require Import base tactics option list sorting strings gmap sets.

Local Open Scope string_scope.
Local Open Scope Z_scope.
Local Open Scope list_scope.

(** ** Ordered multi-valued index ([std::multimap]) *)

Lemma filter_none {A} (f : A → bool) (l : list A) :
  (∀ x, In x l → f x = false) → List.filter f l = [].
Proof.
  induction l as [|a l IH]; intros H; [done|]. simpl.
  rewrite (H a) by by left. apply IH. intros x Hx. apply H. by right.
Qed.

(** [std::multimap<K, V>] is kept as the sequence of its entries in
    iteration order: ascending keys, entries with equal keys in the order
    of their insertion (an insertion goes to the upper bound of its key). *)
Section Multimap.
Context {K V : Type}.
Variable ltb : K → K → bool.

Hypothesis ltb_irrefl : ∀ a, ltb a a = false.
Hypothesis ltb_trans : ∀ a b c, ltb a b = true → ltb b c = true → ltb a c = true.
Hypothesis ltb_total : ∀ a b, ltb a b = false → ltb b a = false → a = b.

Fixpoint multimap_insert (k : K) (v : V) (m : list (K * V)) : list (K * V) :=
  match m with
  | [] => [(k, v)]
  | e :: m' => if ltb k e.1 then (k, v) :: m else e :: multimap_insert k v m'
  end.

(** first position whose key is not less than [k] *)
Fixpoint lower_bound (k : K) (m : list (K * V)) : list (K * V) :=
  match m with
  | [] => []
  | e :: m' => if ltb e.1 k then lower_bound k m' else m
  end.

(** the entries before the first one whose key is greater than [k] *)
Fixpoint until_upper_bound (k : K) (m : list (K * V)) : list (K * V) :=
  match m with
  | [] => []
  | e :: m' => if ltb k e.1 then [] else e :: until_upper_bound k m'
  end.

(** [equal_range(k)]: the entries from the lower bound of [k] up to its
    upper bound. *)
Definition equal_range (k : K) (m : list (K * V)) : list (K * V) :=
  until_upper_bound k (lower_bound k m).

Definition same_key (k : K) (e : K * V) : bool :=
  negb (ltb e.1 k) && negb (ltb k e.1).

Definition key_sorted (m : list (K * V)) : Prop :=
  StronglySorted (λ a b, ltb b.1 a.1 = false) m.

Lemma same_key_eq k e : same_key k e = true ↔ e.1 = k.
Proof using ltb_irrefl ltb_total.
  unfold same_key. rewrite andb_true_iff, !negb_true_iff. split.
  - intros [H1 H2]. by apply ltb_total.
  - intros <-. by rewrite ltb_irrefl.
Qed.

Lemma until_upper_bound_filter k m :
  key_sorted m →
  Forall (λ e, ltb e.1 k = false) m →
  until_upper_bound k m = List.filter (same_key k) m.
Proof using ltb_irrefl ltb_trans ltb_total.
  induction m as [|e m IH]; intros Hs Hge; [done|].
  apply StronglySorted_inv in Hs as [Hs Hall].
  apply Forall_cons in Hge as [He Hge]. simpl.
  unfold same_key at 1. rewrite He. simpl.
  destruct (ltb k e.1) eqn:Hk; simpl.
  - symmetry. apply filter_none. intros x Hx.
    rewrite Forall_forall in Hall.
    unfold same_key.
    assert (Hex : ltb x.1 e.1 = false) by (apply Hall; by apply list_elem_of_In).
    destruct (ltb k x.1) eqn:Hkx; [by rewrite andb_false_r|].
    exfalso. destruct (ltb x.1 k) eqn:Hxk.
    + rewrite (ltb_trans _ _ _ Hxk Hk) in Hex. done.
    + assert (x.1 = k) by by apply ltb_total. subst k. congruence.
  - f_equal. by apply IH.
Qed.

Lemma equal_range_filter k m :
  key_sorted m → equal_range k m = List.filter (same_key k) m.
Proof using ltb_irrefl ltb_trans ltb_total.
  unfold equal_range. induction m as [|e m IH]; intros Hs; [done|].
  pose proof Hs as Hs'.
  apply StronglySorted_inv in Hs as [Hs Hall]. simpl.
  destruct (ltb e.1 k) eqn:He.
  - unfold same_key at 1. rewrite He. simpl. by apply IH.
  - apply until_upper_bound_filter; [done|].
    constructor; [done|].
    eapply Forall_impl; [exact Hall|]. simpl. intros x Hx.
    destruct (ltb x.1 k) eqn:Hxk; [|done].
    destruct (ltb k e.1) eqn:Hke.
    + by rewrite (ltb_trans _ _ _ Hxk Hke) in Hx.
    + assert (e.1 = k) by by apply ltb_total. subst k. congruence.
Qed.

Lemma multimap_insert_In k v m e :
  In e (multimap_insert k v m) ↔ e = (k, v) ∨ In e m.
Proof.
  induction m as [|e' m IH]; simpl; [naive_solver|].
  destruct (ltb k e'.1); simpl; [naive_solver|].
  rewrite IH. naive_solver.
Qed.

Lemma multimap_insert_sorted k v m :
  key_sorted m → key_sorted (multimap_insert k v m).
Proof using ltb_irrefl ltb_trans ltb_total.
  induction m as [|e m IH]; intros Hs; simpl.
  - repeat constructor.
  - pose proof Hs as Hs'. apply StronglySorted_inv in Hs as [Hs Hall].
    destruct (ltb k e.1) eqn:Hk.
    + constructor; [done|]. constructor.
      * simpl. destruct (ltb e.1 k) eqn:Hek; [|done].
        pose proof (ltb_trans _ _ _ Hk Hek) as X. by rewrite ltb_irrefl in X.
      * eapply Forall_impl; [exact Hall|]. simpl. intros x Hx.
        destruct (ltb x.1 k) eqn:Hxk; [|done].
        by rewrite (ltb_trans _ _ _ Hxk Hk) in Hx.
    + constructor; [by apply IH|].
      apply Forall_forall. intros x Hx.
      apply list_elem_of_In, multimap_insert_In in Hx as [->|Hx]; [done|].
      rewrite Forall_forall in Hall. apply Hall. by apply list_elem_of_In.
Qed.

Lemma multimap_insert_filter k k' v m :
  key_sorted m →
  List.filter (same_key k) (multimap_insert k' v m) =
  List.filter (same_key k) m ++ (if same_key k (k', v) then [(k', v)] else []).
Proof using ltb_irrefl ltb_trans ltb_total.
  induction m as [|e m IH]; intros Hs; simpl; [done|].
  apply StronglySorted_inv in Hs as [Hs Hall].
  destruct (ltb k' e.1) eqn:Hk'.
  - (* nothing from [e] on has key [k'] *)
    assert (Hnone : same_key k (k', v) = true →
              List.filter (same_key k) (e :: m) = []).
    { intros Hsame. apply same_key_eq in Hsame. simpl in Hsame. subst k'.
      apply filter_none. intros x Hx.
      assert (Hxe : ltb x.1 e.1 = false).
      { destruct Hx as [->|Hx]; [apply ltb_irrefl|].
        rewrite Forall_forall in Hall. apply Hall. by apply list_elem_of_In. }
      unfold same_key. destruct (ltb k x.1) eqn:Hkx; [by rewrite andb_false_r|].
      destruct (ltb x.1 k) eqn:Hxk; [done|].
      assert (x.1 = k) by by apply ltb_total. subst k.
      destruct Hx as [->|Hx]; congruence. }
    simpl. destruct (same_key k (k', v)) eqn:Hsame.
    + specialize (Hnone eq_refl). simpl in Hnone. by rewrite Hnone.
    + by rewrite app_nil_r.
  - simpl. rewrite IH by done. by destruct (same_key k e).
Qed.

(** Filling an empty index from a sequence, as the lazy builders do. *)
Definition multimap_of (key : V → K) (l : list V) : list (K * V) :=
  fold_left (λ m c, multimap_insert (key c) c m) l [].

Lemma multimap_of_snoc key l c :
  multimap_of key (l ++ [c]) = multimap_insert (key c) c (multimap_of key l).
Proof. unfold multimap_of. by rewrite fold_left_app. Qed.

Lemma multimap_of_sorted key l : key_sorted (multimap_of key l).
Proof using ltb_irrefl ltb_trans ltb_total.
  induction l as [|c l IH] using rev_ind; [constructor|].
  rewrite multimap_of_snoc. by apply multimap_insert_sorted.
Qed.

Lemma multimap_of_filter key k l :
  List.filter (same_key k) (multimap_of key l) =
  map (λ c, (key c, c)) (List.filter (λ c, same_key k (key c, c)) l).
Proof using ltb_irrefl ltb_trans ltb_total.
  induction l as [|c l IH] using rev_ind; [done|].
  rewrite multimap_of_snoc, multimap_insert_filter by apply multimap_of_sorted.
  rewrite IH, List.filter_app, map_app. simpl.
  by destruct (same_key k (key c, c)).
Qed.

Lemma multimap_of_Permutation key l :
  map snd (multimap_of key l) ≡ₚ l.
Proof.
  induction l as [|c l IH] using rev_ind; [done|].
  rewrite multimap_of_snoc.
  assert (Hins : ∀ k v m, map snd (multimap_insert k v m) ≡ₚ v :: map snd m).
  { intros k v m. induction m as [|e m IHm]; simpl; [done|].
    destruct (ltb k e.1); simpl; [done|]. rewrite IHm. apply perm_swap. }
  rewrite Hins, IH. by rewrite Permutation_app_comm.
Qed.

Lemma multimap_of_nil_iff key l : multimap_of key l = [] ↔ l = [].
Proof.
  split; [|by intros ->].
  intros H. pose proof (multimap_of_Permutation key l) as HP.
  rewrite H in HP. simpl in HP. by apply Permutation_nil_l in HP.
Qed.

(** The equal range of a freshly built index lists the values of that key
    in their original order. *)
Lemma equal_range_multimap_of key k l :
  map snd (equal_range k (multimap_of key l)) =
  List.filter (λ c, same_key k (key c, c)) l.
Proof using ltb_irrefl ltb_trans ltb_total.
  rewrite equal_range_filter by apply multimap_of_sorted.
  rewrite multimap_of_filter, map_map. simpl. apply map_id.
Qed.
End Multimap.

(** [std::set<int32_t>::insert], the set kept in ascending order. *)
Fixpoint set_insert (k : Z) (s : list Z) : list Z :=
  match s with
  | [] => [k]
  | x :: s' =>
      if k <? x then k :: s
      else if x <? k then x :: set_insert k s'
      else s
  end.

Lemma set_insert_In k s x : In x (set_insert k s) ↔ x = k ∨ In x s.
Proof.
  induction s as [|y s IH]; simpl; [naive_solver|].
  destruct (Z.ltb_spec k y); simpl; [naive_solver|].
  destruct (Z.ltb_spec y k); simpl.
  - rewrite IH. naive_solver.
  - assert (y = k) by lia. naive_solver.
Qed.

Lemma set_insert_sorted k s :
  StronglySorted Z.lt s → StronglySorted Z.lt (set_insert k s).
Proof.
  induction s as [|y s IH]; intros Hs; simpl.
  - repeat constructor.
  - pose proof Hs as Hs'. apply StronglySorted_inv in Hs as [Hs Hall].
    destruct (Z.ltb_spec k y).
    + constructor; [done|]. constructor; [done|].
      eapply Forall_impl; [exact Hall|]. simpl. lia.
    + destruct (Z.ltb_spec y k); [|done].
      constructor; [by apply IH|].
      apply Forall_forall. intros x Hx.
      apply list_elem_of_In, set_insert_In in Hx as [->|Hx]; [done|].
      rewrite Forall_forall in Hall. apply Hall. by apply list_elem_of_In.
Qed.

Lemma StronglySorted_lt_NoDup (s : list Z) : StronglySorted Z.lt s → NoDup s.
Proof.
  induction 1 as [|x s Hs IH Hall]; constructor; [|done].
  intros Hx. rewrite Forall_forall in Hall. specialize (Hall _ Hx). lia.
Qed.

(** [AString::operator<] (lexicographic order of the code units). *)
Definition AString_ltb (a b : string) : bool :=
  match String_as_OT.compare a b with Lt => true | _ => false end.

Lemma AString_ltb_irrefl a : AString_ltb a a = false.
Proof.
  unfold AString_ltb. destruct (String_as_OT.compare_spec a a) as [?|H|H]; try done.
  by apply (StrictOrder_Irreflexive (R:=String_as_OT.lt)) in H.
Qed.

Lemma AString_ltb_lt a b : AString_ltb a b = true ↔ String_as_OT.lt a b.
Proof.
  unfold AString_ltb, String_as_OT.lt. by destruct (String_as_OT.compare a b).
Qed.

Lemma AString_ltb_trans a b c :
  AString_ltb a b = true → AString_ltb b c = true → AString_ltb a c = true.
Proof.
  rewrite !AString_ltb_lt. apply (StrictOrder_Transitive (R:=String_as_OT.lt)).
Qed.

Lemma AString_ltb_total a b :
  AString_ltb a b = false → AString_ltb b a = false → a = b.
Proof.
  intros H1 H2.
  destruct (String_as_OT.compare_spec a b) as [?|H|H]; [done|..];
    apply AString_ltb_lt in H; congruence.
Qed.

Lemma Z_ltb_trans a b c : (a <? b) = true → (b <? c) = true → (a <? c) = true.
Proof. rewrite !Z.ltb_lt. lia. Qed.

Lemma Z_ltb_total a b : (a <? b) = false → (b <? a) = false → a = b.
Proof. rewrite !Z.ltb_ge. lia. Qed.

(** * ClusterContainer *)
Module Clusters.

(** [Cluster::LocationType] *)
Inductive LocationType := UNKNOWN | CENTRAL | LEFT | RIGHT.

#[global] Instance LocationType_eq_dec : EqDecision LocationType.
Proof. solve_decision. Defined.

(** [Vector3D]: the three coordinates of a brainordinate.  The numbers are
    kept exact; only their equality and the sign of X are looked at. *)
Definition Vector3D : Type := Z * Z * Z.

Definition vec_x (xyz : Vector3D) : Z := xyz.1.1.

(** [Cluster]: the center of gravity is derived from the coordinates and is
    left out. *)
Record Cluster := mkCluster {
  m_name : string;
  m_key : Z;
  m_location : LocationType;
  m_coordinateXYZ : list Vector3D;
}.

#[global] Instance Cluster_eq_dec : EqDecision Cluster.
Proof. solve_decision. Defined.

Definition getKey (c : Cluster) : Z := m_key c.
Definition getLocationType (c : Cluster) : LocationType := m_location c.

(** Modelled from the spec: [Cluster::mergeCoordinates] (Cluster.cxx is not
    part of the sources): the other cluster's member coordinates are united
    with this cluster's; name, key and location type stay. *)
Definition mergeCoordinates (self other : Cluster) : Cluster :=
  mkCluster (m_name self) (m_key self) (m_location self)
            (m_coordinateXYZ self ++ m_coordinateXYZ other).

Section Container.

(** The side that receives a coordinate with X = 0 when a cluster is split
    is not fixed by the description; every result below holds for both. *)
Variable zeroIsLeft : bool.

Definition isLeftX (xyz : Vector3D) : bool :=
  (vec_x xyz <? 0) || (zeroIsLeft && (vec_x xyz =? 0)).

(** Modelled from the spec: [Cluster::splitClusterIntoRightAndLeft]
    (Cluster.cxx is not part of the sources): a LEFT and a RIGHT cluster of
    the same name and key, the member coordinates divided by the sign of
    their X value. *)
Definition splitClusterIntoRightAndLeft (c : Cluster) : list Cluster :=
  [ mkCluster (m_name c) (m_key c) LEFT
              (List.filter isLeftX (m_coordinateXYZ c));
    mkCluster (m_name c) (m_key c) RIGHT
              (List.filter (λ xyz, negb (isLeftX xyz)) (m_coordinateXYZ c)) ].

(** The members of [ClusterContainer]; the sorted views are [mutable]
    caches filled by the [const] readers. *)
Record ClusterContainer := mkContainer {
  m_clusters : list Cluster;
  m_mapWithClustersSortedByKey : list (Z * Cluster);
  m_mapWithClustersSortedByName : list (string * Cluster);
  m_vectorClustersSortedByKey : list Cluster;
  m_vectorClustersSortedByName : list Cluster;
  m_keysSorted : list Z;
  m_keysThatAreNotInAnyClusters : list Z;
}.

Definition is_empty {A} (l : list A) : bool :=
  match l with [] => true | _ => false end.

(** [ClusterContainer::ClusterContainer()] *)
Definition ClusterContainerNew : ClusterContainer :=
  mkContainer [] [] [] [] [] [] [].

Definition clearSortedContainers (s : ClusterContainer) : ClusterContainer :=
  mkContainer (m_clusters s) [] [] [] [] []
              (m_keysThatAreNotInAnyClusters s).

Definition addCluster (cluster : Cluster) (s : ClusterContainer)
  : ClusterContainer :=
  clearSortedContainers
    (mkContainer (m_clusters s ++ [cluster])
       (m_mapWithClustersSortedByKey s) (m_mapWithClustersSortedByName s)
       (m_vectorClustersSortedByKey s) (m_vectorClustersSortedByName s)
       (m_keysSorted s) (m_keysThatAreNotInAnyClusters s)).

Definition clear (s : ClusterContainer) : ClusterContainer :=
  let s1 := clearSortedContainers s in
  mkContainer []
    (m_mapWithClustersSortedByKey s1) (m_mapWithClustersSortedByName s1)
    (m_vectorClustersSortedByKey s1) (m_vectorClustersSortedByName s1)
    (m_keysSorted s1) (m_keysThatAreNotInAnyClusters s1).

Definition createMultimapClustersSortedByKey (s : ClusterContainer)
  : ClusterContainer :=
  if is_empty (m_mapWithClustersSortedByKey s) then
    if negb (is_empty (m_clusters s)) then
      mkContainer (m_clusters s)
        (multimap_of Z.ltb m_key (m_clusters s))
        (m_mapWithClustersSortedByName s)
        (m_vectorClustersSortedByKey s) (m_vectorClustersSortedByName s)
        (m_keysSorted s) (m_keysThatAreNotInAnyClusters s)
    else s
  else s.

Definition createMultimapClustersSortedByName (s : ClusterContainer)
  : ClusterContainer :=
  if is_empty (m_mapWithClustersSortedByName s) then
    if negb (is_empty (m_clusters s)) then
      mkContainer (m_clusters s)
        (m_mapWithClustersSortedByKey s)
        (multimap_of AString_ltb m_name (m_clusters s))
        (m_vectorClustersSortedByKey s) (m_vectorClustersSortedByName s)
        (m_keysSorted s) (m_keysThatAreNotInAnyClusters s)
    else s
  else s.

(** The readers return their result with the container, whose caches they
    may have filled. *)
Definition getClustersSortedByKey (s : ClusterContainer)
  : list Cluster * ClusterContainer :=
  let s1 := createMultimapClustersSortedByKey s in
  let s2 :=
    if is_empty (m_vectorClustersSortedByKey s1) then
      if negb (is_empty (m_mapWithClustersSortedByKey s1)) then
        mkContainer (m_clusters s1)
          (m_mapWithClustersSortedByKey s1) (m_mapWithClustersSortedByName s1)
          (map snd (m_mapWithClustersSortedByKey s1))
          (m_vectorClustersSortedByName s1)
          (m_keysSorted s1) (m_keysThatAreNotInAnyClusters s1)
      else s1
    else s1 in
  (m_vectorClustersSortedByKey s2, s2).

Definition getClustersSortedByName (s : ClusterContainer)
  : list Cluster * ClusterContainer :=
  let s1 := createMultimapClustersSortedByName s in
  let s2 :=
    if is_empty (m_vectorClustersSortedByName s1) then
      if negb (is_empty (m_mapWithClustersSortedByName s1)) then
        mkContainer (m_clusters s1)
          (m_mapWithClustersSortedByKey s1) (m_mapWithClustersSortedByName s1)
          (m_vectorClustersSortedByKey s1)
          (map snd (m_mapWithClustersSortedByName s1))
          (m_keysSorted s1) (m_keysThatAreNotInAnyClusters s1)
      else s1
    else s1 in
  (m_vectorClustersSortedByName s2, s2).

Definition getClustersWithKey (key : Z) (s : ClusterContainer)
  : list Cluster * ClusterContainer :=
  let s1 := createMultimapClustersSortedByKey s in
  (map snd (equal_range Z.ltb key (m_mapWithClustersSortedByKey s1)), s1).

Definition getClustersWithName (name : string) (s : ClusterContainer)
  : list Cluster * ClusterContainer :=
  let s1 := createMultimapClustersSortedByName s in
  (map snd (equal_range AString_ltb name (m_mapWithClustersSortedByName s1)), s1).

Definition addKeyThatIsNotInAnyCluster (key : Z) (s : ClusterContainer)
  : ClusterContainer :=
  mkContainer (m_clusters s)
    (m_mapWithClustersSortedByKey s) (m_mapWithClustersSortedByName s)
    (m_vectorClustersSortedByKey s) (m_vectorClustersSortedByName s)
    (m_keysSorted s) (set_insert key (m_keysThatAreNotInAnyClusters s)).

Definition getKeysThatAreNotInAnyClusters (s : ClusterContainer) : list Z :=
  m_keysThatAreNotInAnyClusters s.

(** the local [std::set<int32_t> keys] of [getAllClusterKeys] *)
Definition keys_of (clusters : list Cluster) : list Z :=
  fold_left (λ keys c, set_insert (getKey c) keys) clusters [].

Definition getAllClusterKeys (s : ClusterContainer)
  : list Z * ClusterContainer :=
  if is_empty (m_keysSorted s) then
    let keys := keys_of (m_clusters s) in
    (keys,
     mkContainer (m_clusters s)
       (m_mapWithClustersSortedByKey s) (m_mapWithClustersSortedByName s)
       (m_vectorClustersSortedByKey s) (m_vectorClustersSortedByName s)
       keys (m_keysThatAreNotInAnyClusters s))
  else (m_keysSorted s, s).

(** *** mergeDisjointRightLeftClusters *)

(** first loop: one key *)
Definition split_for_key (st : list Cluster * ClusterContainer) (key : Z)
  : list Cluster * ClusterContainer :=
  let '(newClustersFromSplitting, s) := st in
  let '(keyClusters, s1) := getClustersWithKey key s in
  (fold_left
     (λ acc cluster,
        match getLocationType cluster with
        | UNKNOWN => acc
        | CENTRAL => acc ++ splitClusterIntoRightAndLeft cluster
        | LEFT => acc
        | RIGHT => acc
        end) keyClusters newClustersFromSplitting,
   s1).

(** the four local pointers of the merge loop; [None] is [NULL] *)
Record Buckets := mkBuckets {
  unknownCluster : option Cluster;
  centralCluster : option Cluster;
  leftCluster : option Cluster;
  rightCluster : option Cluster;
}.

(** [if (p != NULL)] merge the cluster's coordinates into [p], [else] [p]
    becomes a copy of the cluster. *)
Definition merge_or_copy (p : option Cluster) (cluster : Cluster)
  : option Cluster :=
  match p with
  | Some c => Some (mergeCoordinates c cluster)
  | None => Some cluster
  end.

Definition bucket_step (b : Buckets) (cluster : Cluster) : Buckets :=
  match getLocationType cluster with
  | UNKNOWN => mkBuckets (merge_or_copy (unknownCluster b) cluster)
                 (centralCluster b) (leftCluster b) (rightCluster b)
  | CENTRAL => mkBuckets (unknownCluster b)
                 (merge_or_copy (centralCluster b) cluster)
                 (leftCluster b) (rightCluster b)
  | LEFT => mkBuckets (unknownCluster b) (centralCluster b)
                 (merge_or_copy (leftCluster b) cluster) (rightCluster b)
  | RIGHT => mkBuckets (unknownCluster b) (centralCluster b) (leftCluster b)
                 (merge_or_copy (rightCluster b) cluster)
  end.

(** [if (p != NULL) clustersOut->addCluster(p);] *)
Definition add_if_not_null (p : option Cluster) (out : ClusterContainer)
  : ClusterContainer :=
  match p with
  | Some c => addCluster c out
  | None => out
  end.

(** second loop: one key *)
Definition merge_for_key (st : ClusterContainer * ClusterContainer) (key : Z)
  : ClusterContainer * ClusterContainer :=
  let '(clustersOut, s) := st in
  let '(keyClusters, s1) := getClustersWithKey key s in
  let b := fold_left bucket_step keyClusters (mkBuckets None None None None) in
  (add_if_not_null (rightCluster b)
     (add_if_not_null (leftCluster b)
        (add_if_not_null (centralCluster b)
           (add_if_not_null (unknownCluster b) clustersOut))),
   s1).

(** Returns the new container and this container, to which the clusters
    from splitting have been added. *)
Definition mergeDisjointRightLeftClusters (s : ClusterContainer)
  : ClusterContainer * ClusterContainer :=
  let '(allKeys, s0) := getAllClusterKeys s in
  let '(newClustersFromSplitting, s1) :=
    fold_left split_for_key allKeys ([], s0) in
  let s2 := fold_left (λ s c, addCluster c s) newClustersFromSplitting s1 in
  fold_left merge_for_key allKeys (ClusterContainerNew, s2).

(** *** The readers as one family, for statements over all of them *)
Inductive read_op :=
| ReadSortedByKey
| ReadSortedByName
| ReadWithKey (key : Z)
| ReadWithName (name : string)
| ReadAllKeys.

Inductive view :=
| Clusters (l : list Cluster)
| Keys (l : list Z).

Definition run_read (r : read_op) (s : ClusterContainer)
  : view * ClusterContainer :=
  match r with
  | ReadSortedByKey =>
      (Clusters (getClustersSortedByKey s).1, (getClustersSortedByKey s).2)
  | ReadSortedByName =>
      (Clusters (getClustersSortedByName s).1, (getClustersSortedByName s).2)
  | ReadWithKey key =>
      (Clusters (getClustersWithKey key s).1, (getClustersWithKey key s).2)
  | ReadWithName name =>
      (Clusters (getClustersWithName name s).1, (getClustersWithName name s).2)
  | ReadAllKeys =>
      (Keys (getAllClusterKeys s).1, (getAllClusterKeys s).2)
  end.

Definition run_reads (rs : list read_op) (s : ClusterContainer)
  : ClusterContainer :=
  fold_left (λ s r, (run_read r s).2) rs s.

Inductive mutation :=
| MutAddCluster (c : Cluster)
| MutClear.

Definition run_mutation (m : mutation) (s : ClusterContainer)
  : ClusterContainer :=
  match m with
  | MutAddCluster c => addCluster c s
  | MutClear => clear s
  end.

(** A container holding [clusters] whose caches have never been filled. *)
Definition uncached (clusters : list Cluster) : ClusterContainer :=
  mkContainer clusters [] [] [] [] [] [].

(** The states a container can be in: built by the constructor and changed
    by its member functions only. *)
Inductive reachable : ClusterContainer → Prop :=
| reach_new : reachable ClusterContainerNew
| reach_mutation m s : reachable s → reachable (run_mutation m s)
| reach_read r s : reachable s → reachable (run_read r s).2
| reach_addKey key s : reachable s → reachable (addKeyThatIsNotInAnyCluster key s)
| reach_merge_this s : reachable s → reachable (mergeDisjointRightLeftClusters s).2
| reach_merge_out s : reachable s → reachable (mergeDisjointRightLeftClusters s).1.


(** *** Cache invariant *)

(** the clusters of a key, in the container's order *)
Definition with_key (key : Z) (l : list Cluster) : list Cluster :=
  List.filter (λ c, m_key c =? key) l.

Definition with_name (name : string) (l : list Cluster) : list Cluster :=
  List.filter (λ c, String.eqb (m_name c) name) l.

(** Every cached view is either not filled or the one computed from the
    current clusters. *)
Definition cache_ok (s : ClusterContainer) : Prop :=
  (m_mapWithClustersSortedByKey s = [] ∨
   m_mapWithClustersSortedByKey s = multimap_of Z.ltb m_key (m_clusters s)) ∧
  (m_mapWithClustersSortedByName s = [] ∨
   m_mapWithClustersSortedByName s = multimap_of AString_ltb m_name (m_clusters s)) ∧
  (m_vectorClustersSortedByKey s = [] ∨
   m_vectorClustersSortedByKey s = map snd (multimap_of Z.ltb m_key (m_clusters s))) ∧
  (m_vectorClustersSortedByName s = [] ∨
   m_vectorClustersSortedByName s = map snd (multimap_of AString_ltb m_name (m_clusters s))) ∧
  (m_keysSorted s = [] ∨ m_keysSorted s = keys_of (m_clusters s)).

Lemma is_empty_true {A} (l : list A) : is_empty l = true ↔ l = [].
Proof. by destruct l. Qed.

Lemma is_empty_multimap_of {K} (ltb : K → K → bool) (key : Cluster → K) l :
  is_empty (multimap_of ltb key l) = is_empty l.
Proof.
  destruct l as [|c l]; [done|]. simpl.
  destruct (multimap_of ltb key (c :: l)) eqn:E; [|done].
  by apply multimap_of_nil_iff in E.
Qed.

Lemma is_empty_map {A B} (f : A → B) l : is_empty (map f l) = is_empty l.
Proof. by destruct l. Qed.

Lemma createMultimapClustersSortedByKey_spec s :
  cache_ok s →
  createMultimapClustersSortedByKey s =
  mkContainer (m_clusters s)
    (multimap_of Z.ltb m_key (m_clusters s))
    (m_mapWithClustersSortedByName s)
    (m_vectorClustersSortedByKey s) (m_vectorClustersSortedByName s)
    (m_keysSorted s) (m_keysThatAreNotInAnyClusters s).
Proof.
  destruct s as [cl mk mn vk vn ks kn]. unfold cache_ok. simpl.
  intros ([->| ->] & _); unfold createMultimapClustersSortedByKey; simpl.
  - by destruct cl.
  - rewrite is_empty_multimap_of. by destruct cl.
Qed.

Lemma createMultimapClustersSortedByName_spec s :
  cache_ok s →
  createMultimapClustersSortedByName s =
  mkContainer (m_clusters s)
    (m_mapWithClustersSortedByKey s)
    (multimap_of AString_ltb m_name (m_clusters s))
    (m_vectorClustersSortedByKey s) (m_vectorClustersSortedByName s)
    (m_keysSorted s) (m_keysThatAreNotInAnyClusters s).
Proof.
  destruct s as [cl mk mn vk vn ks kn]. unfold cache_ok. simpl.
  intros (_ & [->| ->] & _); unfold createMultimapClustersSortedByName; simpl.
  - by destruct cl.
  - rewrite is_empty_multimap_of. by destruct cl.
Qed.

Lemma getClustersSortedByKey_spec s :
  cache_ok s →
  (getClustersSortedByKey s).1 = map snd (multimap_of Z.ltb m_key (m_clusters s)) ∧
  m_clusters (getClustersSortedByKey s).2 = m_clusters s ∧
  cache_ok (getClustersSortedByKey s).2.
Proof.
  intros Hok. unfold getClustersSortedByKey.
  rewrite createMultimapClustersSortedByKey_spec by done.
  destruct s as [cl mk mn vk vn ks kn]. unfold cache_ok in *. simpl in *.
  destruct Hok as (H1 & H2 & [->| ->] & H4 & H5); simpl.
  - rewrite is_empty_multimap_of. destruct cl; simpl; naive_solver.
  - rewrite is_empty_map, !is_empty_multimap_of. destruct cl; simpl; naive_solver.
Qed.

Lemma getClustersSortedByName_spec s :
  cache_ok s →
  (getClustersSortedByName s).1 = map snd (multimap_of AString_ltb m_name (m_clusters s)) ∧
  m_clusters (getClustersSortedByName s).2 = m_clusters s ∧
  cache_ok (getClustersSortedByName s).2.
Proof.
  intros Hok. unfold getClustersSortedByName.
  rewrite createMultimapClustersSortedByName_spec by done.
  destruct s as [cl mk mn vk vn ks kn]. unfold cache_ok in *. simpl in *.
  destruct Hok as (H1 & H2 & H3 & [->| ->] & H5); simpl.
  - rewrite is_empty_multimap_of. destruct cl; simpl; naive_solver.
  - rewrite is_empty_map, !is_empty_multimap_of. destruct cl; simpl; naive_solver.
Qed.

Lemma same_key_Z k c : same_key Z.ltb k (m_key c, c) = (m_key c =? k).
Proof.
  unfold same_key. simpl.
  destruct (Z.ltb_spec (m_key c) k), (Z.ltb_spec k (m_key c)),
    (Z.eqb_spec (m_key c) k); simpl; try done; lia.
Qed.

Lemma same_key_AString n c :
  same_key AString_ltb n (m_name c, c) = String.eqb (m_name c) n.
Proof.
  destruct (String.eqb_spec (m_name c) n) as [E|E].
  - apply same_key_eq; [apply AString_ltb_irrefl|apply AString_ltb_total|done].
  - apply not_true_is_false. intros H. apply E.
    by apply same_key_eq in H;
      [|apply AString_ltb_irrefl|apply AString_ltb_total].
Qed.

Lemma getClustersWithKey_spec key s :
  cache_ok s →
  (getClustersWithKey key s).1 = with_key key (m_clusters s) ∧
  m_clusters (getClustersWithKey key s).2 = m_clusters s ∧
  cache_ok (getClustersWithKey key s).2.
Proof.
  intros Hok. unfold getClustersWithKey.
  rewrite createMultimapClustersSortedByKey_spec by done. simpl.
  split; [|split; [done|]].
  - rewrite equal_range_multimap_of
      by (apply Z.ltb_irrefl || apply Z_ltb_trans || apply Z_ltb_total).
    apply List.filter_ext. intros c. apply same_key_Z.
  - unfold cache_ok in *. simpl. naive_solver.
Qed.

Lemma getClustersWithName_spec name s :
  cache_ok s →
  (getClustersWithName name s).1 = with_name name (m_clusters s) ∧
  m_clusters (getClustersWithName name s).2 = m_clusters s ∧
  cache_ok (getClustersWithName name s).2.
Proof.
  intros Hok. unfold getClustersWithName.
  rewrite createMultimapClustersSortedByName_spec by done. simpl.
  split; [|split; [done|]].
  - rewrite equal_range_multimap_of
      by (apply AString_ltb_irrefl || apply AString_ltb_trans || apply AString_ltb_total).
    apply List.filter_ext. intros c. apply same_key_AString.
  - unfold cache_ok in *. simpl. naive_solver.
Qed.

Lemma getAllClusterKeys_spec s :
  cache_ok s →
  (getAllClusterKeys s).1 = keys_of (m_clusters s) ∧
  m_clusters (getAllClusterKeys s).2 = m_clusters s ∧
  cache_ok (getAllClusterKeys s).2.
Proof.
  destruct s as [cl mk mn vk vn ks kn]. unfold cache_ok, getAllClusterKeys.
  simpl. intros (H1 & H2 & H3 & H4 & [->| ->]); simpl.
  - naive_solver.
  - destruct (keys_of cl) eqn:E; simpl; rewrite ?E; naive_solver.
Qed.

Lemma cache_ok_clearSortedContainers s : cache_ok (clearSortedContainers s).
Proof. unfold cache_ok. simpl. naive_solver. Qed.

Lemma cache_ok_addCluster c s : cache_ok (addCluster c s).
Proof. apply cache_ok_clearSortedContainers. Qed.

Lemma cache_ok_clear s : cache_ok (clear s).
Proof. unfold cache_ok. simpl. naive_solver. Qed.

Lemma run_read_spec r s :
  cache_ok s →
  (run_read r s).1 = (run_read r (uncached (m_clusters s))).1 ∧
  m_clusters (run_read r s).2 = m_clusters s ∧
  cache_ok (run_read r s).2.
Proof.
  intros Hok.
  assert (Hu : cache_ok (uncached (m_clusters s)))
    by (unfold cache_ok; simpl; naive_solver).
  destruct r; cbn [run_read fst snd].
  - destruct (getClustersSortedByKey_spec _ Hok) as (H1 & H2 & H3).
    destruct (getClustersSortedByKey_spec _ Hu) as (H1' & _).
    rewrite H1, H1'. done.
  - destruct (getClustersSortedByName_spec _ Hok) as (H1 & H2 & H3).
    destruct (getClustersSortedByName_spec _ Hu) as (H1' & _).
    rewrite H1, H1'. done.
  - destruct (getClustersWithKey_spec key _ Hok) as (H1 & H2 & H3).
    destruct (getClustersWithKey_spec key _ Hu) as (H1' & _).
    rewrite H1, H1'. done.
  - destruct (getClustersWithName_spec name _ Hok) as (H1 & H2 & H3).
    destruct (getClustersWithName_spec name _ Hu) as (H1' & _).
    rewrite H1, H1'. done.
  - destruct (getAllClusterKeys_spec _ Hok) as (H1 & H2 & H3).
    destruct (getAllClusterKeys_spec _ Hu) as (H1' & _).
    rewrite H1, H1'. done.
Qed.

Lemma run_reads_spec rs s :
  cache_ok s →
  m_clusters (run_reads rs s) = m_clusters s ∧ cache_ok (run_reads rs s).
Proof.
  revert s. induction rs as [|r rs IH]; intros s Hok; [done|].
  simpl. destruct (run_read_spec r s Hok) as (_ & Hcl & Hok').
  destruct (IH _ Hok') as [IH1 IH2]. split; [congruence|done].
Qed.

(** *** What mergeDisjointRightLeftClusters computes *)

Definition has_loc (t : LocationType) (c : Cluster) : bool :=
  bool_decide (m_location c = t).

(** the clusters a CENTRAL cluster of the list is split into *)
Definition splits_of (l : list Cluster) : list Cluster :=
  flat_map splitClusterIntoRightAndLeft (List.filter (has_loc CENTRAL) l).

Definition slot (t : LocationType) (b : Buckets) : option Cluster :=
  match t with
  | UNKNOWN => unknownCluster b
  | CENTRAL => centralCluster b
  | LEFT => leftCluster b
  | RIGHT => rightCluster b
  end.

(** a bucket's clusters coalesced: the first one, with the coordinates of
    the later ones merged into it *)
Definition coalesce (l : list Cluster) : option Cluster :=
  match l with
  | [] => None
  | c :: cs => Some (fold_left mergeCoordinates cs c)
  end.

Definition emitted (l : list Cluster) : list Cluster :=
  option_list (coalesce (List.filter (has_loc UNKNOWN) l)) ++
  option_list (coalesce (List.filter (has_loc CENTRAL) l)) ++
  option_list (coalesce (List.filter (has_loc LEFT) l)) ++
  option_list (coalesce (List.filter (has_loc RIGHT) l)).

Lemma fold_mergeCoordinates cs c :
  m_name (fold_left mergeCoordinates cs c) = m_name c ∧
  m_key (fold_left mergeCoordinates cs c) = m_key c ∧
  m_location (fold_left mergeCoordinates cs c) = m_location c ∧
  m_coordinateXYZ (fold_left mergeCoordinates cs c) =
    m_coordinateXYZ c ++ concat (map m_coordinateXYZ cs).
Proof.
  revert c. induction cs as [|d cs IH]; intros c; simpl.
  - by rewrite app_nil_r.
  - destruct (IH (mergeCoordinates c d)) as (-> & -> & -> & ->).
    simpl. by rewrite <- app_assoc.
Qed.

Lemma fold_merge_or_copy l p :
  fold_left merge_or_copy l p =
  match p with
  | Some c => Some (fold_left mergeCoordinates l c)
  | None => coalesce l
  end.
Proof.
  revert p. induction l as [|d l IH]; intros p; simpl.
  - by destruct p.
  - rewrite IH. by destruct p.
Qed.

Lemma slot_bucket_fold t l b :
  slot t (fold_left bucket_step l b) =
  fold_left merge_or_copy (List.filter (has_loc t) l) (slot t b).
Proof.
  revert b. induction l as [|c l IH]; intros b; [done|].
  simpl. rewrite IH. unfold bucket_step, getLocationType, has_loc.
  destruct t, (m_location c); simpl; done.
Qed.

Lemma m_clusters_add_if_not_null p out :
  m_clusters (add_if_not_null p out) = m_clusters out ++ option_list p.
Proof. destruct p; simpl; [done|by rewrite app_nil_r]. Qed.

Lemma cache_ok_add_if_not_null p out :
  cache_ok out → cache_ok (add_if_not_null p out).
Proof. destruct p; simpl; [intros _; apply cache_ok_addCluster|done]. Qed.

Lemma split_inner_fold l acc :
  fold_left
    (λ acc cluster,
       match getLocationType cluster with
       | UNKNOWN => acc
       | CENTRAL => acc ++ splitClusterIntoRightAndLeft cluster
       | LEFT => acc
       | RIGHT => acc
       end) l acc = acc ++ splits_of l.
Proof.
  unfold splits_of. revert acc.
  induction l as [|c l IH]; intros acc; simpl; [by rewrite app_nil_r|].
  rewrite IH. unfold getLocationType, has_loc.
  destruct (m_location c); simpl; try done.
  by rewrite <- !app_assoc.
Qed.

Lemma split_for_key_eq acc s k :
  split_for_key (acc, s) k =
  (acc ++ splits_of (getClustersWithKey k s).1, (getClustersWithKey k s).2).
Proof.
  unfold split_for_key. destruct (getClustersWithKey k s) as [kc s1].
  by rewrite split_inner_fold.
Qed.

Lemma split_loop_spec keys acc s :
  cache_ok s →
  (fold_left split_for_key keys (acc, s)).1 =
    acc ++ flat_map (λ k, splits_of (with_key k (m_clusters s))) keys ∧
  m_clusters (fold_left split_for_key keys (acc, s)).2 = m_clusters s ∧
  cache_ok (fold_left split_for_key keys (acc, s)).2.
Proof.
  revert acc s. induction keys as [|k keys IH]; intros acc s Hok.
  - simpl. by rewrite app_nil_r.
  - cbn [fold_left flat_map]. rewrite split_for_key_eq.
    destruct (getClustersWithKey_spec k s Hok) as (H1 & H2 & H3).
    destruct (IH (acc ++ splits_of (getClustersWithKey k s).1) _ H3)
      as (E1 & E2 & E3).
    split; [|split; [congruence|done]].
    rewrite E1, H1, H2, <- app_assoc. done.
Qed.

Lemma add_loop_spec new s :
  cache_ok s →
  m_clusters (fold_left (λ s c, addCluster c s) new s) = m_clusters s ++ new ∧
  cache_ok (fold_left (λ s c, addCluster c s) new s).
Proof.
  revert s. induction new as [|c new IH]; intros s Hok; simpl.
  - by rewrite app_nil_r.
  - destruct (IH (addCluster c s) (cache_ok_addCluster c s)) as [-> ?].
    split; [|done]. simpl. by rewrite <- app_assoc.
Qed.

Lemma merge_for_key_spec out s k :
  cache_ok s → cache_ok out →
  m_clusters (merge_for_key (out, s) k).1 =
    m_clusters out ++ emitted (with_key k (m_clusters s)) ∧
  cache_ok (merge_for_key (out, s) k).1 ∧
  m_clusters (merge_for_key (out, s) k).2 = m_clusters s ∧
  cache_ok (merge_for_key (out, s) k).2.
Proof.
  intros Hok Hout. unfold merge_for_key.
  destruct (getClustersWithKey_spec k s Hok) as (H1 & H2 & H3).
  destruct (getClustersWithKey k s) as [kc s1]. simpl in *. subst kc.
  split; [|split; [by repeat apply cache_ok_add_if_not_null|done]].
  rewrite !m_clusters_add_if_not_null.
  pose proof (λ t, slot_bucket_fold t (with_key k (m_clusters s))
                     (mkBuckets None None None None)) as Hslot.
  pose proof (Hslot UNKNOWN) as HU. pose proof (Hslot CENTRAL) as HC.
  pose proof (Hslot LEFT) as HL. pose proof (Hslot RIGHT) as HR.
  simpl in HU, HC, HL, HR. rewrite fold_merge_or_copy in HU, HC, HL, HR.
  rewrite HU, HC, HL, HR. unfold emitted. by rewrite <- !app_assoc.
Qed.

Lemma merge_loop_spec keys out s :
  cache_ok s → cache_ok out →
  m_clusters (fold_left merge_for_key keys (out, s)).1 =
    m_clusters out ++ flat_map (λ k, emitted (with_key k (m_clusters s))) keys ∧
  cache_ok (fold_left merge_for_key keys (out, s)).1 ∧
  m_clusters (fold_left merge_for_key keys (out, s)).2 = m_clusters s ∧
  cache_ok (fold_left merge_for_key keys (out, s)).2.
Proof.
  revert out s. induction keys as [|k keys IH]; intros out s Hok Hout.
  - simpl. by rewrite app_nil_r.
  - cbn [fold_left flat_map].
    destruct (merge_for_key_spec out s k Hok Hout) as (H1 & H2 & H3 & H4).
    rewrite (surjective_pairing (merge_for_key (out, s) k)).
    destruct (IH _ _ H4 H2) as (E1 & E2 & E3 & E4).
    split; [|split; [done|split; [congruence|done]]].
    rewrite E1, H1, H3, <- app_assoc. done.
Qed.

(** this container's clusters once the split clusters have been added *)
Definition expanded (clusters : list Cluster) : list Cluster :=
  clusters ++
  flat_map (λ k, splits_of (with_key k clusters)) (keys_of clusters).

Lemma mergeDisjointRightLeftClusters_eq s :
  mergeDisjointRightLeftClusters s =
  fold_left merge_for_key (getAllClusterKeys s).1
    (ClusterContainerNew,
     fold_left (λ s c, addCluster c s)
       (fold_left split_for_key (getAllClusterKeys s).1
          ([], (getAllClusterKeys s).2)).1
       (fold_left split_for_key (getAllClusterKeys s).1
          ([], (getAllClusterKeys s).2)).2).
Proof.
  unfold mergeDisjointRightLeftClusters.
  destruct (getAllClusterKeys s) as [allKeys s0]. cbn [fst snd].
  by destruct (fold_left split_for_key allKeys ([], s0)).
Qed.

Lemma mergeDisjointRightLeftClusters_spec s :
  cache_ok s →
  m_clusters (mergeDisjointRightLeftClusters s).1 =
    flat_map (λ k, emitted (with_key k (expanded (m_clusters s))))
             (keys_of (m_clusters s)) ∧
  cache_ok (mergeDisjointRightLeftClusters s).1 ∧
  m_clusters (mergeDisjointRightLeftClusters s).2 = expanded (m_clusters s) ∧
  cache_ok (mergeDisjointRightLeftClusters s).2.
Proof.
  intros Hok. rewrite mergeDisjointRightLeftClusters_eq.
  destruct (getAllClusterKeys_spec s Hok) as (H1 & H2 & H3).
  rewrite H1.
  destruct (split_loop_spec (keys_of (m_clusters s)) [] _ H3) as (K1 & K2 & K3).
  destruct (add_loop_spec
              (fold_left split_for_key (keys_of (m_clusters s))
                 ([], (getAllClusterKeys s).2)).1 _ K3) as (L1 & L2).
  assert (Hnew : cache_ok ClusterContainerNew)
    by (unfold cache_ok; simpl; naive_solver).
  destruct (merge_loop_spec (keys_of (m_clusters s)) ClusterContainerNew _ L2 Hnew)
    as (M1 & M2 & M3 & M4).
  split; [|split; [done|split; [|done]]].
  - rewrite M1, L1, K2, K1, H2. done.
  - rewrite M3, L1, K2, K1, H2. done.
Qed.

Lemma reachable_cache_ok s : reachable s → cache_ok s.
Proof.
  induction 1 as [|m s _ IH|r s _ IH|key s _ IH|s _ IH|s _ IH].
  - unfold cache_ok. simpl. naive_solver.
  - destruct m; [apply cache_ok_addCluster|apply cache_ok_clear].
  - by apply run_read_spec.
  - done.
  - by apply mergeDisjointRightLeftClusters_spec.
  - by apply mergeDisjointRightLeftClusters_spec.
Qed.


Lemma keys_of_In clusters k :
  In k (keys_of clusters) ↔ ∃ c, In c clusters ∧ m_key c = k.
Proof.
  unfold keys_of. induction clusters as [|c l IH] using rev_ind.
  - simpl. naive_solver.
  - rewrite fold_left_app. simpl. rewrite set_insert_In, IH.
    unfold getKey. setoid_rewrite in_app_iff. simpl. naive_solver.
Qed.

Lemma keys_of_NoDup clusters : NoDup (keys_of clusters).
Proof.
  apply StronglySorted_lt_NoDup. unfold keys_of.
  induction clusters as [|c l IH] using rev_ind; [constructor|].
  rewrite fold_left_app. simpl. by apply set_insert_sorted.
Qed.

(** *** Selecting the clusters of one key and one location type *)

Definition select (key : Z) (t : LocationType) (l : list Cluster)
  : list Cluster :=
  List.filter (λ c, (m_key c =? key) && has_loc t c) l.

Definition coordinates_of (l : list Cluster) : list Vector3D :=
  concat (map m_coordinateXYZ l).

(** the clusters, the CENTRAL ones among them, followed by the clusters
    from splitting the CENTRAL ones, in the order of the list; for each key
    these are the clusters of [expanded], in the same order *)
Definition with_split_clusters (clusters : list Cluster) : list Cluster :=
  clusters ++ splits_of clusters.

Lemma select_with_key key t l :
  select key t l = List.filter (has_loc t) (with_key key l).
Proof.
  unfold select, with_key. induction l as [|c l IH]; [done|]. simpl.
  destruct (m_key c =? key); simpl; [|done].
  destruct (has_loc t c); by rewrite IH.
Qed.

Lemma filter_flat_map {A B} (f : B → bool) (g : A → list B) l :
  List.filter f (flat_map g l) = flat_map (λ a, List.filter f (g a)) l.
Proof.
  induction l as [|a l IH]; [done|]. simpl. by rewrite List.filter_app, IH.
Qed.

Lemma with_key_splits_of key l :
  with_key key (splits_of l) = splits_of (with_key key l).
Proof.
  unfold with_key, splits_of. induction l as [|c l IH]; [done|]. simpl.
  destruct (has_loc CENTRAL c) eqn:Hc; simpl.
  - destruct (m_key c =? key); simpl; rewrite ?Hc; simpl; by rewrite IH.
  - destruct (m_key c =? key); simpl; rewrite ?Hc; simpl; by rewrite IH.
Qed.

Lemma with_key_with_key key k l :
  with_key key (with_key k l) = if k =? key then with_key key l else [].
Proof.
  unfold with_key. induction l as [|c l IH]; simpl; [by destruct (k =? key)|].
  destruct (Z.eqb_spec (m_key c) k) as [E|E]; simpl; rewrite IH.
  - subst k. by destruct (m_key c =? key).
  - destruct (Z.eqb_spec k key) as [->|?]; [|done].
    by apply Z.eqb_neq in E as ->.
Qed.

Lemma flat_map_pick {A} (key : Z) (X : list A) (keys : list Z) :
  NoDup keys →
  flat_map (λ k, if k =? key then X else []) keys =
  if bool_decide (key ∈ keys) then X else [].
Proof.
  induction 1 as [|k keys Hk Hnd IH]; [done|]. simpl. rewrite IH.
  destruct (Z.eqb_spec k key) as [->|Hne].
  - rewrite (bool_decide_false (key ∈ keys)) by done.
    rewrite (bool_decide_true (key ∈ key :: keys)) by apply list_elem_of_here.
    by rewrite app_nil_r.
  - simpl. rewrite (bool_decide_ext (key ∈ k :: keys) (key ∈ keys)); [done|].
    rewrite elem_of_cons. naive_solver.
Qed.

Lemma with_key_expanded key clusters :
  with_key key (expanded clusters) = with_key key (with_split_clusters clusters).
Proof.
  unfold expanded, with_split_clusters, with_key at 1 3.
  rewrite !List.filter_app. f_equal. fold (with_key key (splits_of clusters)).
  rewrite with_key_splits_of, filter_flat_map.
  rewrite (flat_map_ext _ (λ k, if k =? key then splits_of (with_key key clusters) else [])).
  - rewrite flat_map_pick by apply keys_of_NoDup.
    case_bool_decide as Hin; [done|].
    destruct (with_key key clusters) as [|c l] eqn:E; [done|].
    exfalso. apply Hin, list_elem_of_In, keys_of_In. exists c.
    assert (Hc : In c (with_key key clusters)) by (rewrite E; by left).
    apply filter_In in Hc as [? ?%Z.eqb_eq]. done.
  - intros k. fold (with_key key (splits_of (with_key k clusters))).
    rewrite with_key_splits_of, with_key_with_key. by destruct (k =? key).
Qed.

Lemma coalesce_Some l c :
  coalesce l = Some c →
  ∃ c0 cs, l = c0 :: cs ∧ m_name c = m_name c0 ∧ m_key c = m_key c0 ∧
           m_location c = m_location c0 ∧
           m_coordinateXYZ c = coordinates_of l.
Proof.
  destruct l as [|c0 cs]; [done|]. simpl. intros [= <-].
  exists c0, cs. destruct (fold_mergeCoordinates cs c0) as (-> & -> & -> & ->).
  done.
Qed.

Lemma coordinates_of_coalesce l :
  coordinates_of (option_list (coalesce l)) = coordinates_of l.
Proof.
  destruct (coalesce l) as [c|] eqn:E.
  - apply coalesce_Some in E as (c0 & cs & -> & _ & _ & _ & E).
    unfold coordinates_of at 1. simpl. by rewrite app_nil_r.
  - by destruct l.
Qed.

Lemma select_coalesce key t t' k l :
  Forall (λ c, m_key c = k) l →
  select key t (option_list (coalesce (List.filter (has_loc t') l))) =
  if (k =? key) && bool_decide (t' = t)
  then option_list (coalesce (List.filter (has_loc t') l)) else [].
Proof.
  intros Hall. destruct (coalesce _) as [c|] eqn:E; simpl;
    [|by destruct (_ && _)].
  apply coalesce_Some in E as (c0 & cs & El & _ & Hk & Hl & _).
  assert (Hin : In c0 (List.filter (has_loc t') l)) by (rewrite El; by left).
  apply filter_In in Hin as [Hin Hloc].
  rewrite Forall_forall in Hall. apply list_elem_of_In, Hall in Hin.
  unfold has_loc in *. apply bool_decide_eq_true in Hloc.
  rewrite Hk, Hl, Hin, Hloc.
  destruct (k =? key); simpl; [|done].
  destruct (decide (t' = t)) as [->|Hne].
  - by rewrite !bool_decide_true.
  - by rewrite !bool_decide_false.
Qed.

Lemma select_emitted key t k l :
  Forall (λ c, m_key c = k) l →
  select key t (emitted l) =
  if k =? key then option_list (coalesce (List.filter (has_loc t) l)) else [].
Proof.
  intros Hall. unfold emitted, select at 1. rewrite !List.filter_app.
  fold (select key t (option_list (coalesce (List.filter (has_loc UNKNOWN) l)))).
  fold (select key t (option_list (coalesce (List.filter (has_loc CENTRAL) l)))).
  fold (select key t (option_list (coalesce (List.filter (has_loc LEFT) l)))).
  fold (select key t (option_list (coalesce (List.filter (has_loc RIGHT) l)))).
  rewrite !(select_coalesce key t _ k) by done.
  destruct (k =? key); simpl; [|done].
  destruct t; simpl; by rewrite ?app_nil_r.
Qed.

Lemma with_key_Forall k l : Forall (λ c, m_key c = k) (with_key k l).
Proof.
  apply Forall_forall. intros c Hc.
  apply list_elem_of_In, filter_In in Hc as [_ ?%Z.eqb_eq]. done.
Qed.

(** The clusters of one key and one type in the returned container. *)
Lemma select_merge_output s key t :
  cache_ok s →
  select key t (m_clusters (mergeDisjointRightLeftClusters s).1) =
  option_list (coalesce (select key t (with_split_clusters (m_clusters s)))).
Proof.
  intros Hok.
  destruct (mergeDisjointRightLeftClusters_spec s Hok) as (-> & _).
  unfold select at 1. rewrite filter_flat_map.
  rewrite (flat_map_ext _
    (λ k, if k =? key
          then option_list (coalesce (select key t (with_split_clusters (m_clusters s))))
          else [])).
  - rewrite flat_map_pick by apply keys_of_NoDup.
    case_bool_decide as Hin; [done|].
    rewrite select_with_key.
    destruct (with_key key (with_split_clusters (m_clusters s))) as [|c l] eqn:E;
      [done|].
    exfalso. apply Hin, list_elem_of_In, keys_of_In.
    unfold with_split_clusters in E.
    unfold with_key in E. rewrite List.filter_app in E.
    fold (with_key key (m_clusters s)) in E.
    fold (with_key key (splits_of (m_clusters s))) in E.
    rewrite with_key_splits_of in E.
    destruct (with_key key (m_clusters s)) as [|c0 l0] eqn:E0; [done|].
    exists c0.
    assert (Hc : In c0 (with_key key (m_clusters s))) by (rewrite E0; by left).
    apply filter_In in Hc as [? ?%Z.eqb_eq]. done.
  - intros k.
    fold (select key t (emitted (with_key k (expanded (m_clusters s))))).
    rewrite (select_emitted key t k) by apply with_key_Forall.
    destruct (Z.eqb_spec k key) as [->|?]; [|done].
    by rewrite select_with_key, with_key_expanded.
Qed.

(** C9: for every container and every key, [getClustersWithKey] returns
    exactly the clusters of the container whose key is that key, each as
    often as the container holds it and in the container's order, and the
    empty vector when no cluster has the key. *)
Theorem getClustersWithKey_exact s key :
  reachable s →
  (getClustersWithKey key s).1 =
    List.filter (λ c, m_key c =? key) (m_clusters s) ∧
  (∀ c, count_occ Cluster_eq_dec (getClustersWithKey key s).1 c =
        if decide (m_key c = key)
        then count_occ Cluster_eq_dec (m_clusters s) c else 0%nat) ∧
  ((∀ c, In c (m_clusters s) → m_key c ≠ key) →
   (getClustersWithKey key s).1 = []).
Proof.
  intros Hs. apply reachable_cache_ok in Hs.
  destruct (getClustersWithKey_spec key s Hs) as (-> & _).
  split; [done|]. split.
  - intros c. unfold with_key.
    induction (m_clusters s) as [|d l IH]; simpl; [by case_decide|].
    destruct (Z.eqb_spec (m_key d) key) as [E|E]; simpl; rewrite IH;
      destruct (Cluster_eq_dec d c) as [->|?];
      destruct (decide (m_key c = key)); congruence.
  - intros Hnone. apply filter_none. intros c Hc. apply Z.eqb_neq. by apply Hnone.
Qed.

(** C10: each mutation of the cluster set (addCluster, clear) leaves all
    five cached views empty, whatever they held before; and a read made
    after the mutation, directly or after any other reads, returns what
    the same read returns on a container with the current clusters whose
    caches were never filled. *)
Theorem mutation_invalidates_caches m s rs r :
  let s' := run_mutation m s in
  (m_mapWithClustersSortedByKey s' = [] ∧
   m_mapWithClustersSortedByName s' = [] ∧
   m_vectorClustersSortedByKey s' = [] ∧
   m_vectorClustersSortedByName s' = [] ∧
   m_keysSorted s' = []) ∧
  m_clusters (run_reads rs s') = m_clusters s' ∧
  (run_read r (run_reads rs s')).1 = (run_read r (uncached (m_clusters s'))).1.
Proof.
  intros s'. split; [by destruct m|].
  assert (Hok : cache_ok s')
    by (destruct m; [apply cache_ok_addCluster|apply cache_ok_clear]).
  destruct (run_reads_spec rs s' Hok) as [Hcl Hok'].
  split; [done|].
  destruct (run_read_spec r _ Hok') as (-> & _). by rewrite Hcl.
Qed.

(** The input of the comparison in the words of C4: the clusters of the
    container after its CENTRAL clusters have been split by X-sign into
    LEFT and RIGHT parts, each CENTRAL cluster giving way to its parts. *)
Definition central_clusters_split (clusters : list Cluster) : list Cluster :=
  flat_map
    (λ c, if has_loc CENTRAL c then splitClusterIntoRightAndLeft c else [c])
    clusters.

Lemma central_clusters_split_Permutation l :
  central_clusters_split l ≡ₚ
  List.filter (λ c, negb (has_loc CENTRAL c)) l ++ splits_of l.
Proof.
  unfold central_clusters_split, splits_of.
  generalize splitClusterIntoRightAndLeft. intros f.
  induction l as [|c l IH]; [done|]. cbn [flat_map List.filter].
  destruct (has_loc CENTRAL c); cbn [negb flat_map].
  - rewrite IH. apply Permutation_app_swap_app.
  - cbn [app]. by rewrite IH.
Qed.

Lemma coordinates_of_Permutation l l' :
  l ≡ₚ l' → coordinates_of l ≡ₚ coordinates_of l'.
Proof.
  unfold coordinates_of. induction 1 as [|c l l' _ IH|c d l|l1 l2 l3 _ IH1 _ IH2].
  - done.
  - simpl. by rewrite IH.
  - simpl. rewrite !app_assoc. f_equiv. apply Permutation_app_comm.
  - by rewrite IH1.
Qed.

Lemma select_Permutation key t l l' :
  l ≡ₚ l' → select key t l ≡ₚ select key t l'.
Proof.
  unfold select. induction 1 as [|c l l' _ IH|c d l|l1 l2 l3 _ IH1 _ IH2].
  - done.
  - simpl. destruct (_ && _); by rewrite IH.
  - simpl. destruct (_ && _), (_ && _); try done. apply perm_swap.
  - by rewrite IH1.
Qed.

Lemma select_not_central key t l :
  t ≠ CENTRAL →
  select key t (List.filter (λ c, negb (has_loc CENTRAL c)) l) = select key t l.
Proof.
  intros Ht. unfold select, has_loc. induction l as [|c l IH]; [done|].
  simpl. case_bool_decide as Hc; simpl.
  - rewrite IH. rewrite (bool_decide_false (m_location c = t)) by congruence.
    by rewrite andb_false_r.
  - by rewrite IH.
Qed.

Lemma select_central_splits key l : select key CENTRAL (splits_of l) = [].
Proof.
  apply filter_none. intros c Hc. unfold splits_of in Hc.
  apply in_flat_map in Hc as (c0 & _ & Hc).
  unfold has_loc. destruct Hc as [<-|[<-|[]]]; simpl; by rewrite andb_false_r.
Qed.

(** C4 (amended): for every container and every key (present in it or
    not), the container returned by [mergeDisjointRightLeftClusters] holds
    at most one cluster of that key per location type.  For each location
    type other than CENTRAL the member coordinates of the returned
    clusters of the key and type are, as a multiset, those of the input
    clusters of the key and type after the CENTRAL clusters have been split
    by X-sign into LEFT and RIGHT parts.  The split does not remove the
    CENTRAL clusters: the member coordinates of the returned cluster of the
    key and type CENTRAL are those of the CENTRAL input clusters of the
    key. *)
Theorem merge_one_cluster_per_key_and_type s key t :
  reachable s →
  let out := m_clusters (mergeDisjointRightLeftClusters s).1 in
  (length (select key t out) ≤ 1)%nat ∧
  (t ≠ CENTRAL →
   coordinates_of (select key t out) ≡ₚ
   coordinates_of (select key t (central_clusters_split (m_clusters s)))) ∧
  (t = CENTRAL →
   coordinates_of (select key t out) ≡ₚ
   coordinates_of (select key t (m_clusters s))).
Proof.
  intros Hs out. apply reachable_cache_ok in Hs. unfold out.
  rewrite select_merge_output by done. split; [|split].
  - destruct (coalesce _); simpl; lia.
  - intros Ht. rewrite coordinates_of_coalesce.
    apply coordinates_of_Permutation.
    rewrite (select_Permutation key t _ _
               (central_clusters_split_Permutation (m_clusters s))).
    unfold with_split_clusters, select at 1 2.
    rewrite !List.filter_app.
    fold (select key t (m_clusters s)).
    fold (select key t (splits_of (m_clusters s))).
    fold (select key t
            (List.filter (λ c, negb (has_loc CENTRAL c)) (m_clusters s))).
    by rewrite select_not_central.
  - intros ->. rewrite coordinates_of_coalesce.
    unfold with_split_clusters, select at 1. rewrite List.filter_app.
    fold (select key CENTRAL (m_clusters s)).
    fold (select key CENTRAL (splits_of (m_clusters s))).
    by rewrite select_central_splits, app_nil_r.
Qed.


Lemma filter_Permutation {A} (f : A → bool) (l l' : list A) :
  l ≡ₚ l' → List.filter f l ≡ₚ List.filter f l'.
Proof.
  induction 1 as [|x l l' _ IH|x y l|l l' l'' _ IH1 _ IH2]; simpl.
  - done.
  - destruct (f x); [by constructor|done].
  - destruct (f x), (f y); try done. apply perm_swap.
  - by etrans.
Qed.

Lemma filter_perm_singleton {A} (f : A → bool) (l l' : list A) x :
  l ≡ₚ l' → List.filter f l' = [x] → List.filter f l = [x].
Proof.
  intros HP E. apply (filter_Permutation f) in HP. rewrite E in HP.
  by apply Permutation_singleton_r in HP.
Qed.

Lemma filter_perm_nil {A} (f : A → bool) (l l' : list A) :
  l ≡ₚ l' → List.filter f l' = [] → List.filter f l = [].
Proof.
  intros HP E. apply (filter_Permutation f) in HP. rewrite E in HP.
  by apply Permutation_nil_r in HP.
Qed.

(** C1 (amended): a container holding exactly three clusters of key 5, one
    CENTRAL with no member coordinate on X = 0, one LEFT and one RIGHT:
    the returned container holds for key 5 exactly one LEFT cluster (the
    LEFT coordinates with the CENTRAL cluster's negative-X coordinates),
    exactly one RIGHT cluster (the RIGHT coordinates with the CENTRAL
    cluster's positive-X coordinates), no UNKNOWN cluster, and one CENTRAL
    cluster, the copy of the CENTRAL cluster of the input. *)
Theorem merge_central_left_right s c l r :
  reachable s →
  m_clusters s ≡ₚ [c; l; r] →
  m_key c = 5 → m_key l = 5 → m_key r = 5 →
  m_location c = CENTRAL → m_location l = LEFT → m_location r = RIGHT →
  Forall (λ xyz, vec_x xyz ≠ 0) (m_coordinateXYZ c) →
  let out := m_clusters (mergeDisjointRightLeftClusters s).1 in
  select 5 LEFT out =
    [mkCluster (m_name l) 5 LEFT
       (m_coordinateXYZ l ++
        List.filter (λ xyz, vec_x xyz <? 0) (m_coordinateXYZ c))] ∧
  select 5 RIGHT out =
    [mkCluster (m_name r) 5 RIGHT
       (m_coordinateXYZ r ++
        List.filter (λ xyz, 0 <? vec_x xyz) (m_coordinateXYZ c))] ∧
  select 5 CENTRAL out = [c] ∧
  select 5 UNKNOWN out = [].
Proof.
  intros Hs HP Kc Kl Kr Lc Ll Lr Hx out. apply reachable_cache_ok in Hs.
  unfold out. rewrite !select_merge_output by done.
  destruct c as [nc kc tc xc], l as [nl kl tl xl], r as [nr kr tr xr].
  simpl in *. subst.
  set (c := mkCluster nc 5 CENTRAL xc) in *.
  set (l := mkCluster nl 5 LEFT xl) in *.
  set (r := mkCluster nr 5 RIGHT xr) in *.
  assert (Hsplit : splits_of (m_clusters s) = splitClusterIntoRightAndLeft c).
  { unfold splits_of.
    rewrite (filter_perm_singleton _ _ _ c HP) by done. done. }
  assert (Hneg : List.filter isLeftX xc = List.filter (λ xyz, vec_x xyz <? 0) xc).
  { apply List.filter_ext_in. intros xyz Hin.
    rewrite Forall_forall in Hx. apply list_elem_of_In, Hx in Hin.
    unfold isLeftX. apply Z.eqb_neq in Hin as ->.
    by rewrite andb_false_r, orb_false_r. }
  assert (Hpos : List.filter (λ xyz, negb (isLeftX xyz)) xc =
                 List.filter (λ xyz, 0 <? vec_x xyz) xc).
  { apply List.filter_ext_in. intros xyz Hin.
    rewrite Forall_forall in Hx. apply list_elem_of_In, Hx in Hin.
    unfold isLeftX. pose proof Hin as Hin'. apply Z.eqb_neq in Hin as ->.
    rewrite andb_false_r, orb_false_r.
    destruct (Z.ltb_spec (vec_x xyz) 0), (Z.ltb_spec 0 (vec_x xyz)); simpl;
      try done; lia. }
  unfold with_split_clusters, select. rewrite !List.filter_app, Hsplit.
  rewrite (filter_perm_singleton _ _ _ l HP) by done.
  rewrite (filter_perm_singleton _ _ _ r HP) by done.
  rewrite (filter_perm_singleton _ _ _ c HP) by done.
  rewrite (filter_perm_nil _ _ _ HP) by done.
  simpl. unfold mergeCoordinates. simpl. by rewrite Hneg, Hpos.
Qed.

(** *** The sorted views *)

Lemma multimap_of_entries {K V} (ltb : K → K → bool) (key : V → K) l :
  Forall (λ e, e.1 = key e.2) (multimap_of ltb key l).
Proof.
  induction l as [|c l IH] using rev_ind; [constructor|].
  rewrite multimap_of_snoc. apply Forall_forall.
  intros e [->|He]%list_elem_of_In%multimap_insert_In; [done|].
  rewrite Forall_forall in IH. by apply IH, list_elem_of_In.
Qed.

Lemma sorted_view {K V} (ltb : K → K → bool) (key : V → K)
    (R : V → V → Prop) m :
  (∀ a b, ltb (key b) (key a) = false → R a b) →
  Forall (λ e, e.1 = key e.2) m → key_sorted ltb m →
  StronglySorted R (map snd m).
Proof.
  intros HR He Hs. induction Hs as [|e m Hs IH Hall]; [constructor|].
  apply Forall_cons in He as [E He]. simpl. constructor; [by apply IH|].
  rewrite Forall_map. rewrite Forall_forall in Hall, He |- *.
  intros e' Hin. simpl. apply HR. rewrite <- E, <- (He e' Hin). by apply Hall.
Qed.

Lemma filter_view {K V} (ltb : K → K → bool) (key : V → K) k m :
  Forall (λ e, e.1 = key e.2) m →
  List.filter (λ c, same_key ltb k (key c, c)) (map snd m) =
  map snd (List.filter (same_key ltb k) m).
Proof.
  induction 1 as [|[k' c] m E _ IH]; [done|]. simpl in *. subst k'.
  rewrite IH. by destruct (same_key ltb k (key c, c)).
Qed.

(** X1: [getClustersSortedByKey] returns every cluster of the container
    exactly as often as the container holds it, ordered by ascending key;
    clusters of the same key keep the order in which they were added.  The
    call leaves the clusters of the container as they are. *)
Theorem getClustersSortedByKey_sorted s :
  reachable s →
  let out := (getClustersSortedByKey s).1 in
  out ≡ₚ m_clusters s ∧
  StronglySorted (λ a b, m_key a ≤ m_key b) out ∧
  (∀ k, List.filter (λ c, m_key c =? k) out =
        List.filter (λ c, m_key c =? k) (m_clusters s)) ∧
  m_clusters (getClustersSortedByKey s).2 = m_clusters s.
Proof.
  intros Hok%reachable_cache_ok.
  destruct (getClustersSortedByKey_spec s Hok) as (E & Hcl & _).
  cbn zeta. rewrite E. split; [apply multimap_of_Permutation|].
  split; [|split; [|done]].
  - apply (sorted_view Z.ltb m_key);
      [intros a b; lia
      |apply multimap_of_entries
      |apply multimap_of_sorted;
         [apply Z.ltb_irrefl|apply Z_ltb_trans|apply Z_ltb_total]].
  - intros k.
    rewrite (List.filter_ext _ (λ c, same_key Z.ltb k (m_key c, c)))
      by (intros c; by rewrite same_key_Z).
    rewrite filter_view by apply multimap_of_entries.
    rewrite multimap_of_filter
      by (apply Z.ltb_irrefl || apply Z_ltb_trans || apply Z_ltb_total).
    rewrite map_map. simpl. rewrite map_id.
    apply List.filter_ext. intros c. apply same_key_Z.
Qed.

(** X2: [getClustersSortedByName] returns every cluster of the container
    exactly as often as the container holds it, ordered by ascending name
    (no cluster is followed by one of a lesser name); clusters of the
    same name keep the order in which they were added.  The call leaves the
    clusters of the container as they are. *)
Theorem getClustersSortedByName_sorted s :
  reachable s →
  let out := (getClustersSortedByName s).1 in
  out ≡ₚ m_clusters s ∧
  StronglySorted (λ a b, AString_ltb (m_name b) (m_name a) = false) out ∧
  (∀ n, List.filter (λ c, String.eqb (m_name c) n) out =
        List.filter (λ c, String.eqb (m_name c) n) (m_clusters s)) ∧
  m_clusters (getClustersSortedByName s).2 = m_clusters s.
Proof.
  intros Hok%reachable_cache_ok.
  destruct (getClustersSortedByName_spec s Hok) as (E & Hcl & _).
  cbn zeta. rewrite E. split; [apply multimap_of_Permutation|].
  split; [|split; [|done]].
  - apply (sorted_view AString_ltb m_name);
      [done
      |apply multimap_of_entries
      |apply multimap_of_sorted;
         [apply AString_ltb_irrefl|apply AString_ltb_trans
         |apply AString_ltb_total]].
  - intros n.
    rewrite (List.filter_ext _ (λ c, same_key AString_ltb n (m_name c, c)))
      by (intros c; by rewrite same_key_AString).
    rewrite filter_view by apply multimap_of_entries.
    rewrite multimap_of_filter
      by (apply AString_ltb_irrefl || apply AString_ltb_trans
          || apply AString_ltb_total).
    rewrite map_map. simpl. rewrite map_id.
    apply List.filter_ext. intros c. apply same_key_AString.
Qed.

(** X3: [getClustersWithName] returns exactly the clusters of the
    container that have the name, each as often as the container holds it
    and in the container's order, and the empty vector when no cluster has
    the name. *)
Theorem getClustersWithName_exact s name :
  reachable s →
  (getClustersWithName name s).1 =
    List.filter (λ c, String.eqb (m_name c) name) (m_clusters s) ∧
  ((∀ c, In c (m_clusters s) → m_name c ≠ name) →
   (getClustersWithName name s).1 = []).
Proof.
  intros Hok%reachable_cache_ok.
  destruct (getClustersWithName_spec name s Hok) as (E & _).
  rewrite E. split; [done|].
  intros Hnone. apply filter_none. intros c Hc.
  apply String.eqb_neq. by apply Hnone.
Qed.

Lemma keys_of_sorted clusters : StronglySorted Z.lt (keys_of clusters).
Proof.
  unfold keys_of. induction clusters as [|c l IH] using rev_ind; [constructor|].
  rewrite fold_left_app. simpl. by apply set_insert_sorted.
Qed.

(** X4: [getAllClusterKeys] returns the keys of the clusters of the
    container in strictly ascending order, each key once; a key is
    returned exactly when some cluster of the container has it. *)
Theorem getAllClusterKeys_sorted s :
  reachable s →
  StronglySorted Z.lt (getAllClusterKeys s).1 ∧
  ∀ k, In k (getAllClusterKeys s).1 ↔ ∃ c, In c (m_clusters s) ∧ m_key c = k.
Proof.
  intros Hok%reachable_cache_ok.
  destruct (getAllClusterKeys_spec s Hok) as (E & _). rewrite E.
  split; [apply keys_of_sorted|apply keys_of_In].
Qed.


(** *** The keys that are not in any cluster *)

Lemma keysNot_createByKey s :
  m_keysThatAreNotInAnyClusters (createMultimapClustersSortedByKey s) =
  m_keysThatAreNotInAnyClusters s.
Proof.
  unfold createMultimapClustersSortedByKey.
  by repeat (destruct (is_empty _); simpl).
Qed.

Lemma keysNot_createByName s :
  m_keysThatAreNotInAnyClusters (createMultimapClustersSortedByName s) =
  m_keysThatAreNotInAnyClusters s.
Proof.
  unfold createMultimapClustersSortedByName.
  by repeat (destruct (is_empty _); simpl).
Qed.

Lemma keysNot_read r s :
  m_keysThatAreNotInAnyClusters (run_read r s).2 =
  m_keysThatAreNotInAnyClusters s.
Proof.
  destruct r; cbn [run_read snd].
  - unfold getClustersSortedByKey. cbn [snd].
    repeat (destruct (is_empty _); cbn [negb m_keysThatAreNotInAnyClusters]);
      apply keysNot_createByKey.
  - unfold getClustersSortedByName. cbn [snd].
    repeat (destruct (is_empty _); cbn [negb m_keysThatAreNotInAnyClusters]);
      apply keysNot_createByName.
  - apply keysNot_createByKey.
  - apply keysNot_createByName.
  - unfold getAllClusterKeys. by destruct (is_empty _).
Qed.

Lemma keysNot_split_loop keys acc s :
  m_keysThatAreNotInAnyClusters (fold_left split_for_key keys (acc, s)).2 =
  m_keysThatAreNotInAnyClusters s.
Proof.
  revert acc s. induction keys as [|k keys IH]; intros acc s; [done|].
  cbn [fold_left]. rewrite split_for_key_eq, IH.
  apply (keysNot_read (ReadWithKey k)).
Qed.

Lemma keysNot_add_loop new s :
  m_keysThatAreNotInAnyClusters (fold_left (λ s c, addCluster c s) new s) =
  m_keysThatAreNotInAnyClusters s.
Proof.
  revert s. induction new as [|c new IH]; intros s; [done|].
  cbn [fold_left]. by rewrite IH.
Qed.

Lemma keysNot_add_if_not_null p out :
  m_keysThatAreNotInAnyClusters (add_if_not_null p out) =
  m_keysThatAreNotInAnyClusters out.
Proof. by destruct p. Qed.

Lemma keysNot_merge_for_key out s k :
  m_keysThatAreNotInAnyClusters (merge_for_key (out, s) k).1 =
    m_keysThatAreNotInAnyClusters out ∧
  m_keysThatAreNotInAnyClusters (merge_for_key (out, s) k).2 =
    m_keysThatAreNotInAnyClusters s.
Proof.
  unfold merge_for_key.
  pose proof (keysNot_read (ReadWithKey k) s) as Hr. cbn [run_read snd] in Hr.
  destruct (getClustersWithKey k s) as [kc s1]. cbn [fst snd] in *.
  by rewrite !keysNot_add_if_not_null.
Qed.

Lemma keysNot_merge_loop keys out s :
  m_keysThatAreNotInAnyClusters (fold_left merge_for_key keys (out, s)).1 =
    m_keysThatAreNotInAnyClusters out ∧
  m_keysThatAreNotInAnyClusters (fold_left merge_for_key keys (out, s)).2 =
    m_keysThatAreNotInAnyClusters s.
Proof.
  revert out s. induction keys as [|k keys IH]; intros out s; [done|].
  cbn [fold_left].
  rewrite (surjective_pairing (merge_for_key (out, s) k)).
  destruct (IH (merge_for_key (out, s) k).1 (merge_for_key (out, s) k).2)
    as [-> ->].
  apply keysNot_merge_for_key.
Qed.

Lemma keysNot_merge s :
  m_keysThatAreNotInAnyClusters (mergeDisjointRightLeftClusters s).1 = [] ∧
  m_keysThatAreNotInAnyClusters (mergeDisjointRightLeftClusters s).2 =
    m_keysThatAreNotInAnyClusters s.
Proof.
  rewrite mergeDisjointRightLeftClusters_eq.
  destruct (keysNot_merge_loop (getAllClusterKeys s).1 ClusterContainerNew
    (fold_left (λ s c, addCluster c s)
       (fold_left split_for_key (getAllClusterKeys s).1
          ([], (getAllClusterKeys s).2)).1
       (fold_left split_for_key (getAllClusterKeys s).1
          ([], (getAllClusterKeys s).2)).2)) as [-> ->].
  split; [done|].
  rewrite keysNot_add_loop, keysNot_split_loop.
  apply (keysNot_read ReadAllKeys).
Qed.

Lemma keysNot_sorted s :
  reachable s → StronglySorted Z.lt (m_keysThatAreNotInAnyClusters s).
Proof.
  induction 1 as [|m s _ IH|r s _ IH|key s _ IH|s _ IH|s _ IH].
  - constructor.
  - by destruct m.
  - by rewrite keysNot_read.
  - by apply set_insert_sorted.
  - by rewrite (proj2 (keysNot_merge s)).
  - rewrite (proj1 (keysNot_merge s)). constructor.
Qed.

(** X5: the keys that are not in any cluster form a set:
    [getKeysThatAreNotInAnyClusters] lists them in strictly ascending order,
    each once; after [addKeyThatIsNotInAnyCluster(key)] the set holds [key]
    and what it held before.  No other member function removes or adds a
    key: [addCluster], the readers and [clear] leave the set as it is, so
    the keys outlive the clusters that [clear] removes. *)
Theorem keysThatAreNotInAnyClusters_set s key :
  reachable s →
  StronglySorted Z.lt (getKeysThatAreNotInAnyClusters s) ∧
  (∀ k, In k (getKeysThatAreNotInAnyClusters
                (addKeyThatIsNotInAnyCluster key s))
        ↔ k = key ∨ In k (getKeysThatAreNotInAnyClusters s)) ∧
  (∀ m, getKeysThatAreNotInAnyClusters (run_mutation m s) =
        getKeysThatAreNotInAnyClusters s) ∧
  (∀ r, getKeysThatAreNotInAnyClusters (run_read r s).2 =
        getKeysThatAreNotInAnyClusters s).
Proof.
  intros Hs. split; [by apply keysNot_sorted|]. split; [|split].
  - intros k. apply set_insert_In.
  - by intros [c|].
  - intros r. apply (keysNot_read r s).
Qed.

(** X6: [mergeDisjointRightLeftClusters] changes the container it is
    called on.  The clusters it held stay, in their order, the CENTRAL
    ones included; behind them come the clusters from splitting: for each
    key in ascending order and each CENTRAL cluster of that key in the
    order of the container, what [splitClusterIntoRightAndLeft] returned
    for it.  The keys of the container are the same as before, and so is
    its set of keys that are not in any cluster; the container returned
    has no such key. *)
Theorem merge_adds_split_clusters s :
  reachable s →
  let this := (mergeDisjointRightLeftClusters s).2 in
  m_clusters this =
    m_clusters s ++
    flat_map
      (λ k, flat_map splitClusterIntoRightAndLeft
              (List.filter
                 (λ c, (m_key c =? k) && bool_decide (m_location c = CENTRAL))
                 (m_clusters s)))
      (getAllClusterKeys s).1 ∧
  getKeysThatAreNotInAnyClusters this = getKeysThatAreNotInAnyClusters s ∧
  getKeysThatAreNotInAnyClusters (mergeDisjointRightLeftClusters s).1 = [].
Proof.
  intros Hok%reachable_cache_ok. cbn zeta.
  destruct (mergeDisjointRightLeftClusters_spec s Hok) as (_ & _ & E & _).
  destruct (getAllClusterKeys_spec s Hok) as (EK & _).
  destruct (keysNot_merge s) as [K1 K2].
  split; [|done]. rewrite E, EK. unfold expanded. f_equal.
  apply flat_map_ext. intros k. unfold splits_of, with_key, has_loc.
  f_equal. clear. induction (m_clusters s) as [|c l IH]; [done|].
  simpl. destruct (m_key c =? k); simpl; rewrite IH; done.
Qed.


(** *** The order of the merged clusters *)

(** the order in which the merge loop looks at its four pointers *)
Definition location_rank (t : LocationType) : Z :=
  match t with UNKNOWN => 0 | CENTRAL => 1 | LEFT => 2 | RIGHT => 3 end.

Definition by_key_then_location (a b : Cluster) : Prop :=
  m_key a < m_key b ∨
  (m_key a = m_key b ∧
   location_rank (m_location a) < location_rank (m_location b)).

Lemma coalesce_has_loc t k l c :
  Forall (λ c, m_key c = k) l →
  coalesce (List.filter (has_loc t) l) = Some c →
  m_location c = t ∧ m_key c = k.
Proof.
  intros Hall (c0 & cs & El & _ & Hk & Hl & _)%coalesce_Some.
  assert (Hin : In c0 (List.filter (has_loc t) l)) by (rewrite El; by left).
  apply filter_In in Hin as [Hin Hloc].
  rewrite Forall_forall in Hall. apply list_elem_of_In, Hall in Hin.
  apply bool_decide_eq_true in Hloc. by rewrite Hk, Hl.
Qed.

Lemma sorted_app {A} (R : A → A → Prop) l1 l2 :
  StronglySorted R l1 → StronglySorted R l2 →
  (∀ a b, In a l1 → In b l2 → R a b) → StronglySorted R (l1 ++ l2).
Proof.
  intros H1 H2 H. induction H1 as [|a l1 _ IH Hall]; [done|].
  simpl. constructor.
  - apply IH. intros a' b Ha'. apply H. by right.
  - apply Forall_app. split; [done|].
    apply Forall_forall. intros b Hb%list_elem_of_In. apply H; [by left|done].
Qed.

Lemma emitted_sorted k l :
  Forall (λ c, m_key c = k) l →
  StronglySorted by_key_then_location (emitted l) ∧
  Forall (λ c, m_key c = k) (emitted l).
Proof.
  intros Hall. unfold emitted.
  set (o := λ t, option_list (coalesce (List.filter (has_loc t) l))).
  change (StronglySorted by_key_then_location
            (o UNKNOWN ++ o CENTRAL ++ o LEFT ++ o RIGHT) ∧
          Forall (λ c, m_key c = k)
            (o UNKNOWN ++ o CENTRAL ++ o LEFT ++ o RIGHT)).
  assert (Ho : ∀ t c, In c (o t) → m_location c = t ∧ m_key c = k).
  { intros t c. unfold o.
    destruct (coalesce (List.filter (has_loc t) l)) as [c'|] eqn:E; [|done].
    intros [<-|[]]. by apply (coalesce_has_loc t k l). }
  assert (Hs : ∀ t, StronglySorted by_key_then_location (o t)).
  { intros t. unfold o. destruct (coalesce _); repeat constructor. }
  assert (HR : ∀ t t' a b,
             location_rank t < location_rank t' →
             In a (o t) → In b (o t') → by_key_then_location a b).
  { intros t t' a b Hlt [La Ka]%Ho [Lb Kb]%Ho.
    right. split; [congruence|]. by rewrite La, Lb. }
  split.
  - repeat apply sorted_app; try apply Hs.
    + intros a b Ha Hb. by apply (HR LEFT RIGHT).
    + intros a b Ha [Hb|Hb]%in_app_iff;
        [by apply (HR CENTRAL LEFT)|by apply (HR CENTRAL RIGHT)].
    + intros a b Ha [Hb|[Hb|Hb]%in_app_iff]%in_app_iff;
        [by apply (HR UNKNOWN CENTRAL)|by apply (HR UNKNOWN LEFT)
        |by apply (HR UNKNOWN RIGHT)].
  - rewrite !Forall_app. repeat split; apply Forall_forall;
      intros c Hc%list_elem_of_In; by apply Ho in Hc as [_ ?].
Qed.

Lemma emitted_nonempty l c :
  In c l → ∃ c', In c' (emitted l) ∧ m_location c' = m_location c.
Proof.
  intros Hin.
  assert (Hf : In c (List.filter (has_loc (m_location c)) l)).
  { apply filter_In. split; [done|]. by apply bool_decide_eq_true. }
  destruct (List.filter (has_loc (m_location c)) l) as [|c0 cs] eqn:E; [done|].
  assert (Hc : coalesce (List.filter (has_loc (m_location c)) l)
               = Some (fold_left mergeCoordinates cs c0)) by by rewrite E.
  assert (Hl : m_location c0 = m_location c).
  { assert (Hin0 : In c0 (List.filter (has_loc (m_location c)) l))
      by (rewrite E; by left).
    apply filter_In in Hin0 as [_ Hloc]. by apply bool_decide_eq_true in Hloc. }
  exists (fold_left mergeCoordinates cs c0). split.
  - unfold emitted. rewrite !in_app_iff.
    destruct (m_location c); rewrite Hc; simpl; naive_solver.
  - destruct (fold_mergeCoordinates cs c0) as (_ & _ & -> & _). done.
Qed.

Lemma flat_map_sorted {A} (R : A → A → Prop) (f : Z → list A) keys :
  StronglySorted Z.lt keys →
  (∀ k, StronglySorted R (f k)) →
  (∀ k k' a b, k < k' → In a (f k) → In b (f k') → R a b) →
  StronglySorted R (flat_map f keys).
Proof.
  intros Hs Hf HR. induction Hs as [|k keys Hs IH Hall]; [constructor|].
  simpl.
  assert (Hlater : ∀ a b, In a (f k) → In b (flat_map f keys) → R a b).
  { intros a b Ha (k' & Hk' & Hb)%in_flat_map.
    rewrite Forall_forall in Hall. apply list_elem_of_In, Hall in Hk'.
    by apply (HR k k'). }
  induction (Hf k) as [|a l _ IHl Hal]; [done|].
  simpl. constructor.
  - apply IHl. intros a' b Ha'. apply Hlater. by right.
  - apply Forall_app. split; [done|].
    apply Forall_forall. intros b Hb%list_elem_of_In. apply Hlater; [by left|done].
Qed.

(** X7: the container returned by [mergeDisjointRightLeftClusters] holds
    its clusters in strictly ascending order of their keys and, for the
    same key, in the order UNKNOWN, CENTRAL, LEFT, RIGHT of their location
    types; so no two of them agree in key and location type.  It has a
    cluster of a key exactly when the container the call was made on had
    one. *)
Theorem merge_output_order s :
  reachable s →
  let out := m_clusters (mergeDisjointRightLeftClusters s).1 in
  StronglySorted by_key_then_location out ∧
  ∀ k, (∃ c, In c out ∧ m_key c = k) ↔ (∃ c, In c (m_clusters s) ∧ m_key c = k).
Proof.
  intros Hok%reachable_cache_ok. cbn zeta.
  destruct (mergeDisjointRightLeftClusters_spec s Hok) as (-> & _).
  split.
  - apply flat_map_sorted; [apply keys_of_sorted| |].
    + intros k. apply (emitted_sorted k), with_key_Forall.
    + intros k k' a b Hlt Ha Hb. left.
      destruct (emitted_sorted k _ (with_key_Forall k (expanded (m_clusters s))))
        as [_ Fa].
      destruct (emitted_sorted k' _ (with_key_Forall k' (expanded (m_clusters s))))
        as [_ Fb].
      rewrite Forall_forall in Fa, Fb.
      apply list_elem_of_In, Fa in Ha. apply list_elem_of_In, Fb in Hb. lia.
  - intros k. rewrite <- (keys_of_In (m_clusters s)). split.
    + intros (c & (k' & Hk' & Hc)%in_flat_map & <-).
      destruct (emitted_sorted k' _ (with_key_Forall k' (expanded (m_clusters s))))
        as [_ Fa].
      rewrite Forall_forall in Fa. apply list_elem_of_In, Fa in Hc. by subst.
    + intros Hk. pose proof Hk as (c & Hc & <-)%keys_of_In.
      destruct (emitted_nonempty (with_key (m_key c) (expanded (m_clusters s))) c)
        as (c' & Hc' & _).
      { apply filter_In. split; [|apply Z.eqb_refl].
        unfold expanded. apply in_app_iff. by left. }
      exists c'. split.
      * apply in_flat_map. by exists (m_key c).
      * destruct (emitted_sorted (m_key c) _
                    (with_key_Forall (m_key c) (expanded (m_clusters s))))
          as [_ Fa].
        rewrite Forall_forall in Fa. by apply list_elem_of_In, Fa in Hc'.
Qed.


End Container.
(** *** Concrete containers *)

Definition central5 : Cluster :=
  mkCluster "C" 5 CENTRAL [(-1, 0, 0); (2, 0, 0)].
Definition left5 : Cluster := mkCluster "L" 5 LEFT [(-3, 1, 0)].
Definition right5 : Cluster := mkCluster "R" 5 RIGHT [(4, 1, 1)].
Definition other7 : Cluster := mkCluster "U" 7 UNKNOWN [(0, 2, 2)].

(** three clusters of key 5: CENTRAL, LEFT, RIGHT *)
Definition example5 : ClusterContainer :=
  addCluster right5 (addCluster left5 (addCluster central5 ClusterContainerNew)).

Definition example57 : ClusterContainer :=
  addCluster right5 (addCluster other7 (addCluster central5 ClusterContainerNew)).

Lemma example5_reachable zeroIsLeft : reachable zeroIsLeft example5.
Proof.
  unfold example5.
  repeat apply (reach_mutation zeroIsLeft (MutAddCluster _)).
  apply reach_new.
Defined.

Lemma example57_reachable zeroIsLeft : reachable zeroIsLeft example57.
Proof.
  unfold example57.
  repeat apply (reach_mutation zeroIsLeft (MutAddCluster _)).
  apply reach_new.
Defined.

Example merge_example5 :
  m_clusters (mergeDisjointRightLeftClusters false example5).1 =
  [ central5;
    mkCluster "L" 5 LEFT [(-3, 1, 0); (-1, 0, 0)];
    mkCluster "R" 5 RIGHT [(4, 1, 1); (2, 0, 0)] ].
Proof. reflexivity. Qed.

(** C1, as stated, fails: for the three clusters of key 5 of [example5]
    (CENTRAL on both sides of X = 0, LEFT, RIGHT) the returned container
    does hold a CENTRAL cluster of key 5, whichever side X = 0 goes to. *)
Lemma merge_central_remains :
  ¬ (∀ c, In c (m_clusters (mergeDisjointRightLeftClusters false example5).1) →
          m_key c = 5 → m_location c ≠ CENTRAL ∧ m_location c ≠ UNKNOWN) ∧
  ¬ (∀ c, In c (m_clusters (mergeDisjointRightLeftClusters true example5).1) →
          m_key c = 5 → m_location c ≠ CENTRAL ∧ m_location c ≠ UNKNOWN).
Proof.
  split; intros H;
    destruct (H central5 (or_introl eq_refl) eq_refl) as [Hc _];
    by apply Hc.
Qed.

Lemma merge_central_left_right_witness :
  let out := m_clusters (mergeDisjointRightLeftClusters false example5).1 in
  select 5 LEFT out = [mkCluster "L" 5 LEFT [(-3, 1, 0); (-1, 0, 0)]] ∧
  select 5 RIGHT out = [mkCluster "R" 5 RIGHT [(4, 1, 1); (2, 0, 0)]] ∧
  select 5 CENTRAL out = [central5] ∧
  select 5 UNKNOWN out = [].
Proof.
  apply (merge_central_left_right false example5 central5 left5 right5).
  - apply example5_reachable.
  - reflexivity.
  - reflexivity.
  - reflexivity.
  - reflexivity.
  - reflexivity.
  - reflexivity.
  - reflexivity.
  - repeat first [apply Forall_nil_2 | apply Forall_cons_2; [by vm_compute|]].
Defined.

Lemma getClustersWithKey_exact_witness :
  reachable false example57 ∧
  (getClustersWithKey 5 example57).1 = [central5; right5] ∧
  (getClustersWithKey 6 example57).1 = [].
Proof.
  split; [apply example57_reachable|]. split.
  - apply (getClustersWithKey_exact false example57 5 (example57_reachable false)).
  - apply (getClustersWithKey_exact false example57 6 (example57_reachable false)).
    intros c [<-|[<-|[<-|[]]]]; simpl; lia.
Defined.

(** C4, as stated, fails for the location type CENTRAL: after the CENTRAL
    cluster of [example5] has been split into its LEFT and RIGHT parts no
    input cluster of key 5 is CENTRAL, yet the returned container holds a
    CENTRAL cluster of key 5 with the two coordinates of the CENTRAL
    cluster of the input, whichever side X = 0 goes to. *)
Lemma merge_central_coordinates_stay :
  (coordinates_of
     (select 5 CENTRAL
        (m_clusters (mergeDisjointRightLeftClusters false example5).1))
   = [(-1, 0, 0); (2, 0, 0)] ∧
   coordinates_of
     (select 5 CENTRAL (central_clusters_split false (m_clusters example5)))
   = []) ∧
  ¬ (coordinates_of
       (select 5 CENTRAL
          (m_clusters (mergeDisjointRightLeftClusters false example5).1))
     ≡ₚ coordinates_of
          (select 5 CENTRAL
             (central_clusters_split false (m_clusters example5)))) ∧
  ¬ (coordinates_of
       (select 5 CENTRAL
          (m_clusters (mergeDisjointRightLeftClusters true example5).1))
     ≡ₚ coordinates_of
          (select 5 CENTRAL
             (central_clusters_split true (m_clusters example5)))).
Proof.
  split; [by vm_compute|].
  split; intros H; vm_compute in H; by apply Permutation_nil_r in H.
Qed.

Lemma merge_one_cluster_per_key_and_type_witness :
  reachable false example5 ∧
  let out := m_clusters (mergeDisjointRightLeftClusters false example5).1 in
  (length (select 5 LEFT out) ≤ 1)%nat ∧
  (LEFT ≠ CENTRAL →
   coordinates_of (select 5 LEFT out) ≡ₚ
   coordinates_of
     (select 5 LEFT (central_clusters_split false (m_clusters example5)))) ∧
  (LEFT = CENTRAL →
   coordinates_of (select 5 LEFT out) ≡ₚ
   coordinates_of (select 5 LEFT (m_clusters example5))).
Proof.
  split; [apply example5_reachable|].
  apply (merge_one_cluster_per_key_and_type false example5 5 LEFT
           (example5_reachable false)).
Defined.

Lemma getClustersSortedByKey_sorted_witness :
  reachable false example57 ∧
  let out := (getClustersSortedByKey example57).1 in
  out ≡ₚ m_clusters example57 ∧
  StronglySorted (λ a b, m_key a ≤ m_key b) out ∧
  (∀ k, List.filter (λ c, m_key c =? k) out =
        List.filter (λ c, m_key c =? k) (m_clusters example57)) ∧
  m_clusters (getClustersSortedByKey example57).2 = m_clusters example57.
Proof.
  split; [apply example57_reachable|].
  apply (getClustersSortedByKey_sorted false example57
           (example57_reachable false)).
Defined.

Lemma getClustersSortedByName_sorted_witness :
  reachable false example57 ∧
  let out := (getClustersSortedByName example57).1 in
  out ≡ₚ m_clusters example57 ∧
  StronglySorted (λ a b, AString_ltb (m_name b) (m_name a) = false) out ∧
  (∀ n, List.filter (λ c, String.eqb (m_name c) n) out =
        List.filter (λ c, String.eqb (m_name c) n) (m_clusters example57)) ∧
  m_clusters (getClustersSortedByName example57).2 = m_clusters example57.
Proof.
  split; [apply example57_reachable|].
  apply (getClustersSortedByName_sorted false example57
           (example57_reachable false)).
Defined.

Lemma getClustersWithName_exact_witness :
  reachable false example57 ∧
  (getClustersWithName "R" example57).1 = [right5] ∧
  (getClustersWithName "none" example57).1 = [].
Proof.
  split; [apply example57_reachable|]. split.
  - apply (getClustersWithName_exact false example57 "R"
             (example57_reachable false)).
  - apply (getClustersWithName_exact false example57 "none"
             (example57_reachable false)).
    by intros c [<-|[<-|[<-|[]]]].
Defined.

Lemma getAllClusterKeys_sorted_witness :
  reachable false example57 ∧
  StronglySorted Z.lt (getAllClusterKeys example57).1 ∧
  ∀ k, In k (getAllClusterKeys example57).1
       ↔ ∃ c, In c (m_clusters example57) ∧ m_key c = k.
Proof.
  split; [apply example57_reachable|].
  apply (getAllClusterKeys_sorted false example57 (example57_reachable false)).
Defined.

(** the container of [example57] after the keys 9 and 3 were recorded *)
Definition example57_keys : ClusterContainer :=
  addKeyThatIsNotInAnyCluster 3 (addKeyThatIsNotInAnyCluster 9 example57).

Lemma example57_keys_reachable zeroIsLeft : reachable zeroIsLeft example57_keys.
Proof. repeat apply reach_addKey. apply example57_reachable. Defined.

Lemma keysThatAreNotInAnyClusters_set_witness :
  reachable false example57_keys ∧
  StronglySorted Z.lt (getKeysThatAreNotInAnyClusters example57_keys) ∧
  (∀ k, In k (getKeysThatAreNotInAnyClusters
                (addKeyThatIsNotInAnyCluster 9 example57_keys))
        ↔ k = 9 ∨ In k (getKeysThatAreNotInAnyClusters example57_keys)) ∧
  (∀ m, getKeysThatAreNotInAnyClusters (run_mutation m example57_keys) =
        getKeysThatAreNotInAnyClusters example57_keys) ∧
  (∀ r, getKeysThatAreNotInAnyClusters (run_read r example57_keys).2 =
        getKeysThatAreNotInAnyClusters example57_keys).
Proof.
  split; [apply example57_keys_reachable|].
  apply (keysThatAreNotInAnyClusters_set false example57_keys 9
           (example57_keys_reachable false)).
Defined.

Lemma merge_adds_split_clusters_witness :
  reachable false example57_keys ∧
  let this := (mergeDisjointRightLeftClusters false example57_keys).2 in
  m_clusters this =
    m_clusters example57_keys ++
    flat_map
      (λ k, flat_map (splitClusterIntoRightAndLeft false)
              (List.filter
                 (λ c, (m_key c =? k) && bool_decide (m_location c = CENTRAL))
                 (m_clusters example57_keys)))
      (getAllClusterKeys example57_keys).1 ∧
  getKeysThatAreNotInAnyClusters this =
    getKeysThatAreNotInAnyClusters example57_keys ∧
  getKeysThatAreNotInAnyClusters
    (mergeDisjointRightLeftClusters false example57_keys).1 = [].
Proof.
  split; [apply example57_keys_reachable|].
  apply (merge_adds_split_clusters false example57_keys
           (example57_keys_reachable false)).
Defined.

(** the clusters of [example57_keys] after the call, and its keys that
    are not in any cluster *)
Example merge_example57_keys :
  m_clusters (mergeDisjointRightLeftClusters false example57_keys).2 =
    [ central5; other7; right5;
      mkCluster "C" 5 LEFT [(-1, 0, 0)]; mkCluster "C" 5 RIGHT [(2, 0, 0)] ] ∧
  getKeysThatAreNotInAnyClusters
    (mergeDisjointRightLeftClusters false example57_keys).2 = [3; 9].
Proof. by vm_compute. Qed.

Lemma merge_output_order_witness :
  reachable false example57 ∧
  let out := m_clusters (mergeDisjointRightLeftClusters false example57).1 in
  StronglySorted by_key_then_location out ∧
  ∀ k, (∃ c, In c out ∧ m_key c = k)
       ↔ (∃ c, In c (m_clusters example57) ∧ m_key c = k).
Proof.
  split; [apply example57_reachable|].
  apply (merge_output_order false example57 (example57_reachable false)).
Defined.


End Clusters.

(** * CaretHierarchy *)
Module Hierarchy.

(** ** OrderedKVStore *)

(** Modelled from the spec: [CaretHierarchy::OrderedKVStore] (declared in
    CaretHierarchy.h, which is not part of the sources): the key/value
    annotations of an item, a map from key to string value.  The pairs are
    kept in the order in which their keys were first set. *)
Definition OrderedKVStore : Type := list (string * string).

Definition kv_clear : OrderedKVStore := [].

Fixpoint kv_set (key value : string) (kv : OrderedKVStore) : OrderedKVStore :=
  match kv with
  | [] => [(key, value)]
  | (k, v) :: kv' =>
      if String.eqb k key then (key, value) :: kv'
      else (k, v) :: kv_set key value kv'
  end.

Definition getAllData (kv : OrderedKVStore) : list (string * string) := kv.

(** ** Items and the hierarchy *)

(** [CaretHierarchy::Item]; all four members are public. *)
Inductive Item := mkItem {
  name : string;
  id : string;
  extraInfo : OrderedKVStore;
  children : list Item;
}.

(** [Item()] and [Item(name)] *)
Definition ItemNew : Item := mkItem "" "" kv_clear [].
Definition ItemNamed (nameIn : string) : Item := mkItem nameIn "" kv_clear [].

Record CaretHierarchy := mkHierarchy {
  m_root : Item;
  m_usedNames : gset string;
}.

(** [CaretHierarchy::CaretHierarchy()] *)
Definition CaretHierarchyNew : CaretHierarchy :=
  mkHierarchy ItemNew {[ "" ]}.

Definition clear (h : CaretHierarchy) : CaretHierarchy :=
  mkHierarchy ItemNew ({[ "" ]} : gset string).

(** Modelled from the spec: [CaretHierarchy::isEmpty] and
    [CaretHierarchy::getInvisibleRoot] (defined in CaretHierarchy.h, which is
    not part of the sources): the implicit root, and whether it is still
    the empty root that [clear] leaves. *)
Definition getInvisibleRoot (h : CaretHierarchy) : Item := m_root h.

Definition isEmpty (h : CaretHierarchy) : bool :=
  match children (m_root h) with [] => true | _ :: _ => false end.

(** A pointer to the [extraInfo] of an item of the tree is the item's
    position: the indices of the children to follow from the root. *)
Definition ItemPath : Type := list nat.

(** The loop of [Item::add] over [children.rbegin() .. children.rend()]:
    the last child is tried first, the first success ends the loop.
    [index] is the position of the head of [cs] among the children. *)
Definition add_reverse (try : Item → option (Item * ItemPath))
  : list Item → nat → option (list Item * ItemPath) :=
  fix go (cs : list Item) (index : nat) :=
    match cs with
    | [] => None
    | c :: rest =>
        match go rest (S index) with
        | Some (rest', p) => Some (c :: rest', p)
        | None =>
            match try c with
            | Some (c', p) => Some (c' :: rest, index :: p)
            | None => None
            end
        end
    end.

(** [Item::add]: [None] is [false] (nothing changed); [Some (self', p)] is
    [true], with the item after the addition and [*extraInfoOut = p]. *)
Fixpoint add (self : Item) (toAdd : Item) (parent : string)
  : option (Item * ItemPath) :=
  match self with
  | mkItem n i e cs =>
      if String.eqb n parent then
        Some (mkItem n i e (cs ++ [toAdd]), [length cs])
      else
        match add_reverse (λ c, add c toAdd parent) cs 0%nat with
        | Some (cs', p) => Some (mkItem n i e cs', p)
        | None => None
        end
  end.

(** [CaretHierarchy::addItem]: the pointer is [Some] exactly when the
    call returns [true]. *)
Definition addItem (toAdd : Item) (parent : string) (h : CaretHierarchy)
  : option ItemPath * CaretHierarchy :=
  if bool_decide (name toAdd ∈ m_usedNames h) then (None, h)
  else if bool_decide (parent ∉ m_usedNames h) then (None, h)
  else
    match add (m_root h) toAdd parent with
    | Some (root', p) =>
        (Some p, mkHierarchy root' ({[ name toAdd ]} ∪ m_usedNames h))
    | None => (None, h)
    end.

(** writing through a pointer to an item's [extraInfo] *)
Fixpoint update_extraInfo (p : ItemPath) (f : OrderedKVStore → OrderedKVStore)
  (self : Item) : Item :=
  match p with
  | [] => mkItem (name self) (id self) (f (extraInfo self)) (children self)
  | k :: p' =>
      mkItem (name self) (id self) (extraInfo self)
             (alter (update_extraInfo p' f) k (children self))
  end.

(** ** XML *)

(** What [QXmlStreamWriter] receives and [QXmlStreamReader] delivers. *)
Inductive XmlToken :=
| NoToken
| Invalid (errorString : string)
| StartDocument
| EndDocument
| StartElement (tag : string) (attributes : list (string * string))
| EndElement (tag : string)
| Characters (text : string).

(** [QXmlStreamWriter]: the tokens written, the latest first, and the names
    of the elements still open. *)
Record QXmlStreamWriter := mkWriter {
  written : list XmlToken;
  open_elements : list string;
}.

Definition writeStartDocument (xml : QXmlStreamWriter) : QXmlStreamWriter :=
  mkWriter (StartDocument :: written xml) (open_elements xml).

Definition writeStartElement (tag : string) (xml : QXmlStreamWriter)
  : QXmlStreamWriter :=
  mkWriter (StartElement tag [] :: written xml) (tag :: open_elements xml).

(** an attribute goes to the start element written last *)
Definition writeAttribute (key value : string) (xml : QXmlStreamWriter)
  : QXmlStreamWriter :=
  match written xml with
  | StartElement tag attributes :: w =>
      mkWriter (StartElement tag (attributes ++ [(key, value)]) :: w)
               (open_elements xml)
  | _ => xml
  end.

Definition writeEndElement (xml : QXmlStreamWriter) : QXmlStreamWriter :=
  match open_elements xml with
  | tag :: open => mkWriter (EndElement tag :: written xml) open
  | [] => xml
  end.

(** closes the elements still open and ends the document *)
Definition writeEndDocument (xml : QXmlStreamWriter) : QXmlStreamWriter :=
  mkWriter (EndDocument :: rev_append (map EndElement (open_elements xml)) (written xml)) [].

Definition is_empty {A} (l : list A) : bool :=
  match l with [] => true | _ => false end.

(** [Item::XMLWriteHelper] *)
Fixpoint XMLWriteHelper (self : Item) (xml : QXmlStreamWriter)
  : QXmlStreamWriter :=
  match self with
  | mkItem n i e cs =>
      if String.eqb n "" then
        fold_left (λ xml iter, XMLWriteHelper iter xml) cs xml
      else
        let xml := writeStartElement "Item" xml in
        let xml := writeAttribute "Name" n xml in
        let kvdata := getAllData e in
        let xml :=
          if negb (is_empty kvdata) then
            let xml := writeStartElement "Info" xml in
            let xml :=
              fold_left
                (λ xml (iter : string * string),
                   let xml := writeStartElement "InfoItem" xml in
                   let xml := writeAttribute "Key" iter.1 xml in
                   let xml := writeAttribute "Value" iter.2 xml in
                   writeEndElement xml) kvdata xml in
            writeEndElement xml
          else xml in
        let xml := fold_left (λ xml iter, XMLWriteHelper iter xml) cs xml in
        writeEndElement xml
  end.

Definition writeXML (h : CaretHierarchy) (xml : QXmlStreamWriter)
  : QXmlStreamWriter :=
  let xml := writeStartElement "CaretHierarchy" xml in
  let xml := writeAttribute "Version" "1" xml in
  let xml := XMLWriteHelper (m_root h) xml in
  writeEndElement xml.

(** [writeXMLToString]: the document, as the sequence of its tokens. *)
Definition writeXMLToString (h : CaretHierarchy) : list XmlToken :=
  let xml := mkWriter [] [] in
  let xml := writeStartDocument xml in
  let xml := writeXML h xml in
  let xml := writeEndDocument xml in
  rev (written xml).

(** [QXmlStreamReader]: the token it is on and the tokens still to come. *)
Record QXmlStreamReader := mkReader {
  current : XmlToken;
  pending : list XmlToken;
}.

(** a reader over a document; it starts before the first token *)
Definition QXmlStreamReaderNew (text : list XmlToken) : QXmlStreamReader :=
  mkReader NoToken text.

Definition atEnd (xml : QXmlStreamReader) : bool :=
  match current xml with
  | EndDocument | Invalid _ => true
  | _ => false
  end.

Definition hasError (xml : QXmlStreamReader) : bool :=
  match current xml with Invalid _ => true | _ => false end.

Definition errorString (xml : QXmlStreamReader) : string :=
  match current xml with Invalid e => e | _ => "" end.

(** a document that ends before its end is an error *)
Definition readNext (xml : QXmlStreamReader) : QXmlStreamReader :=
  match current xml with
  | Invalid _ => xml
  | _ =>
      match pending xml with
      | t :: ts => mkReader t ts
      | [] => mkReader (Invalid "Premature end of document.") []
      end
  end.

Definition hasAttribute (attributes : list (string * string)) (key : string)
  : bool :=
  existsb (λ a, String.eqb a.1 key) attributes.

(** [attributes.value(key).toString()]: empty when there is none *)
Fixpoint attribute_value (attributes : list (string * string)) (key : string)
  : string :=
  match attributes with
  | [] => ""
  | (k, v) :: rest => if String.eqb k key then v else attribute_value rest key
  end.

(** How a call ends. [Undefined] stands for what the C++ leaves undefined
    ([back] or [pop_back] of an empty vector); [NoFuel] for a loop of the
    model stopped by its bound, which is shown not to happen. *)
Inductive outcome :=
| Returns
| Throws (what : string)
| Undefined
| NoFuel.

(** [OrderedKVStore::readXML]: the loop, entered after its first
    [readNext], on the token [current] with [pending] to come. *)
Fixpoint kv_readXML_loop (pending : list XmlToken) (current : XmlToken)
  (kv : OrderedKVStore) : outcome * OrderedKVStore * QXmlStreamReader :=
  let xml := mkReader current pending in
  if atEnd xml then (Returns, kv, xml)
  else
    let continue kv :=
      match pending with
      | t :: ts => kv_readXML_loop ts t kv
      | [] => (Returns, kv, readNext xml)
      end in
    match current with
    | StartElement tag attributes =>
        if negb (String.eqb tag "InfoItem") then
          (Throws ("found unexpected element in Info context: " +:+ tag), kv, xml)
        else
          continue (kv_set (attribute_value attributes "Key")
                           (attribute_value attributes "Value") kv)
    | EndElement tag =>
        if negb (String.eqb tag "InfoItem") then (Returns, kv, xml)
        else continue kv
    | _ => continue kv
    end.

Definition kv_readXML (xml : QXmlStreamReader)
  : outcome * OrderedKVStore * QXmlStreamReader :=
  let xml := readNext xml in
  kv_readXML_loop (pending xml) (current xml) kv_clear.

(** the locals of [CaretHierarchy::readXML]; the head of a list is the
    [back()] of the vector *)
Record ReadState := mkReadState {
  hier : CaretHierarchy;
  parents : list string;
  addedInfo : list ItemPath;
  haveRoot : bool;
  rootEnded : bool;
}.

Inductive iteration :=
| Continue (xml : QXmlStreamReader) (st : ReadState)
| Stop (o : outcome) (st : ReadState).

(** one pass through the body of the [for] loop of [readXML], followed by
    its [xml.readNext()].  The store an [Info] element is read into is
    written through the pointer whether or not the read throws.  The
    [CaretAssert] on the name of an end element is compiled out. *)
Definition readXML_body (xml : QXmlStreamReader) (st : ReadState) : iteration :=
  match current xml with
  | StartElement tagname attributes =>
      if String.eqb tagname "CaretHierarchy" then
        if haveRoot st then
          Stop (Throws "found root 'CaretHierarchy' element more than once") st
        else
          let st := mkReadState (hier st) (parents st) (addedInfo st) true (rootEnded st) in
          if negb (hasAttribute attributes "Version") then
            Stop (Throws "no Version attribute in hierarch XML") st
          else if negb (String.eqb (attribute_value attributes "Version") "1") then
            Stop (Throws ("unknown hierarchy version '" +:+
                          attribute_value attributes "Version" +:+ "'")) st
          else Continue (readNext xml) st
      else if String.eqb tagname "Item" then
        if negb (haveRoot st) then
          Stop (Throws "hierarchy XML is missing root element") st
        else if rootEnded st then
          Stop (Throws "found Item tag after closing root tag in hierarchy XML") st
        else
          let itemName := attribute_value attributes "Name" in
          match parents st with
          | [] => Stop Undefined st
          | back :: _ =>
              match addItem (ItemNamed itemName) back (hier st) with
              | (None, h) =>
                  Stop (Throws ("failed to add item '" +:+ itemName +:+
                          "' to hierarchy, check for a duplicate, empty, or missing Name attribute"))
                       (mkReadState h (parents st) (addedInfo st) (haveRoot st) (rootEnded st))
              | (Some kvptr, h) =>
                  Continue (readNext xml)
                    (mkReadState h (itemName :: parents st)
                       (kvptr :: addedInfo st) (haveRoot st) (rootEnded st))
              end
          end
      else if String.eqb tagname "Info" then
        match addedInfo st with
        | [] => Stop (Throws "Info element not allowed at root level") st
        | kvptr :: _ =>
            let '(o, kv, xml') := kv_readXML xml in
            let h := mkHierarchy
                       (update_extraInfo kvptr (λ _, kv) (m_root (hier st)))
                       (m_usedNames (hier st)) in
            let st := mkReadState h (parents st) (addedInfo st)
                        (haveRoot st) (rootEnded st) in
            match o with
            | Returns => Continue (readNext xml') st
            | _ => Stop o st
            end
        end
      else
        Stop (Throws ("unexpected element '" +:+ tagname +:+ "' in hierarchy XML")) st
  | EndElement tag =>
      if String.eqb tag "Item" then
        match addedInfo st, parents st with
        | _ :: addedInfo', _ :: parents' =>
            Continue (readNext xml)
              (mkReadState (hier st) parents' addedInfo' (haveRoot st) (rootEnded st))
        | _, _ => Stop Undefined st
        end
      else
        Continue (readNext xml)
          (mkReadState (hier st) (parents st) (addedInfo st) (haveRoot st) true)
  | _ => Continue (readNext xml) st
  end.

(** the [for (; !xml.atEnd(); xml.readNext())] loop *)
Fixpoint readXML_loop (fuel : nat) (xml : QXmlStreamReader) (st : ReadState)
  : outcome * ReadState * QXmlStreamReader :=
  if atEnd xml then (Returns, st, xml)
  else
    match fuel with
    | O => (NoFuel, st, xml)
    | S fuel' =>
        match readXML_body xml st with
        | Continue xml' st' => readXML_loop fuel' xml' st'
        | Stop o st' => (o, st', xml)
        end
    end.

(** [CaretHierarchy::readXML(QXmlStreamReader&)]: how the call ends and the
    hierarchy it leaves. *)
Definition readXML (xml : QXmlStreamReader) (h : CaretHierarchy)
  : outcome * CaretHierarchy :=
  let h := clear h in
  let st := mkReadState h [""] [] false false in
  match readXML_loop (S (length (pending xml))) xml st with
  | (Returns, st, xml) =>
      if hasError xml then
        (Throws ("Hierarchy XML error: " +:+ errorString xml), hier st)
      else (Returns, hier st)
  | (Throws what, st, _) => (Throws ("Hierarchy XML error: " +:+ what), hier st)
  | (o, st, _) => (o, hier st)
  end.

(** [CaretHierarchy::readXML(const QString&)] *)
Definition readXMLText (text : list XmlToken) (h : CaretHierarchy)
  : outcome * CaretHierarchy :=
  readXML (QXmlStreamReaderNew text) h.

(** ** JSON *)

(** [QJsonValue].  A number is kept as what
    [AString::number(d, 'g', 16)] makes of it, the only use the reader has
    for it. *)
Inductive QJsonValue :=
| JNull
| JBool (b : bool)
| JDouble (g16 : string)
| JString (s : string)
| JArray (a : list QJsonValue)
| JObject (o : list (string * QJsonValue))
| JUndefined.

(** [QJsonObject]: the members in ascending order of their keys. *)
Definition QJsonObject : Type := list (string * QJsonValue).

(** [QJsonObject::insert]: replaces the value of a key already there *)
Fixpoint obj_insert (key : string) (value : QJsonValue) (o : QJsonObject)
  : QJsonObject :=
  match o with
  | [] => [(key, value)]
  | (k, v) :: o' =>
      if AString_ltb key k then (key, value) :: o
      else if AString_ltb k key then (k, v) :: obj_insert key value o'
      else (key, value) :: o'
  end.

Definition obj_keys (o : QJsonObject) : list string := map fst o.

Fixpoint obj_value (o : QJsonObject) (key : string) : QJsonValue :=
  match o with
  | [] => JUndefined
  | (k, v) :: o' => if String.eqb k key then v else obj_value o' key
  end.

Definition obj_contains (o : QJsonObject) (key : string) : bool :=
  existsb (λ m, String.eqb m.1 key) o.

Definition toObject (v : QJsonValue) : QJsonObject :=
  match v with JObject o => o | _ => [] end.

Definition toString (v : QJsonValue) : string :=
  match v with JString s => s | _ => "" end.

(** one pass through the loop of [handleJsonChild] over the keys; the
    warnings it logs are left out *)
Definition handleJsonMember (thisobj : QJsonObject) (extraInfo : OrderedKVStore)
  (key : string) : OrderedKVStore :=
  if String.eqb key "name" then extraInfo
  else
    let valueobj := obj_value thisobj key in
    let '(value, stringish) :=
      match valueobj with
      | JBool b => (if b then "True" else "False", true)
      | JDouble g16 => (g16, true)
      | JString s => (s, true)
      | _ => ("", false)
      end in
    if String.eqb key "children" then extraInfo
    else if negb stringish then extraInfo
    else kv_set key value extraInfo.

(** [recurseJsonArrayish], over the function that handles one child *)
Definition recurseJsonArrayish
  (handle : CaretHierarchy → QJsonObject → string → outcome * CaretHierarchy)
  (hierarchyOut : CaretHierarchy) (elements : QJsonValue) (parent : string)
  : outcome * CaretHierarchy :=
  match elements with
  | JArray myArray =>
      (fix each (l : list QJsonValue) (h : CaretHierarchy) :=
         match l with
         | [] => (Returns, h)
         | iter :: l' =>
             match handle h (toObject iter) parent with
             | (Returns, h') => each l' h'
             | r => r
             end
         end) myArray hierarchyOut
  | _ => handle hierarchyOut (toObject elements) parent
  end.

(** [handleJsonChild]; [fuel] bounds the depth of the recursion *)
Fixpoint handleJsonChild (fuel : nat) (hierarchyOut : CaretHierarchy)
  (thisobj : QJsonObject) (parent : string) : outcome * CaretHierarchy :=
  match fuel with
  | O => (NoFuel, hierarchyOut)
  | S fuel' =>
      let toAdd_name := toString (obj_value thisobj "name") in
      if String.eqb toAdd_name "" then
        if String.eqb parent "" then
          (Throws "empty, non-string, or missing 'name' element in hierarchy json, in a top-level item",
           hierarchyOut)
        else
          (Throws ("empty, non-string, or missing 'name' element in hierarchy json, in children of '"
                   +:+ parent +:+ "'"), hierarchyOut)
      else
        let toAdd :=
          mkItem toAdd_name ""
            (fold_left (handleJsonMember thisobj) (obj_keys thisobj) kv_clear) [] in
        match addItem toAdd parent hierarchyOut with
        | (None, h) =>
            (Throws ("failed to add hierarchy item '" +:+ toAdd_name +:+
                     "', check whether all 'name's are unique"), h)
        | (Some _, h) =>
            if obj_contains thisobj "children" then
              recurseJsonArrayish (handleJsonChild fuel') h
                (obj_value thisobj "children") toAdd_name
            else (Returns, h)
        end
  end.

Fixpoint json_depth (v : QJsonValue) : nat :=
  match v with
  | JArray a => S (list_max (map json_depth a))
  | JObject o => S (list_max (map (λ '(_, m), json_depth m) o))
  | _ => 1%nat
  end.

(** [readJsonFile], from the document [QJsonDocument::fromJson] made of the
    file ([JNull] when the file does not hold JSON). *)
Definition readJsonFile (myjson : QJsonValue) (h : CaretHierarchy)
  : outcome * CaretHierarchy :=
  let h := clear h in
  recurseJsonArrayish (handleJsonChild (S (json_depth myjson))) h myjson "".

(** [writeJsonHelper] *)
Fixpoint writeJsonHelper (localroot : Item) : list QJsonValue :=
  match localroot with
  | mkItem _ _ _ cs =>
      map (λ child,
             let childObj := obj_insert "name" (JString (name child)) [] in
             let childObj :=
               fold_left (λ o (item : string * string),
                            obj_insert item.1 (JString item.2) o)
                         (getAllData (extraInfo child)) childObj in
             let childObj :=
               if (0 <? length (children child))%nat then
                 obj_insert "children" (JArray (writeJsonHelper child)) childObj
               else childObj in
             JObject childObj) cs
  end.

(** [writeJsonFile]: the document written to the file *)
Definition writeJsonFile (h : CaretHierarchy) : QJsonValue :=
  JArray (writeJsonHelper (m_root h)).

(** ** The tree: induction, names, positions *)

Lemma Item_ind' (P : Item → Prop) :
  (∀ n i e cs, Forall P cs → P (mkItem n i e cs)) → ∀ t, P t.
Proof.
  intros H. fix IH 1. intros [n i e cs]. apply H.
  induction cs as [|c cs IHcs]; constructor; [apply IH|apply IHcs].
Qed.

(** the names of an item and its descendants *)
Fixpoint names (t : Item) : list string :=
  match t with
  | mkItem n _ _ cs => n :: flat_map names cs
  end.

(** the item at a position *)
Fixpoint node_at (p : ItemPath) (t : Item) : option Item :=
  match p with
  | [] => Some t
  | k :: p' =>
      match children t !! k with
      | Some c => node_at p' c
      | None => None
      end
  end.

(** appending a child to the item at a position *)
Fixpoint append_child_at (p : ItemPath) (x : Item) (t : Item) : Item :=
  match p with
  | [] => mkItem (name t) (id t) (extraInfo t) (children t ++ [x])
  | k :: p' =>
      mkItem (name t) (id t) (extraInfo t)
             (alter (append_child_at p' x) k (children t))
  end.

(** The items in the order a depth-first search meets them that visits an
    item before its children and the children from the last to the first;
    each with its position. *)
Definition reverse_children {A} (visit : nat → Item → list A)
  : list Item → nat → list A :=
  fix go (cs : list Item) (index : nat) :=
    match cs with
    | [] => []
    | c :: rest => go rest (S index) ++ visit index c
    end.

Fixpoint reverse_dfs (t : Item) : list (ItemPath * string) :=
  match t with
  | mkItem n _ _ cs =>
      ([], n) ::
      reverse_children
        (λ index c, map (λ e, (index :: e.1, e.2)) (reverse_dfs c)) cs 0%nat
  end.

Definition named (parent : string) (e : ItemPath * string) : bool :=
  String.eqb e.2 parent.

(** the position of the first item of that search whose name is [parent] *)
Definition find_parent (t : Item) (parent : string) : option ItemPath :=
  fst <$> List.find (named parent) (reverse_dfs t).

(** the tree [Item::add] leaves, without the pointer *)
Definition addT (t x : Item) (parent : string) : option Item :=
  fst <$> add t x parent.

Fixpoint addT_list (x : Item) (parent : string) (cs : list Item)
  : option (list Item) :=
  match cs with
  | [] => None
  | c :: rest =>
      match addT_list x parent rest with
      | Some rest' => Some (c :: rest')
      | None => (λ c', c' :: rest) <$> addT c x parent
      end
  end.

Lemma add_reverse_addT_list x parent cs index :
  fst <$> add_reverse (λ c, add c x parent) cs index = addT_list x parent cs.
Proof.
  revert index. induction cs as [|c rest IH]; intros index; [done|].
  simpl. rewrite <- (IH (S index)).
  destruct (add_reverse _ rest (S index)) as [[rest' p]|]; simpl; [done|].
  unfold addT. by destruct (add c x parent) as [[c' p]|].
Qed.

Lemma addT_unfold n i e cs x parent :
  addT (mkItem n i e cs) x parent =
  if String.eqb n parent then Some (mkItem n i e (cs ++ [x]))
  else mkItem n i e <$> addT_list x parent cs.
Proof.
  unfold addT at 1. simpl. destruct (String.eqb n parent); [done|].
  rewrite <- (add_reverse_addT_list x parent cs 0).
  by destruct (add_reverse _ cs 0%nat) as [[cs' p]|].
Qed.

Lemma addT_list_snoc x parent cs c :
  addT_list x parent (cs ++ [c]) =
  match addT c x parent with
  | Some c' => Some (cs ++ [c'])
  | None => (λ cs', cs' ++ [c]) <$> addT_list x parent cs
  end.
Proof.
  induction cs as [|d cs IH]; simpl.
  - by destruct (addT c x parent).
  - rewrite IH. destruct (addT c x parent); [done|].
    destruct (addT_list x parent cs); simpl; [done|].
    by destruct (addT d x parent).
Qed.

Lemma addT_None_iff t x parent : addT t x parent = None ↔ parent ∉ names t.
Proof.
  induction t as [n i e cs IH] using Item_ind'.
  rewrite addT_unfold. simpl. rewrite not_elem_of_cons.
  destruct (String.eqb_spec n parent) as [->|Hne]; [naive_solver|].
  assert (Hl : addT_list x parent cs = None ↔ parent ∉ flat_map names cs).
  { clear Hne. induction cs as [|c cs IHcs]; simpl.
    - split; [intros _; apply not_elem_of_nil|done].
    - apply Forall_cons in IH as [Hc Hcs]. specialize (IHcs Hcs).
      rewrite not_elem_of_app, <- Hc, <- IHcs.
      destruct (addT_list x parent cs); [naive_solver|].
      destruct (addT c x parent); naive_solver. }
  destruct (addT_list x parent cs); simpl in *; naive_solver.
Qed.

Lemma addT_list_None_iff x parent cs :
  addT_list x parent cs = None ↔ parent ∉ flat_map names cs.
Proof.
  induction cs as [|c cs IH]; simpl.
  - split; [intros _; apply not_elem_of_nil|done].
  - rewrite not_elem_of_app, <- (addT_None_iff c x parent), <- IH.
    destruct (addT_list x parent cs); [naive_solver|].
    destruct (addT c x parent); naive_solver.
Qed.

Lemma addT_is_Some t x parent : parent ∈ names t → is_Some (addT t x parent).
Proof.
  intros Hin. destruct (addT t x parent) eqn:E; [done|].
  by apply addT_None_iff in E.
Qed.

Lemma addT_names t x parent t' :
  addT t x parent = Some t' → names t' ≡ₚ names t ++ names x.
Proof.
  revert t'. induction t as [n i e cs IH] using Item_ind'. intros t'.
  rewrite addT_unfold. destruct (String.eqb n parent).
  - intros [= <-]. simpl. rewrite flat_map_app. simpl. by rewrite app_nil_r.
  - assert (Hl : ∀ cs', addT_list x parent cs = Some cs' →
                   flat_map names cs' ≡ₚ flat_map names cs ++ names x).
    { induction cs as [|c cs IHcs]; intros cs'; simpl; [done|].
      apply Forall_cons in IH as [Hc Hcs]. specialize (IHcs Hcs).
      destruct (addT_list x parent cs) as [rest'|].
      - intros [= <-]. simpl. rewrite (IHcs rest') by done.
        by rewrite app_assoc.
      - destruct (addT c x parent) as [c'|]; [|done].
        intros [= <-]. simpl. rewrite (Hc c') by done.
        rewrite <- !app_assoc. f_equiv. apply Permutation_app_comm. }
    destruct (addT_list x parent cs) as [cs'|]; [|done].
    intros [= <-]. simpl. by rewrite (Hl cs').
Qed.

Lemma addT_name t x parent t' : addT t x parent = Some t' → name t' = name t.
Proof.
  destruct t as [n i e cs]. rewrite addT_unfold.
  destruct (String.eqb n parent); [by intros [= <-]|].
  destruct (addT_list x parent cs); [by intros [= <-]|done].
Qed.


(** ** [Item::add] is the reverse depth-first search *)

Definition under (index : nat) (e : ItemPath * string) : ItemPath * string :=
  (index :: e.1, e.2).

Lemma find_app {A} (f : A → bool) l1 l2 :
  List.find f (l1 ++ l2) =
  match List.find f l1 with Some a => Some a | None => List.find f l2 end.
Proof. induction l1 as [|a l1 IH]; simpl; [done|]. by destruct (f a). Qed.

Lemma find_under parent index l :
  List.find (named parent) (map (under index) l) =
  under index <$> List.find (named parent) l.
Proof.
  induction l as [|e l IH]; simpl; [done|].
  unfold named at 1 3. simpl. by destruct (String.eqb e.2 parent).
Qed.

Lemma reverse_dfs_unfold n i e cs :
  reverse_dfs (mkItem n i e cs) =
  ([], n) ::
  reverse_children (λ index c, map (under index) (reverse_dfs c)) cs 0%nat.
Proof. done. Qed.

(** the children after the addition below the child [e] points into *)
Definition added_below (x : Item) (index : nat) (cs : list Item)
  (e : ItemPath * string) : list Item :=
  match e.1 with
  | k :: p => alter (append_child_at p x) (k - index)%nat cs
  | [] => cs
  end.

Lemma reverse_children_heads cs index :
  Forall (λ e : ItemPath * string,
            match e.1 with k :: _ => (index ≤ k)%nat | [] => False end)
    (reverse_children (λ index c, map (under index) (reverse_dfs c)) cs index).
Proof.
  revert index. induction cs as [|c cs IH]; intros index; simpl; [constructor|].
  apply Forall_app. split.
  - eapply Forall_impl; [apply (IH (S index))|].
    intros [[|k p] nm]; simpl; [done|lia].
  - apply Forall_forall. intros e He.
    apply list_elem_of_fmap in He as (e' & -> & _). simpl. lia.
Qed.

Lemma addT_find t x parent :
  addT t x parent = (λ p, append_child_at p x t) <$> find_parent t parent.
Proof.
  induction t as [n i e cs IH] using Item_ind'.
  rewrite addT_unfold. unfold find_parent. rewrite reverse_dfs_unfold.
  cbn [List.find]. unfold named at 1. cbn [snd].
  destruct (String.eqb n parent); [done|].
  assert (Hl : ∀ index,
    addT_list x parent cs =
    added_below x index cs <$>
      List.find (named parent)
        (reverse_children (λ index c, map (under index) (reverse_dfs c)) cs index)).
  { induction cs as [|c cs IHcs]; intros index; [done|].
    apply Forall_cons in IH as [Hc Hcs]. specialize (IHcs Hcs).
    simpl. rewrite find_app, (IHcs (S index)).
    pose proof (reverse_children_heads cs (S index)) as Hh.
    destruct (List.find (named parent) (reverse_children _ cs (S index)))
      as [[[|k p] nm]|] eqn:E; simpl.
    - apply find_some in E as [E _]. rewrite Forall_forall in Hh.
      by apply list_elem_of_In, Hh in E.
    - apply find_some in E as [E _]. rewrite Forall_forall in Hh.
      apply list_elem_of_In, Hh in E. simpl in E.
      unfold added_below. simpl.
      replace (k - index)%nat with (S (k - S index)) by lia. done.
    - rewrite find_under, Hc. unfold find_parent.
      destruct (List.find (named parent) (reverse_dfs c)) as [[p nm]|]; [|done].
      simpl. unfold added_below. simpl. by rewrite Nat.sub_diag. }
  rewrite (Hl 0%nat).
  destruct (List.find _ _) as [[[|k p] nm]|] eqn:E; simpl;
    [|unfold added_below; simpl; by rewrite Nat.sub_0_r|done].
  pose proof (reverse_children_heads cs 0%nat) as Hh.
  apply find_some in E as [E _]. rewrite Forall_forall in Hh.
  by apply list_elem_of_In, Hh in E.
Qed.

Lemma reverse_dfs_node_at t p nm :
  (p, nm) ∈ reverse_dfs t → ∃ node, node_at p t = Some node ∧ name node = nm.
Proof.
  revert p. induction t as [n i e cs IH] using Item_ind'. intros p.
  rewrite reverse_dfs_unfold, elem_of_cons. intros [[= -> ->]|Hin].
  { by eexists. }
  assert (Hl : ∀ index cs0, length cs0 = index →
    (p, nm) ∈ reverse_children
                (λ index c, map (under index) (reverse_dfs c)) cs index →
    ∃ k p' c, p = k :: p' ∧ (cs0 ++ cs) !! k = Some c ∧
              ∃ node, node_at p' c = Some node ∧ name node = nm).
  { clear Hin. induction cs as [|c cs IHcs]; intros index cs0 Hlen; simpl.
    - by intros ?%elem_of_nil.
    - apply Forall_cons in IH as [Hc Hcs]. specialize (IHcs Hcs).
      rewrite elem_of_app. intros [Hin|Hin].
      + destruct (IHcs (S index) (cs0 ++ [c])) as (k & p' & d & -> & Hk & Hd);
          [rewrite length_app; simpl; lia|done|].
        exists k, p', d. by rewrite <- app_assoc in Hk.
      + apply list_elem_of_fmap in Hin as ([p' nm'] & [= -> ->] & Hin).
        exists index, p', c. split; [done|]. split; [|by apply Hc].
        rewrite lookup_app_r by lia. by rewrite Hlen, Nat.sub_diag. }
  destruct (Hl 0%nat [] eq_refl Hin) as (k & p' & c & -> & Hk & Hd).
  simpl in *. by rewrite Hk.
Qed.

Lemma find_parent_node_at t parent p :
  find_parent t parent = Some p →
  ∃ node, node_at p t = Some node ∧ name node = parent.
Proof.
  unfold find_parent. destruct (List.find _ _) as [[q nm]|] eqn:E; [|done].
  intros [= <-]. apply find_some in E as [Hin Hn].
  unfold named in Hn. simpl in Hn. apply String.eqb_eq in Hn as ->.
  apply reverse_dfs_node_at. by apply list_elem_of_In.
Qed.

Lemma node_at_append_child_at p x t node :
  node_at p t = Some node →
  node_at p (append_child_at p x t) =
  Some (mkItem (name node) (id node) (extraInfo node) (children node ++ [x])).
Proof.
  revert t. induction p as [|k p IH]; intros t; simpl.
  - by intros [= ->].
  - destruct (children t !! k) as [c|] eqn:E; [|done]. intros Hn.
    rewrite list_lookup_alter_eq, E. simpl. by apply IH.
Qed.

Lemma add_Some_iff t x parent : is_Some (add t x parent) ↔ is_Some (addT t x parent).
Proof. unfold addT. by rewrite fmap_is_Some. Qed.

(** ** The used names name items of the tree *)

Definition used_in_tree (h : CaretHierarchy) : Prop :=
  name (m_root h) = "" ∧ "" ∈ m_usedNames h ∧
  ∀ n, n ∈ m_usedNames h → n ∈ names (m_root h).

Lemma names_alter (g : Item → Item) k cs :
  (∀ c, names (g c) = names c) →
  flat_map names (alter g k cs) = flat_map names cs.
Proof.
  intros Hg. revert k. induction cs as [|c cs IH]; intros [|k]; simpl; try done.
  - by rewrite Hg.
  - f_equal. apply IH.
Qed.

Lemma names_update_extraInfo p f t : names (update_extraInfo p f t) = names t.
Proof.
  revert t. induction p as [|k p IH]; intros [n i e cs]; simpl; [done|].
  by rewrite names_alter.
Qed.

Lemma name_update_extraInfo p f t : name (update_extraInfo p f t) = name t.
Proof. by destruct p. Qed.

Lemma addItem_cases x parent h :
  ((addItem x parent h = (None, h)) ∧
   (name x ∈ m_usedNames h ∨ parent ∉ m_usedNames h ∨
    addT (m_root h) x parent = None)) ∨
  (∃ root' p, add (m_root h) x parent = Some (root', p) ∧
     (name x ∉ m_usedNames h) ∧ parent ∈ m_usedNames h ∧
     addItem x parent h =
       (Some p, mkHierarchy root' ({[ name x ]} ∪ m_usedNames h))).
Proof.
  unfold addItem, addT.
  case_bool_decide as H1; [left; naive_solver|].
  case_bool_decide as H2; [left; naive_solver|].
  destruct (add (m_root h) x parent) as [[root' p]|] eqn:E.
  - right. by exists root', p.
  - left. naive_solver.
Qed.

Lemma used_in_tree_addItem x parent h :
  used_in_tree h → used_in_tree (addItem x parent h).2.
Proof.
  intros (Hn & He & Hu).
  destruct (addItem_cases x parent h) as [[-> _]|(root' & p & E & _ & _ & ->)];
    [done|].
  assert (E' : addT (m_root h) x parent = Some root') by (unfold addT; by rewrite E).
  unfold used_in_tree. simpl.
  split; [by rewrite (addT_name _ _ _ _ E')|]. split; [set_solver|].
  intros n Hin. rewrite (addT_names _ _ _ _ E').
  apply elem_of_app. destruct x as [nx ix ex cx]. simpl in *.
  apply elem_of_union in Hin as [->%elem_of_singleton|Hin].
  - right. apply list_elem_of_here.
  - left. by apply Hu.
Qed.

Lemma used_in_tree_update p f h :
  used_in_tree h →
  used_in_tree (mkHierarchy (update_extraInfo p f (m_root h)) (m_usedNames h)).
Proof.
  intros (Hn & He & Hu). unfold used_in_tree. simpl.
  by rewrite name_update_extraInfo, names_update_extraInfo.
Qed.

Lemma used_in_tree_clear h : used_in_tree (clear h).
Proof.
  unfold used_in_tree. simpl. split; [done|]. split; [set_solver|].
  intros n ->%elem_of_singleton. apply list_elem_of_here.
Qed.


(** ** Where [addT] changes a list of children *)

Lemma addT_list_Some x parent cs cs' :
  addT_list x parent cs = Some cs' →
  ∃ l1 c c' l2, cs = l1 ++ c :: l2 ∧ cs' = l1 ++ c' :: l2 ∧
                addT c x parent = Some c' ∧ parent ∉ flat_map names l2.
Proof.
  revert cs'. induction cs as [|d cs IH]; intros cs'; simpl; [done|].
  destruct (addT_list x parent cs) as [rest'|] eqn:E.
  - intros [= <-]. destruct (IH rest' eq_refl) as (l1 & c & c' & l2 & -> & -> & ? & ?).
    by exists (d :: l1), c, c', l2.
  - destruct (addT d x parent) as [d'|] eqn:Ed; [|done]. intros [= <-].
    exists [], d, d', cs. by apply addT_list_None_iff in E.
Qed.

Lemma addT_list_app_r x parent l1 c c' l2 :
  addT c x parent = Some c' → parent ∉ flat_map names l2 →
  addT_list x parent (l1 ++ c :: l2) = Some (l1 ++ c' :: l2).
Proof.
  intros Hc Hl2. apply (addT_list_None_iff x) in Hl2.
  induction l1 as [|d l1 IH]; simpl.
  - by rewrite Hl2, Hc.
  - by rewrite IH.
Qed.

(** ** Unique names *)

Definition names_ok (h : CaretHierarchy) : Prop :=
  name (m_root h) = "" ∧ NoDup (names (m_root h)) ∧
  ∀ n, n ∈ m_usedNames h ↔ n ∈ names (m_root h).

Lemma names_ok_used_in_tree h : names_ok h → used_in_tree h.
Proof.
  intros (Hn & Hnd & Hu). split; [done|]. split; [|by intros n ?%Hu].
  apply Hu. destruct (m_root h). simpl in *. subst. apply list_elem_of_here.
Qed.

Lemma names_ok_clear h : names_ok (clear h).
Proof.
  unfold names_ok. simpl. split; [done|]. split.
  - apply NoDup_singleton.
  - intros n. rewrite elem_of_singleton, list_elem_of_singleton. done.
Qed.

Lemma names_ok_addItem x parent h :
  children x = [] → names_ok h → names_ok (addItem x parent h).2.
Proof.
  intros Hx (Hn & Hnd & Hu).
  destruct (addItem_cases x parent h) as [[-> _]|(root' & p & E & Hfresh & _ & ->)];
    [done|].
  assert (E' : addT (m_root h) x parent = Some root') by (unfold addT; by rewrite E).
  assert (Hnx : names x = [name x]) by (destruct x; simpl in *; by subst).
  unfold names_ok. simpl.
  split; [by rewrite (addT_name _ _ _ _ E')|]. split.
  - rewrite (addT_names _ _ _ _ E'), Hnx.
    apply NoDup_app. split; [done|]. split; [|apply NoDup_singleton].
    intros n Hin ->%list_elem_of_singleton. by apply Hfresh, Hu.
  - intros n. rewrite (addT_names _ _ _ _ E'), Hnx.
    rewrite elem_of_union, elem_of_singleton, elem_of_app,
      list_elem_of_singleton, Hu. naive_solver.
Qed.

Lemma names_ok_update p f h :
  names_ok h →
  names_ok (mkHierarchy (update_extraInfo p f (m_root h)) (m_usedNames h)).
Proof.
  intros (Hn & Hnd & Hu). unfold names_ok. simpl.
  by rewrite name_update_extraInfo, names_update_extraInfo.
Qed.

(** ** What the readers keep *)

Lemma kv_set_keys key value kv :
  (map fst (kv_set key value kv)) = if bool_decide (key ∈ (map fst kv)) then (map fst kv) else (map fst kv) ++ [key].
Proof.
  induction kv as [|[k v] kv IH]; simpl; [done|].
  destruct (String.eqb_spec k key) as [->|Hne]; simpl.
  - by rewrite bool_decide_true by apply list_elem_of_here.
  - rewrite IH. case_bool_decide as H1.
    + by rewrite bool_decide_true by by apply list_elem_of_further.
    + rewrite bool_decide_false; [done|].
      rewrite elem_of_cons. naive_solver.
Qed.

Lemma kv_set_NoDup key value kv : NoDup (map fst kv) → NoDup (map fst (kv_set key value kv)).
Proof.
  intros Hnd. rewrite kv_set_keys. case_bool_decide as H; [done|].
  apply NoDup_app. split; [done|]. split; [|apply NoDup_singleton].
  by intros n Hin ->%list_elem_of_singleton.
Qed.

Lemma kv_readXML_loop_NoDup pending current kv :
  NoDup (map fst kv) → NoDup (map fst (kv_readXML_loop pending current kv).1.2).
Proof.
  revert current kv. induction pending as [|t ts IH]; intros current kv Hnd;
    simpl; repeat case_match; simpl; eauto using kv_set_NoDup.
Qed.

Lemma kv_readXML_NoDup xml : NoDup (map fst (kv_readXML xml).1.2).
Proof. apply kv_readXML_loop_NoDup. constructor. Qed.

Lemma add_reverse_path try cs index cs' p :
  add_reverse try cs index = Some (cs', p) → p ≠ [].
Proof.
  revert index cs'. induction cs as [|c cs IH]; intros index cs'; simpl; [done|].
  destruct (add_reverse try cs (S index)) as [[rest' q]|] eqn:E.
  - intros [= <- <-]. by eapply IH.
  - destruct (try c) as [[c' q]|]; [|done]. by intros [= <- <-].
Qed.

Lemma add_path t x parent t' p : add t x parent = Some (t', p) → p ≠ [].
Proof.
  destruct t as [n i e cs]. simpl. destruct (String.eqb n parent).
  - by intros [= <- <-].
  - destruct (add_reverse _ cs 0%nat) as [[cs' q]|] eqn:E; [|done].
    intros [= <- <-]. by eapply add_reverse_path.
Qed.

Section Preserved.
(** a property of the hierarchy kept by the additions of childless items
    and by writes to the annotations of an item other than the root *)
Variable P : CaretHierarchy → Prop.
Hypothesis P_addItem :
  ∀ x parent h, children x = [] → NoDup (map fst (extraInfo x)) → P h →
                P (addItem x parent h).2.
Hypothesis P_update :
  ∀ p kv h, p ≠ [] → NoDup (map fst kv) → P h →
            P (mkHierarchy (update_extraInfo p (λ _, kv) (m_root h)) (m_usedNames h)).

Definition read_inv (st : ReadState) : Prop :=
  P (hier st) ∧ Forall (λ p, p ≠ []) (addedInfo st).

Lemma readXML_body_preserves xml st :
  read_inv st →
  match readXML_body xml st with
  | Continue _ st' => read_inv st'
  | Stop _ st' => read_inv st'
  end.
Proof using P_addItem P_update.
  intros [HP Hptr]. unfold readXML_body.
  destruct (current xml) as [| | | |tagname attributes|tag|]; try done.
  - destruct (String.eqb tagname "CaretHierarchy").
    { destruct (haveRoot st); [done|]. simpl.
      destruct (negb _); [done|]. by destruct (negb _). }
    destruct (String.eqb tagname "Item").
    { destruct (negb _); [done|]. destruct (rootEnded st); [done|].
      destruct (parents st) as [|back ?]; [done|].
      pose proof (P_addItem (ItemNamed (attribute_value attributes "Name"))
                    back (hier st) eq_refl NoDup_nil_2 HP) as HP'.
      destruct (addItem_cases (ItemNamed (attribute_value attributes "Name"))
                  back (hier st)) as [[E _]|(root' & p & Eadd & _ & _ & E)];
        rewrite E in HP' |- *; [done|].
      split; [done|]. constructor; [|done]. by eapply add_path. }
    destruct (String.eqb tagname "Info"); [|done].
    destruct (addedInfo st) as [|kvptr ?] eqn:Eai;
      [split; [done|by rewrite Eai]|].
    pose proof (kv_readXML_NoDup xml) as Hkv.
    destruct (kv_readXML xml) as [[o kv] xml']. simpl in Hkv.
    apply Forall_cons in Hptr as [Hkvptr Hptr].
    pose proof (P_update kvptr kv (hier st) Hkvptr Hkv HP).
    destruct o; (split; [done|]; simpl; by constructor).
  - destruct (String.eqb tag "Item"); [|done].
    destruct (addedInfo st) eqn:Eai, (parents st);
      try (split; [done|by rewrite Eai]).
    split; [done|]. simpl. by apply Forall_cons in Hptr as [_ ?].
Qed.

Lemma readXML_loop_preserves fuel xml st :
  read_inv st → read_inv (readXML_loop fuel xml st).1.2.
Proof using P_addItem P_update.
  revert xml st. induction fuel as [|fuel IH]; intros xml st HP; simpl;
    destruct (atEnd xml); try done.
  pose proof (readXML_body_preserves xml st HP) as Hb.
  destruct (readXML_body xml st); [by apply IH|done].
Qed.

Lemma readXML_preserves xml h :
  (∀ h, P (clear h)) → P (readXML xml h).2.
Proof using P_addItem P_update.
  intros Hclear. unfold readXML.
  assert (Hinv : read_inv (mkReadState (clear h) [""] [] false false))
    by (split; [apply Hclear|constructor]).
  pose proof (readXML_loop_preserves (S (length (pending xml))) xml _ Hinv)
    as [HP _].
  destruct (readXML_loop _ _ _) as [[o st] xml']. simpl in HP.
  destruct o; try done. by destruct (hasError xml').
Qed.

Lemma handleJsonMember_NoDup thisobj kv key :
  NoDup (map fst kv) → NoDup (map fst (handleJsonMember thisobj kv key)).
Proof.
  intros Hnd. unfold handleJsonMember.
  destruct (String.eqb key "name"); [done|].
  destruct (obj_value thisobj key); simpl;
    destruct (String.eqb key "children"); try done; by apply kv_set_NoDup.
Qed.

Lemma handleJsonMembers_NoDup thisobj keys kv :
  NoDup (map fst kv) → NoDup (map fst (fold_left (handleJsonMember thisobj) keys kv)).
Proof.
  revert kv. induction keys as [|k keys IH]; intros kv Hnd; [done|].
  simpl. by apply IH, handleJsonMember_NoDup.
Qed.

Lemma recurseJsonArrayish_preserves handle h elements parent :
  (∀ h o p, P h → P (handle h o p).2) →
  P h → P (recurseJsonArrayish handle h elements parent).2.
Proof.
  intros Hh HP. unfold recurseJsonArrayish.
  destruct elements as [| | | |a| |]; try by apply Hh.
  revert h HP. induction a as [|iter a IH]; intros h HP; [done|].
  specialize (Hh h (toObject iter) parent HP).
  destruct (handle h (toObject iter) parent) as [o h']. simpl in Hh.
  destruct o; try done. by apply IH.
Qed.

Lemma handleJsonChild_preserves fuel h thisobj parent :
  P h → P (handleJsonChild fuel h thisobj parent).2.
Proof using P_addItem.
  revert h thisobj parent. induction fuel as [|fuel IH];
    intros h thisobj parent HP; [done|].
  simpl. destruct (String.eqb _ ""); [by destruct (String.eqb parent "")|].
  match goal with |- context [addItem ?x parent h] =>
    pose proof (P_addItem x parent h eq_refl
                  (handleJsonMembers_NoDup thisobj (obj_keys thisobj) kv_clear
                     NoDup_nil_2) HP) as HP';
    destruct (addItem x parent h) as [[kvptr|] h'] end; [|done].
  simpl in HP'. destruct (obj_contains thisobj "children"); [|done].
  by apply recurseJsonArrayish_preserves.
Qed.

Lemma readJsonFile_preserves myjson h :
  (∀ h, P (clear h)) → P (readJsonFile myjson h).2.
Proof using P_addItem.
  intros Hclear. unfold readJsonFile.
  apply recurseJsonArrayish_preserves; [|done].
  intros h' o p. apply handleJsonChild_preserves.
Qed.
End Preserved.


(** ** The hierarchies the class can hold *)

Inductive reachable : CaretHierarchy → Prop :=
| reach_new : reachable CaretHierarchyNew
| reach_clear h : reachable h → reachable (clear h)
| reach_addItem x parent h : reachable h → reachable (addItem x parent h).2
| reach_extraInfo p f h :
    reachable h →
    reachable (mkHierarchy (update_extraInfo p f (m_root h)) (m_usedNames h))
| reach_readXML xml h : reachable h → reachable (readXML xml h).2
| reach_readJsonFile myjson h : reachable h → reachable (readJsonFile myjson h).2.

Lemma reachable_used_in_tree h : reachable h → used_in_tree h.
Proof.
  induction 1 as [|h _ _|x parent h _ IH|p f h _ IH|xml h _ _|myjson h _ _].
  - apply (used_in_tree_clear CaretHierarchyNew).
  - apply used_in_tree_clear.
  - by apply used_in_tree_addItem.
  - by apply used_in_tree_update.
  - apply readXML_preserves; [| |apply used_in_tree_clear].
    + intros x parent h' _ _. apply used_in_tree_addItem.
    + intros p kv h' _ _. apply used_in_tree_update.
  - apply readJsonFile_preserves; [|apply used_in_tree_clear].
    intros x parent h' _ _. apply used_in_tree_addItem.
Qed.

(** C5: [addItem] returns false and changes nothing when the item's name
    is a used name or the parent's name is not; otherwise it returns true,
    the parent is the first item named [parent] that a depth-first search
    visiting the children from the last to the first meets, the item has
    become the last child of that parent, and its name is a used name. *)
Theorem addItem_spec x parent h :
  reachable h →
  (name x ∈ m_usedNames h ∨ parent ∉ m_usedNames h →
   addItem x parent h = (None, h)) ∧
  ((name x ∉ m_usedNames h) → parent ∈ m_usedNames h →
   ∃ p node,
     find_parent (m_root h) parent = Some p ∧
     node_at p (m_root h) = Some node ∧ name node = parent ∧
     is_Some (addItem x parent h).1 ∧
     (addItem x parent h).2 =
       mkHierarchy (append_child_at p x (m_root h))
                   ({[ name x ]} ∪ m_usedNames h) ∧
     node_at p (m_root (addItem x parent h).2) =
       Some (mkItem (name node) (id node) (extraInfo node)
                    (children node ++ [x]))).
Proof.
  intros Hr. apply reachable_used_in_tree in Hr as (_ & _ & Hu). split.
  - unfold addItem. intros [H|H].
    + by rewrite bool_decide_true.
    + destruct (bool_decide (name x ∈ m_usedNames h)); [done|].
      by rewrite bool_decide_true.
  - intros Hfresh Hparent.
    destruct (addT_is_Some (m_root h) x parent (Hu _ Hparent)) as [root' E].
    pose proof E as E'. rewrite addT_find in E'.
    destruct (find_parent (m_root h) parent) as [p|] eqn:Ef; [|done].
    simpl in E'. injection E' as <-.
    destruct (find_parent_node_at _ _ _ Ef) as (node & Hnode & Hname).
    exists p, node. split; [done|]. split; [done|]. split; [done|].
    unfold addItem. rewrite bool_decide_false by done.
    rewrite bool_decide_false by (by intros ?).
    unfold addT in E. destruct (add (m_root h) x parent) as [[r ptr]|]; [|done].
    simpl in E. injection E as ->. simpl.
    split; [done|]. split; [done|]. by apply node_at_append_child_at.
Qed.

(** ** Sequences of calls of [addItem] *)

(** The calls are run in order; with the final hierarchy comes, for every
    call that returned true, the parent name given and the name of the
    item, in call order. *)
Definition run_call (st : list (string * string) * CaretHierarchy)
  (call : Item * string) : list (string * string) * CaretHierarchy :=
  match addItem call.1 call.2 st.2 with
  | (Some _, h) => (st.1 ++ [(call.2, name call.1)], h)
  | (None, h) => (st.1, h)
  end.

Definition run_calls (calls : list (Item * string)) (h : CaretHierarchy)
  : list (string * string) * CaretHierarchy :=
  fold_left run_call calls ([], h).

(** a chain of names from an item down to one of its descendants *)
Inductive branch : Item → list string → Prop :=
| branch_here t : branch t [name t]
| branch_child t c l : c ∈ children t → branch c l → branch t (name t :: l).

(** [follows added path]: the chain of names starts at the root's name and
    each further name was added under the one before it by a successful
    call (an entry of [added]: parent name, item name), the calls of the
    chain in call order. *)
Inductive follows : list (string * string) → list string → Prop :=
| follows_root : follows [] [""]
| follows_later added call path :
    follows added path → follows (added ++ [call]) path
| follows_call added parent n path :
    follows added (path ++ [parent]) →
    follows (added ++ [(parent, n)]) (path ++ [parent; n]).

Lemma branch_names t l n : branch t l → n ∈ l → n ∈ names t.
Proof.
  induction 1 as [t|t c l Hc Hb IH]; destruct t as [m i e cs]; simpl in *.
  - intros ->%list_elem_of_singleton. apply list_elem_of_here.
  - rewrite !elem_of_cons. intros [->|Hn]; [by left|]. right.
    apply list_elem_of_In, in_flat_map. exists c.
    split; apply list_elem_of_In; [done|by apply IH].
Qed.

Lemma branch_nonempty t l : branch t l → l ≠ [].
Proof. by destruct 1. Qed.

Lemma branch_addT t x parent t' l :
  addT t x parent = Some t' → branch t l → branch t' l.
Proof.
  revert t' l. induction t as [n i e cs IH] using Item_ind'. intros t' l.
  rewrite addT_unfold. destruct (String.eqb n parent).
  - intros [= <-] Hb. inversion Hb as [|? c l' Hc Hb']; subst; simpl in *.
    + apply (branch_here (mkItem n i e (cs ++ [x]))).
    + apply (branch_child (mkItem n i e (cs ++ [x])) c); [|done].
      simpl. apply elem_of_app. by left.
  - destruct (addT_list x parent cs) as [cs'|] eqn:E; [|done].
    intros [= <-] Hb.
    apply addT_list_Some in E as (l1 & d & d' & l2 & -> & -> & Hd & _).
    inversion Hb as [|? c l' Hc Hb']; subst; simpl in *.
    + apply (branch_here (mkItem n i e (l1 ++ d' :: l2))).
    + rewrite Forall_app, Forall_cons in IH. destruct IH as (_ & IHd & _).
      apply elem_of_app in Hc as [Hc|Hc%elem_of_cons].
      * apply (branch_child (mkItem n i e (l1 ++ d' :: l2)) c); [|done].
        simpl. apply elem_of_app. by left.
      * destruct Hc as [->|Hc].
        -- apply (branch_child (mkItem n i e (l1 ++ d' :: l2)) d');
             [|by apply IHd].
           simpl. apply elem_of_app. right. apply list_elem_of_here.
        -- apply (branch_child (mkItem n i e (l1 ++ d' :: l2)) c); [|done].
           simpl. apply elem_of_app. right. by apply list_elem_of_further.
Qed.

Lemma branch_last_in_names t l n : branch t (l ++ [n]) → n ∈ names t.
Proof. intros Hb. apply (branch_names t _ n Hb), elem_of_app. right. apply list_elem_of_here. Qed.

Lemma branch_addT_new t x parent t' l :
  NoDup (names t) →
  addT t x parent = Some t' → branch t (l ++ [parent]) →
  branch t' (l ++ [parent; name x]).
Proof.
  revert t' l. induction t as [n i e cs IH] using Item_ind'. intros t' l Hnd.
  rewrite addT_unfold. simpl in Hnd. apply NoDup_cons in Hnd as [Hn Hnd].
  intros Hadd Hb. inversion Hb as [t0 E1 Hl|t0 c l' Hc Hb' E1 Hl]; subst t0;
    simpl in *.
  - destruct l as [|? [|]]; simplify_eq/=.
    rewrite String.eqb_refl in Hadd. injection Hadd as <-.
    apply (branch_child (mkItem parent i e (cs ++ [x])) x).
    + simpl. apply elem_of_app. right. apply list_elem_of_here.
    + apply branch_here.
  - destruct l as [|m l]; simpl in Hl.
    { injection Hl as -> ->. exfalso. by apply (branch_nonempty _ _ Hb'). }
    injection Hl as <- ->.
    pose proof (branch_last_in_names _ _ _ Hb') as Hpc.
    assert (Hpin : parent ∈ flat_map names cs).
    { apply list_elem_of_In, in_flat_map. exists c.
      split; by apply list_elem_of_In. }
    destruct (String.eqb_spec n parent) as [->|Hne]; [done|].
    destruct (addT_list x parent cs) as [cs'|] eqn:E; [|done].
    injection Hadd as <-.
    apply addT_list_Some in E as (l1 & d & d' & l2 & -> & -> & Hd & Hl2).
    rewrite Forall_app, Forall_cons in IH. destruct IH as (_ & IHd & _).
    rewrite flat_map_app in Hnd. simpl in Hnd.
    apply NoDup_app in Hnd as (_ & Hdisj & Hnd2).
    apply NoDup_app in Hnd2 as (Hndd & Hdisj2 & _).
    assert (Hpd : parent ∈ names d).
    { destruct (decide (parent ∈ names d)) as [|Hno]; [done|].
      apply (addT_None_iff d x) in Hno. congruence. }
    assert (c = d) as ->.
    { apply elem_of_app in Hc as [Hc|Hc%elem_of_cons].
      - exfalso. apply (Hdisj parent).
        + apply list_elem_of_In, in_flat_map. exists c.
          split; by apply list_elem_of_In.
        + apply elem_of_app. by left.
      - destruct Hc as [->|Hc]; [done|]. exfalso. apply Hl2.
        apply list_elem_of_In, in_flat_map. exists c.
        split; by apply list_elem_of_In. }
    apply (branch_child (mkItem n i e (l1 ++ d' :: l2)) d').
    + simpl. apply elem_of_app. right. apply list_elem_of_here.
    + by apply IHd.
Qed.


Definition calls_inv (st : list (string * string) * CaretHierarchy) : Prop :=
  names_ok st.2 ∧
  follows st.1 [""] ∧
  (∀ n, n ∈ m_usedNames st.2 → n = "" ∨ ∃ p, (p, n) ∈ st.1) ∧
  (∀ p n, (p, n) ∈ st.1 →
     ∃ path, follows st.1 (path ++ [p; n]) ∧
             branch (m_root st.2) (path ++ [p; n])).

Lemma calls_inv_clear h : calls_inv ([], clear h).
Proof.
  split; [apply names_ok_clear|]. split; [constructor|]. split; simpl.
  - intros n ->%elem_of_singleton. by left.
  - by intros p n ?%elem_of_nil.
Qed.

Lemma calls_inv_run_call st call :
  children call.1 = [] → calls_inv st → calls_inv (run_call st call).
Proof.
  destruct st as [added h], call as [x parent]. simpl.
  intros Hx (Hok & Hroot & Hused & Hpaths). simpl in *.
  pose proof (names_ok_addItem x parent h Hx Hok) as Hok'.
  unfold run_call. simpl.
  destruct (addItem_cases x parent h)
    as [[E _]|(root' & ptr & E & Hfresh & Hparent & Eadd)].
  { rewrite E. simpl. split; [done|]. split; [done|]. by split. }
  rewrite Eadd in Hok' |- *. simpl in *.
  assert (E' : addT (m_root h) x parent = Some root')
    by (unfold addT; by rewrite E).
  destruct Hok as (Hname & Hnd & Hu).
  split; [done|]. split; [by constructor|]. split.
  - intros n [->%elem_of_singleton|Hn]%elem_of_union.
    + right. exists parent. apply elem_of_app. right. apply list_elem_of_here.
    + destruct (Hused n Hn) as [->|[p Hp]]; [by left|].
      right. exists p. apply elem_of_app. by left.
  - intros p n [Hin|[= -> ->]%list_elem_of_singleton]%elem_of_app.
    + destruct (Hpaths p n Hin) as (path & Hf & Hb). exists path.
      split; [by constructor|]. by apply (branch_addT _ _ _ _ _ E').
    + destruct (Hused parent Hparent) as [->|[q Hq]].
      * exists []. split; [by apply (follows_call added "" (name x) [])|].
        apply (branch_addT_new _ _ _ _ [] Hnd E').
        rewrite <- Hname. apply branch_here.
      * destruct (Hpaths q parent Hq) as (path & Hf & Hb).
        exists (path ++ [q]). rewrite <- !app_assoc. simpl.
        replace (path ++ [q; parent]) with ((path ++ [q]) ++ [parent]) in Hf, Hb
          by by rewrite <- app_assoc.
        split.
        -- replace (path ++ [q; parent; name x])
             with ((path ++ [q]) ++ [parent; name x]) by by rewrite <- app_assoc.
           by constructor.
        -- replace (path ++ [q; parent; name x])
             with ((path ++ [q]) ++ [parent; name x]) by by rewrite <- app_assoc.
           by apply (branch_addT_new _ _ _ _ _ Hnd E').
Qed.

Lemma calls_inv_fold calls st :
  Forall (λ call : Item * string, children call.1 = []) calls →
  calls_inv st → calls_inv (fold_left run_call calls st).
Proof.
  revert st. induction calls as [|call calls IH]; intros st Hall Hinv; [done|].
  apply Forall_cons in Hall as [Hc Hall]. simpl.
  by apply IH, calls_inv_run_call.
Qed.

(** C6 (amended): after any sequence of [addItem] calls whose items carry
    no children of their own, made on a cleared hierarchy, no two items of
    the tree share a name, and for every call that returned true there is a
    chain of names from the root down to the item, ending with the parent
    name of the call and the item's name, each link of which was made by a
    successful call, in call order. *)
Theorem addItem_sequence calls h0 :
  Forall (λ call : Item * string, children call.1 = []) calls →
  let added := (run_calls calls (clear h0)).1 in
  let h := (run_calls calls (clear h0)).2 in
  NoDup (names (m_root h)) ∧
  ∀ parent n, (parent, n) ∈ added →
    ∃ path, follows added (path ++ [parent; n]) ∧
            branch (m_root h) (path ++ [parent; n]).
Proof.
  intros Hall added h.
  destruct (calls_inv_fold calls ([], clear h0) Hall (calls_inv_clear h0))
    as ((_ & Hnd & _) & _ & _ & Hpaths).
  split; [done|]. apply Hpaths.
Qed.

(** C6, as stated, fails: one call of [addItem], on a new hierarchy, with an
    item that brings two children of the same name returns true and leaves
    two items named "b" in the tree. *)
Lemma addItem_sequence_shared_name :
  let calls := [(mkItem "a" "" [] [ItemNamed "b"; ItemNamed "b"], "")] in
  (run_calls calls CaretHierarchyNew).1 = [("", "a")] ∧
  ¬ NoDup (names (m_root (run_calls calls CaretHierarchyNew).2)).
Proof.
  split; [by vm_compute|].
  assert (E : names (m_root (run_calls
                [(mkItem "a" "" [] [ItemNamed "b"; ItemNamed "b"], "")]
                CaretHierarchyNew).2) = [""; "a"; "b"; "b"]) by by vm_compute.
  rewrite E. intros Hnd.
  apply NoDup_cons in Hnd as [_ Hnd]. apply NoDup_cons in Hnd as [_ Hnd].
  apply NoDup_cons in Hnd as [Hb _]. apply Hb, list_elem_of_here.
Qed.


(** ** What a parse leaves *)

(** the root is the implicit one; its names are unique and are the used
    names *)
Definition partial_ok (h : CaretHierarchy) : Prop :=
  names_ok h ∧ id (m_root h) = "" ∧ extraInfo (m_root h) = [].

Lemma addT_root_fields t x parent t' :
  addT t x parent = Some t' → id t' = id t ∧ extraInfo t' = extraInfo t.
Proof.
  destruct t as [n i e cs]. rewrite addT_unfold.
  destruct (String.eqb n parent); [by intros [= <-]|].
  destruct (addT_list x parent cs); [by intros [= <-]|done].
Qed.

Lemma partial_ok_clear h : partial_ok (clear h).
Proof. split; [apply names_ok_clear|done]. Qed.

Lemma partial_ok_addItem x parent h :
  children x = [] → partial_ok h → partial_ok (addItem x parent h).2.
Proof.
  intros Hx (Hok & Hi & He). split; [by apply names_ok_addItem|].
  destruct (addItem_cases x parent h) as [[-> _]|(root' & p & E & _ & _ & ->)];
    [done|].
  assert (E' : addT (m_root h) x parent = Some root') by (unfold addT; by rewrite E).
  apply addT_root_fields in E' as [Hi' He']. simpl. by rewrite Hi', He'.
Qed.

Lemma partial_ok_update p kv h :
  p ≠ [] → partial_ok h →
  partial_ok (mkHierarchy (update_extraInfo p (λ _, kv) (m_root h)) (m_usedNames h)).
Proof.
  intros Hp (Hok & Hi & He). split; [by apply names_ok_update|].
  by destruct p.
Qed.

Lemma partial_ok_no_children h h0 :
  partial_ok h → children (m_root h) = [] → h = clear h0.
Proof.
  destruct h as [[n i e cs] U]. intros ((Hn & _ & Hu) & Hi & He) Hcs.
  simpl in *. subst. unfold clear, ItemNew, kv_clear. f_equal.
  apply set_eq. intros x. rewrite Hu. simpl. set_solver.
Qed.

Lemma readXML_partial_ok xml h : partial_ok (readXML xml h).2.
Proof.
  apply readXML_preserves; [| |apply partial_ok_clear].
  - intros x parent h' Hx _. by apply partial_ok_addItem.
  - intros p kv h' Hp _. by apply partial_ok_update.
Qed.

Lemma readJsonFile_partial_ok myjson h : partial_ok (readJsonFile myjson h).2.
Proof.
  apply readJsonFile_preserves; [|apply partial_ok_clear].
  intros x parent h' Hx _. by apply partial_ok_addItem.
Qed.

(** *** Concrete hierarchies and documents *)

Definition hierarchy_ab : CaretHierarchy :=
  (addItem (ItemNamed "b") "a"
     (addItem (ItemNamed "a") "" CaretHierarchyNew).2).2.

Lemma hierarchy_ab_reachable : reachable hierarchy_ab.
Proof. unfold hierarchy_ab. repeat apply reach_addItem. apply reach_new. Defined.

Lemma addItem_spec_witness :
  reachable hierarchy_ab ∧
  (addItem (ItemNamed "b") "" hierarchy_ab = (None, hierarchy_ab)) ∧
  ∃ p node,
    find_parent (m_root hierarchy_ab) "a" = Some p ∧
    node_at p (m_root hierarchy_ab) = Some node ∧ name node = "a" ∧
    is_Some (addItem (ItemNamed "c") "a" hierarchy_ab).1 ∧
    (addItem (ItemNamed "c") "a" hierarchy_ab).2 =
      mkHierarchy (append_child_at p (ItemNamed "c") (m_root hierarchy_ab))
                  ({[ "c" ]} ∪ m_usedNames hierarchy_ab) ∧
    node_at p (m_root (addItem (ItemNamed "c") "a" hierarchy_ab).2) =
      Some (mkItem (name node) (id node) (extraInfo node)
                   (children node ++ [ItemNamed "c"])).
Proof.
  split; [apply hierarchy_ab_reachable|]. split.
  - apply (addItem_spec (ItemNamed "b") "" hierarchy_ab hierarchy_ab_reachable).
    left. by vm_compute.
  - apply (addItem_spec (ItemNamed "c") "a" hierarchy_ab hierarchy_ab_reachable).
    + by vm_compute.
    + by vm_compute.
Defined.

Definition calls_example : list (Item * string) :=
  [ (ItemNamed "a", ""); (ItemNamed "b", "a"); (ItemNamed "a", "b");
    (ItemNamed "c", "zz"); (ItemNamed "d", "b") ].

Lemma addItem_sequence_witness :
  Forall (λ call : Item * string, children call.1 = []) calls_example ∧
  let added := (run_calls calls_example (clear CaretHierarchyNew)).1 in
  let h := (run_calls calls_example (clear CaretHierarchyNew)).2 in
  NoDup (names (m_root h)) ∧
  ∀ parent n, (parent, n) ∈ added →
    ∃ path, follows added (path ++ [parent; n]) ∧
            branch (m_root h) (path ++ [parent; n]).
Proof.
  assert (H : Forall (λ call : Item * string, children call.1 = []) calls_example)
    by (repeat constructor).
  split; [exact H|].
  exact (addItem_sequence calls_example CaretHierarchyNew H).
Defined.

(** a document whose second element is not one of the hierarchy *)
Definition xml_bogus : list XmlToken :=
  [ StartDocument;
    StartElement "CaretHierarchy" [("Version", "1")];
    StartElement "Item" [("Name", "a")]; EndElement "Item";
    StartElement "Bogus" []; EndElement "Bogus";
    EndElement "CaretHierarchy"; EndDocument ].

(** an array whose second element has no name *)
Definition json_bogus : QJsonValue :=
  JArray [ JObject [("name", JString "a")]; JObject [] ].

(** C2, as stated, fails: reading [xml_bogus] throws at the unknown element
    and leaves the item "a", added before it, in the hierarchy; and so
    does reading [json_bogus], which throws at the element without a
    name. *)
Lemma readXML_throw_keeps_items :
  ((readXMLText xml_bogus CaretHierarchyNew).1 =
     Throws "Hierarchy XML error: unexpected element 'Bogus' in hierarchy XML" ∧
   m_root (readXMLText xml_bogus CaretHierarchyNew).2 =
     mkItem "" "" [] [ItemNamed "a"] ∧
   (readXMLText xml_bogus CaretHierarchyNew).2 ≠ clear CaretHierarchyNew) ∧
  ((readJsonFile json_bogus CaretHierarchyNew).1 =
     Throws "empty, non-string, or missing 'name' element in hierarchy json, in a top-level item" ∧
   m_root (readJsonFile json_bogus CaretHierarchyNew).2 =
     mkItem "" "" [] [ItemNamed "a"] ∧
   (readJsonFile json_bogus CaretHierarchyNew).2 ≠ clear CaretHierarchyNew).
Proof.
  split.
  - split; [by vm_compute|]. split; [by vm_compute|].
    intros H. apply (f_equal (λ h, length (children (m_root h)))) in H.
    by vm_compute in H.
  - split; [by vm_compute|]. split; [by vm_compute|].
    intros H. apply (f_equal (λ h, length (children (m_root h)))) in H.
    by vm_compute in H.
Qed.


(** ** XML: what is written *)

Definition info_item_tokens (kv : string * string) : list XmlToken :=
  [ StartElement "InfoItem" [("Key", kv.1); ("Value", kv.2)];
    EndElement "InfoItem" ].

Definition info_tokens (e : OrderedKVStore) : list XmlToken :=
  if is_empty e then []
  else StartElement "Info" [] :: flat_map info_item_tokens e ++ [EndElement "Info"].

(** the elements of an item and its descendants, in document order *)
Fixpoint item_tokens (t : Item) : list XmlToken :=
  match t with
  | mkItem n _ e cs =>
      if String.eqb n "" then flat_map item_tokens cs
      else StartElement "Item" [("Name", n)] ::
           info_tokens e ++ flat_map item_tokens cs ++ [EndElement "Item"]
  end.

Ltac rev_norm :=
  repeat (progress (rewrite ?rev_app_distr, <- ?app_assoc; cbn [rev app])).

Lemma writeStartElement_eq tag w o :
  writeStartElement tag (mkWriter w o) =
  mkWriter (StartElement tag [] :: w) (tag :: o).
Proof. done. Qed.

Lemma writeAttribute_eq key value tag a w o :
  writeAttribute key value (mkWriter (StartElement tag a :: w) o) =
  mkWriter (StartElement tag (a ++ [(key, value)]) :: w) o.
Proof. done. Qed.

Lemma writeEndElement_eq tag w o :
  writeEndElement (mkWriter w (tag :: o)) = mkWriter (EndElement tag :: w) o.
Proof. done. Qed.

Lemma write_info_items e w o :
  fold_left
    (λ xml (iter : string * string),
       writeEndElement
         (writeAttribute "Value" iter.2
            (writeAttribute "Key" iter.1 (writeStartElement "InfoItem" xml))))
    e (mkWriter w o) =
  mkWriter (rev (flat_map info_item_tokens e) ++ w) o.
Proof.
  revert w. induction e as [|[k v] e IH]; intros w; [done|].
  cbn [fold_left].
  rewrite writeStartElement_eq, !writeAttribute_eq, writeEndElement_eq, IH.
  cbn [flat_map info_item_tokens app rev fst snd]. by rev_norm.
Qed.

Lemma XMLWriteHelper_tokens t w o :
  XMLWriteHelper t (mkWriter w o) = mkWriter (rev (item_tokens t) ++ w) o.
Proof.
  revert w o. induction t as [n i e cs IH] using Item_ind'. intros w o.
  assert (Hcs : ∀ w o,
    fold_left (λ xml iter, XMLWriteHelper iter xml) cs (mkWriter w o) =
    mkWriter (rev (flat_map item_tokens cs) ++ w) o).
  { clear w o. induction cs as [|c cs IHcs]; intros w o; [done|].
    apply Forall_cons in IH as [Hc Hcs]. cbn [fold_left flat_map].
    rewrite Hc, (IHcs Hcs). by rev_norm. }
  cbn [XMLWriteHelper item_tokens]. destruct (String.eqb n ""); [apply Hcs|].
  unfold info_tokens, getAllData. destruct e as [|kv e]; cbn [is_empty negb].
  - rewrite writeStartElement_eq, writeAttribute_eq, Hcs, writeEndElement_eq.
    by rev_norm.
  - rewrite writeStartElement_eq, writeAttribute_eq, writeStartElement_eq.
    rewrite write_info_items, writeEndElement_eq, Hcs, writeEndElement_eq.
    by rev_norm.
Qed.

Lemma writeXMLToString_tokens h :
  writeXMLToString h =
  StartDocument :: StartElement "CaretHierarchy" [("Version", "1")] ::
  item_tokens (m_root h) ++ [EndElement "CaretHierarchy"; EndDocument].
Proof.
  unfold writeXMLToString, writeXML, writeStartDocument. cbn [written open_elements].
  rewrite writeStartElement_eq, writeAttribute_eq, XMLWriteHelper_tokens.
  rewrite writeEndElement_eq. unfold writeEndDocument.
  cbn [written open_elements map rev_append rev app].
  rev_norm. by rewrite rev_involutive.
Qed.


(** ** Additions under a fresh item, writes through the pointer *)

Definition with_child (x y : Item) : Item :=
  mkItem (name x) (id x) (extraInfo x) (children x ++ [y]).

Definition with_extraInfo (f : OrderedKVStore → OrderedKVStore) (x : Item) : Item :=
  mkItem (name x) (id x) (f (extraInfo x)) (children x).

(** adding under an item that was itself just added, by its fresh name *)
Lemma addT_child t x parent y t1 :
  name x ∉ names t →
  addT t x parent = Some t1 →
  addT t1 y (name x) = addT t (with_child x y) parent.
Proof.
  revert t1. induction t as [n i e cs IH] using Item_ind'. intros t1 Hfresh.
  simpl in Hfresh. apply not_elem_of_cons in Hfresh as [Hn Hfresh].
  rewrite !addT_unfold.
  destruct (String.eqb n parent).
  - intros [= <-]. rewrite addT_unfold.
    destruct (String.eqb_spec n (name x)) as [->|_]; [done|].
    rewrite addT_list_snoc. destruct x as [nx ix ex cx].
    rewrite addT_unfold. simpl. by rewrite String.eqb_refl.
  - destruct (addT_list x parent cs) as [cs1|] eqn:E; [|done].
    intros [= <-]. rewrite addT_unfold.
    destruct (String.eqb_spec n (name x)) as [->|_]; [done|]. f_equal.
    clear Hn. revert cs1 E.
    induction cs as [|c cs IHcs]; intros cs1; simpl; [done|].
    apply Forall_cons in IH as [Hc Hcs].
    simpl in Hfresh. rewrite not_elem_of_app in Hfresh.
    destruct Hfresh as [Hfc Hfcs]. specialize (IHcs Hcs Hfcs).
    destruct (addT_list x parent cs) as [rest'|] eqn:Erest.
    + intros [= <-]. simpl. rewrite (IHcs rest' eq_refl).
      destruct (addT_list (with_child x y) parent cs) eqn:E2; [done|].
      apply addT_list_None_iff, (addT_list_None_iff x) in E2. congruence.
    + destruct (addT c x parent) as [c1|] eqn:Ec; [|done].
      intros [= <-]. simpl.
      apply addT_list_None_iff in Erest.
      rewrite (proj2 (addT_list_None_iff y (name x) cs) Hfcs).
      rewrite (proj2 (addT_list_None_iff (with_child x y) parent cs) Erest).
      by rewrite (Hc c1 Hfc eq_refl).
Qed.

Lemma add_reverse_None x x' parent cs index :
  add_reverse (λ c, add c x parent) cs index = None →
  add_reverse (λ c, add c x' parent) cs index = None.
Proof.
  intros E.
  pose proof (add_reverse_addT_list x parent cs index) as H1.
  pose proof (add_reverse_addT_list x' parent cs index) as H2.
  rewrite E in H1. simpl in H1. symmetry in H1.
  apply addT_list_None_iff in H1. apply (addT_list_None_iff x') in H1.
  rewrite H1 in H2.
  destruct (add_reverse (λ c, add c x' parent) cs index); [by simpl in H2|done].
Qed.

(** writing through the pointer an addition returned is adding the item
    with the annotations written *)
Lemma add_update_extraInfo f t x parent t1 p :
  add t x parent = Some (t1, p) →
  add t (with_extraInfo f x) parent = Some (update_extraInfo p f t1, p).
Proof.
  revert t1 p. induction t as [n i e cs IH] using Item_ind'. intros t1 p.
  simpl. destruct (String.eqb n parent).
  - intros [= <- <-]. simpl. do 2 f_equal.
    rewrite <- (Nat.add_0_r (length cs)), alter_app_r. by destruct x.
  - assert (Hl : ∀ index cs1 p,
      add_reverse (λ c, add c x parent) cs index = Some (cs1, p) →
      ∃ k q, p = (index + k)%nat :: q ∧
        add_reverse (λ c, add c (with_extraInfo f x) parent) cs index =
        Some (alter (update_extraInfo q f) k cs1, p)).
    { clear t1 p. induction cs as [|c cs IHcs]; intros index cs1 p; simpl; [done|].
      apply Forall_cons in IH as [Hc Hcs]. specialize (IHcs Hcs).
      destruct (add_reverse _ cs (S index)) as [[rest' q]|] eqn:E.
      - intros [= <- <-].
        destruct (IHcs (S index) rest' q E) as (k & q' & Hq & Heq).
        rewrite Heq. exists (S k), q'. split; [rewrite Hq; f_equal; lia|done].
      - rewrite (add_reverse_None x (with_extraInfo f x) _ _ _ E).
        destruct (add c x parent) as [[c1 q]|] eqn:Ec; [|done].
        intros [= <- <-]. rewrite (Hc c1 q eq_refl).
        exists 0%nat, q. split; [f_equal; lia|done]. }
    destruct (add_reverse _ cs 0%nat) as [[cs1 q]|] eqn:E; [|done].
    intros [= <- <-].
    destruct (Hl 0%nat cs1 q E) as (k & q' & Hq & Heq).
    rewrite Heq, Hq. done.
Qed.

(** the items of a list added one after the other under the same parent *)
Inductive grafted (parent : string) : Item → list Item → Item → Prop :=
| grafted_nil t : grafted parent t [] t
| grafted_cons t c t1 cs t' :
    addT t c parent = Some t1 → grafted parent t1 cs t' →
    grafted parent t (c :: cs) t'.

Lemma grafted_children t x parent t1 l t' :
  name x ∉ names t →
  addT t x parent = Some t1 →
  grafted (name x) t1 l t' →
  addT t (mkItem (name x) (id x) (extraInfo x) (children x ++ l)) parent = Some t'.
Proof.
  intros Hfresh Hadd Hg. remember (name x) as nx eqn:Hnx.
  revert x Hnx Hfresh Hadd.
  induction Hg as [t1|t1 c t2 cs t' Hc Hg IH]; intros x -> Hfresh Hadd.
  - rewrite app_nil_r. by destruct x.
  - rewrite (addT_child _ _ _ _ _ Hfresh Hadd) in Hc.
    specialize (IH (with_child x c) eq_refl Hfresh Hc). simpl in IH.
    by rewrite <- app_assoc in IH.
Qed.

Lemma grafted_root l cs t' :
  grafted "" (mkItem "" "" [] l) cs t' → t' = mkItem "" "" [] (l ++ cs).
Proof.
  revert l. induction cs as [|c cs IH]; intros l Hg;
    inversion Hg as [|? ? t1 ? ? Hadd Hg']; subst.
  - by rewrite app_nil_r.
  - rewrite addT_unfold in Hadd. simpl in Hadd. injection Hadd as <-.
    rewrite (IH _ Hg'). by rewrite <- app_assoc.
Qed.

Lemma kv_set_fresh key value kv :
  key ∉ map fst kv → kv_set key value kv = kv ++ [(key, value)].
Proof.
  induction kv as [|[k v] kv IH]; simpl; [done|].
  rewrite not_elem_of_cons. intros [Hne Hin].
  destruct (String.eqb_spec k key); [congruence|]. by rewrite IH.
Qed.

Lemma kv_set_fold e kv :
  NoDup (map fst (kv ++ e)) →
  fold_left (λ kv (p : string * string), kv_set p.1 p.2 kv) e kv = kv ++ e.
Proof.
  revert kv. induction e as [|[k v] e IH]; intros kv Hnd; simpl.
  - by rewrite app_nil_r.
  - rewrite kv_set_fresh.
    + rewrite IH; rewrite <- app_assoc; done.
    + rewrite map_app in Hnd. apply NoDup_app in Hnd as (_ & Hd & _).
      intros Hin. apply (Hd _ Hin). simpl. apply list_elem_of_here.
Qed.


(** ** XML: reading back what was written *)

(** a reader on the first token of [l] *)
Definition reader_at (l : list XmlToken) : QXmlStreamReader :=
  match l with
  | t :: ts => mkReader t ts
  | [] => mkReader (Invalid "Premature end of document.") []
  end.

(** the locals of [readXML] inside the root element *)
Definition reading (t : Item) (used : gset string) (parents : list string)
  (addedInfo : list ItemPath) : ReadState :=
  mkReadState (mkHierarchy t used) parents addedInfo true false.

(** an item as it is read back: [Item(name)] leaves the [id] empty *)
Fixpoint xml_norm (t : Item) : Item :=
  match t with
  | mkItem n _ e cs => mkItem n "" e (map xml_norm cs)
  end.

(** no key occurs twice in the annotations of an item *)
Inductive kv_ok : Item → Prop :=
| kv_ok_intro n i e cs :
    NoDup (map fst e) → Forall kv_ok cs → kv_ok (mkItem n i e cs).

Lemma names_xml_norm t : names (xml_norm t) = names t.
Proof.
  induction t as [n i e cs IH] using Item_ind'. simpl. f_equal.
  induction cs as [|c cs IHcs]; [done|].
  apply Forall_cons in IH as [Hc Hcs]. simpl. by rewrite Hc, IHcs.
Qed.

Lemma readXML_loop_step k xml st xml' st' :
  atEnd xml = false → readXML_body xml st = Continue xml' st' →
  readXML_loop (S k) xml st = readXML_loop k xml' st'.
Proof. intros H1 H2. simpl. by rewrite H1, H2. Qed.

Lemma addItem_Some x parent root used root' p :
  name x ∉ used → parent ∈ used → add root x parent = Some (root', p) →
  addItem x parent (mkHierarchy root used) =
  (Some p, mkHierarchy root' ({[ name x ]} ∪ used)).
Proof.
  intros H1 H2 H3. unfold addItem. simpl.
  rewrite bool_decide_false by done.
  rewrite bool_decide_false by (by intros ?). by rewrite H3.
Qed.

Lemma body_start_item n ts t used back ps ai p h' :
  addItem (ItemNamed n) back (mkHierarchy t used) = (Some p, h') →
  readXML_body (mkReader (StartElement "Item" [("Name", n)]) ts)
               (reading t used (back :: ps) ai) =
  Continue (reader_at ts)
           (mkReadState h' (n :: back :: ps) (p :: ai) true false).
Proof. intros H. unfold readXML_body. simpl. by rewrite H. Qed.

Lemma body_end_item ts t used back ps p ai :
  readXML_body (mkReader (EndElement "Item") ts)
               (reading t used (back :: ps) (p :: ai)) =
  Continue (reader_at ts) (reading t used ps ai).
Proof. done. Qed.

Lemma body_info ts t used ps p ai kv rest :
  kv_readXML (mkReader (StartElement "Info" []) ts) =
    (Returns, kv, mkReader (EndElement "Info") rest) →
  readXML_body (mkReader (StartElement "Info" []) ts)
               (reading t used ps (p :: ai)) =
  Continue (reader_at rest)
           (reading (update_extraInfo p (λ _, kv) t) used ps (p :: ai)).
Proof. intros H. unfold readXML_body. simpl. by rewrite H. Qed.

Lemma kv_readXML_loop_items e kv rest :
  match flat_map info_item_tokens e ++ EndElement "Info" :: rest with
  | t :: ts => kv_readXML_loop ts t kv
  | [] => (NoFuel, kv, reader_at [])
  end =
  (Returns, fold_left (λ kv (p : string * string), kv_set p.1 p.2 kv) e kv,
   mkReader (EndElement "Info") rest).
Proof.
  revert kv. induction e as [|[k v] e IH]; intros kv.
  - simpl. by destruct rest.
  - specialize (IH (kv_set k v kv)).
    cbn [flat_map info_item_tokens app fst snd fold_left].
    destruct (flat_map info_item_tokens e ++ EndElement "Info" :: rest)
      as [|t ts] eqn:E.
    { by destruct (flat_map info_item_tokens e). }
    simpl. simpl in IH. by rewrite IH.
Qed.

Lemma kv_readXML_info e rest :
  NoDup (map fst e) →
  kv_readXML (mkReader (StartElement "Info" [])
                (flat_map info_item_tokens e ++ EndElement "Info" :: rest)) =
  (Returns, e, mkReader (EndElement "Info") rest).
Proof.
  intros Hnd. unfold kv_readXML, readNext. cbn [current pending].
  pose proof (kv_readXML_loop_items e kv_clear rest) as H.
  destruct (flat_map info_item_tokens e ++ EndElement "Info" :: rest)
    as [|t ts] eqn:E.
  { by destruct (flat_map info_item_tokens e). }
  cbn [current pending]. rewrite H. unfold kv_clear.
  by rewrite (kv_set_fold e []).
Qed.


(** what reading the elements of an item, met under the open item
    [parent], does to the hierarchy *)
Definition item_reads (c : Item) : Prop :=
  ∀ t used parent ps ai rest,
    NoDup (names t ++ names c) → "" ∈ names t →
    (∀ n, n ∈ used ↔ n ∈ names t) → parent ∈ names t → kv_ok c →
    ∃ steps t',
      addT t (xml_norm c) parent = Some t' ∧
      (steps ≤ length (item_tokens c))%nat ∧
      ∀ k, readXML_loop (steps + k) (reader_at (item_tokens c ++ rest))
                        (reading t used (parent :: ps) ai) =
           readXML_loop k (reader_at rest)
                        (reading t' (list_to_set (names c) ∪ used)
                                 (parent :: ps) ai).

Definition forest_reads (cs : list Item) : Prop :=
  ∀ t used parent ps ai rest,
    NoDup (names t ++ flat_map names cs) → "" ∈ names t →
    (∀ n, n ∈ used ↔ n ∈ names t) → parent ∈ names t → Forall kv_ok cs →
    ∃ steps t',
      grafted parent t (map xml_norm cs) t' ∧
      (steps ≤ length (flat_map item_tokens cs))%nat ∧
      ∀ k, readXML_loop (steps + k)
                        (reader_at (flat_map item_tokens cs ++ rest))
                        (reading t used (parent :: ps) ai) =
           readXML_loop k (reader_at rest)
                        (reading t' (list_to_set (flat_map names cs) ∪ used)
                                 (parent :: ps) ai).

Lemma grafted_names parent t cs t' :
  grafted parent t cs t' → names t' ≡ₚ names t ++ flat_map names cs.
Proof.
  induction 1 as [t|t c t1 cs t' Hadd Hg IH]; simpl.
  - by rewrite app_nil_r.
  - rewrite IH, (addT_names _ _ _ _ Hadd). by rewrite <- app_assoc.
Qed.

Lemma forest_of_items cs : Forall item_reads cs → forest_reads cs.
Proof.
  induction cs as [|c cs IH]; intros Hall t used parent ps ai rest
    Hnd Hroot Hused Hparent Hkv.
  - exists 0%nat, t. split; [constructor|]. split; [done|]. intros k. simpl.
    by rewrite (left_id_L ∅ (∪)).
  - apply Forall_cons in Hall as [Hc Hcs]. apply Forall_cons in Hkv as [Hkc Hkcs].
    simpl in Hnd.
    destruct (Hc t used parent ps ai (flat_map item_tokens cs ++ rest))
      as (s1 & t1 & Hadd & Hlen1 & Hrun1); try done.
    { rewrite app_assoc in Hnd. by apply NoDup_app in Hnd as (? & _ & _). }
    pose proof (addT_names _ _ _ _ Hadd) as Hn1. rewrite names_xml_norm in Hn1.
    destruct (IH Hcs t1 (list_to_set (names c) ∪ used) parent ps ai rest)
      as (s2 & t' & Hg & Hlen2 & Hrun2); try done.
    { by rewrite Hn1, <- app_assoc. }
    { rewrite Hn1, elem_of_app. by left. }
    { intros n. rewrite Hn1, elem_of_union, elem_of_list_to_set, elem_of_app, Hused.
      naive_solver. }
    { rewrite Hn1, elem_of_app. by left. }
    exists (s1 + s2)%nat, t'. split; [by econstructor|]. split.
    { simpl. rewrite length_app. lia. }
    intros k. simpl. rewrite <- app_assoc, <- Nat.add_assoc, Hrun1, Hrun2.
    assert (EU : list_to_set (flat_map names cs) ∪ (list_to_set (names c) ∪ used)
                 = (list_to_set (names c ++ flat_map names cs) ∪ used : gset string))
      by (rewrite list_to_set_app_L; set_solver).
    by rewrite EU.
Qed.

Lemma item_reads_all c : item_reads c.
Proof.
  induction c as [n i e cs IH] using Item_ind'.
  apply forest_of_items in IH.
  intros t used parent ps ai rest Hnd Hroot Hused Hparent Hkv.
  inversion Hkv as [? ? ? ? Hke Hkcs]; subst.
  simpl in Hnd.
  assert (Hn : n ∉ names t).
  { apply NoDup_app in Hnd as (_ & Hd & _). intros Hin.
    apply (Hd _ Hin), list_elem_of_here. }
  assert (Hne : String.eqb n "" = false).
  { apply String.eqb_neq. by intros ->. }
  destruct (addT_is_Some t (ItemNamed n) parent Hparent) as [t1 Hadd1].
  unfold addT in Hadd1.
  destruct (add t (ItemNamed n) parent) as [[t1' p]|] eqn:Eadd; [|done].
  simpl in Hadd1. injection Hadd1 as ->.
  pose proof (add_update_extraInfo (λ _, e) _ _ _ _ _ Eadd) as Eadd2.
  change (with_extraInfo (λ _, e) (ItemNamed n)) with (mkItem n "" e []) in Eadd2.
  set (t2 := update_extraInfo p (λ _, e) t1) in *.
  assert (Hadd2 : addT t (mkItem n "" e []) parent = Some t2)
    by (unfold addT; by rewrite Eadd2).
  pose proof (addT_names _ _ _ _ Hadd2) as Hn2. simpl in Hn2.
  destruct (IH t2 ({[ n ]} ∪ used) n (parent :: ps) (p :: ai)
              (EndElement "Item" :: rest))
    as (s & t' & Hg & Hlen & Hrun); try done.
  { by rewrite Hn2, <- app_assoc. }
  { rewrite Hn2, elem_of_app. by left. }
  { intros m. rewrite Hn2, elem_of_union, elem_of_singleton, elem_of_app,
      list_elem_of_singleton, Hused. naive_solver. }
  { rewrite Hn2, elem_of_app. right. apply list_elem_of_here. }
  pose proof (grafted_children t (mkItem n "" e []) parent t2 _ t' Hn Hadd2 Hg)
    as Hfinal.
  simpl in Hfinal.
  exists (S ((if is_empty e then 0 else 1) + (s + 1)))%nat, t'.
  split; [done|]. split.
  { simpl. rewrite Hne. simpl. rewrite !length_app. simpl.
    unfold info_tokens. destruct e; simpl; [lia|]. rewrite length_app. lia. }
  intros k. cbn [item_tokens]. rewrite Hne.
  cbn [app reader_at Nat.add].
  assert (Hstart : addItem (ItemNamed n) parent (mkHierarchy t used) =
                   (Some p, mkHierarchy t1 ({[ n ]} ∪ used))).
  { apply addItem_Some; [simpl; by rewrite Hused|by apply Hused|exact Eadd]. }
  erewrite readXML_loop_step;
    [|reflexivity|exact (body_start_item _ _ _ _ _ _ _ _ _ Hstart)].
  assert (Hinfo : ∀ k' rest',
    readXML_loop ((if is_empty e then 0 else 1) + k')%nat
      (reader_at (info_tokens e ++ rest'))
      (mkReadState (mkHierarchy t1 ({[ n ]} ∪ used)) (n :: parent :: ps)
                   (p :: ai) true false) =
    readXML_loop k' (reader_at rest')
      (reading t2 ({[ n ]} ∪ used) (n :: parent :: ps) (p :: ai))).
  { intros k' rest'. unfold info_tokens. destruct e as [|kv e'].
    - assert (Ht : t1 = t2).
      { unfold addT in Hadd2.
        change (mkItem n "" [] []) with (ItemNamed n) in Hadd2.
        rewrite Eadd in Hadd2. by injection Hadd2. }
      simpl. by rewrite Ht.
    - cbn [is_empty app reader_at Nat.add]. rewrite <- app_assoc.
      erewrite readXML_loop_step; [done|reflexivity|].
      apply body_info. cbn [app]. by apply kv_readXML_info. }
  rewrite <- !app_assoc, <- !Nat.add_assoc, Hinfo, Hrun.
  cbn [Nat.add app reader_at].
  erewrite readXML_loop_step; [|reflexivity|apply body_end_item].
  assert (EU : list_to_set (flat_map names cs) ∪ ({[ n ]} ∪ used)
               = (list_to_set (n :: flat_map names cs) ∪ used : gset string))
    by (simpl; set_solver).
  by rewrite EU.
Qed.


(** ** Isomorphic trees *)

(** the same names, the same children in the same order, and annotations
    related by [R] *)
Inductive Item_iso (R : relation OrderedKVStore) : Item → Item → Prop :=
| Item_iso_intro a b :
    name a = name b → R (extraInfo a) (extraInfo b) →
    Forall2 (Item_iso R) (children a) (children b) → Item_iso R a b.

(** the invariant of the data model: the root is the implicit one, the
    names are unique in the tree and are the used names, and no item has
    two annotations of the same key *)
Definition well_formed (h : CaretHierarchy) : Prop :=
  names_ok h ∧ kv_ok (m_root h).

Lemma Item_iso_xml_norm c : Item_iso eq c (xml_norm c).
Proof.
  induction c as [n i e cs IH] using Item_ind'. constructor; [done..|].
  simpl. induction cs as [|c cs IHcs]; [constructor|].
  apply Forall_cons in IH as [Hc Hcs]. constructor; [done|by apply IHcs].
Qed.

Lemma readXML_written_forest cs h0 :
  NoDup ("" :: flat_map names cs) → Forall kv_ok cs →
  readXML
    (QXmlStreamReaderNew
       (StartDocument :: StartElement "CaretHierarchy" [("Version", "1")] ::
        flat_map item_tokens cs ++ [EndElement "CaretHierarchy"; EndDocument]))
    h0 =
  (Returns,
   mkHierarchy (mkItem "" "" [] (map xml_norm cs))
               (list_to_set (flat_map names cs) ∪ {[ "" ]})).
Proof.
  intros Hnd Hkv.
  destruct (forest_of_items cs
              (proj2 (Forall_forall _ _) (λ c _, item_reads_all c))
              ItemNew {[ "" ]} "" [] []
              [EndElement "CaretHierarchy"; EndDocument])
    as (s & t' & Hg & Hlen & Hrun); try done.
  { apply list_elem_of_here. }
  { intros n. simpl. by rewrite elem_of_singleton, list_elem_of_singleton. }
  { apply list_elem_of_here. }
  apply (grafted_root []) in Hg. simpl in Hg. subst t'.
  unfold readXML, QXmlStreamReaderNew. cbn [pending length].
  rewrite length_app. cbn [length].
  replace (S (S (S (length (flat_map item_tokens cs) + 2))))
    with (3 + (s + (1 + (length (flat_map item_tokens cs) - s + 1))))%nat by lia.
  cbn [Nat.add].
  erewrite readXML_loop_step; [|reflexivity|reflexivity].
  erewrite readXML_loop_step; [|reflexivity|reflexivity].
  erewrite readXML_loop_step; [|reflexivity|reflexivity].
  change (readNext _) with
    (reader_at (flat_map item_tokens cs ++
                [EndElement "CaretHierarchy"; EndDocument])).
  change (mkReadState _ _ _ _ _) with (reading ItemNew {[ "" ]} [""] []).
  rewrite Hrun. cbn [reader_at].
  erewrite readXML_loop_step; [|reflexivity|reflexivity].
  by destruct (length (flat_map item_tokens cs) - s + 1)%nat.
Qed.

(** C7 (amended): for every hierarchy the class can hold in which no two
    items share a name (the implicit root, named by the empty string,
    counted among them) and no item has two annotations of the same key,
    reading the XML written for it succeeds and gives a tree with the same
    items under the root: the same names, the same children in the same
    order and the same annotations, in the same order; the used names of
    the hierarchy read are the names of the items. *)
Theorem xml_round_trip h h0 :
  reachable h → NoDup (names (m_root h)) → kv_ok (m_root h) →
  ∃ h', readXMLText (writeXMLToString h) h0 = (Returns, h') ∧
        name (m_root h') = "" ∧
        Forall2 (Item_iso eq) (children (m_root h)) (children (m_root h')) ∧
        ∀ n, n ∈ m_usedNames h' ↔ n ∈ names (m_root h).
Proof.
  intros (Hname & _)%reachable_used_in_tree Hnd Hkv.
  destruct h as [[n i e cs] used]. simpl in *. subst n.
  inversion Hkv as [? ? ? ? _ Hkcs]; subst.
  unfold readXMLText. rewrite writeXMLToString_tokens. simpl.
  rewrite (readXML_written_forest cs h0 Hnd Hkcs).
  eexists. split; [done|]. simpl. split; [done|]. split.
  - clear. induction cs as [|c cs IH]; constructor; [apply Item_iso_xml_norm|done].
  - intros m. set_solver.
Qed.

Definition hierarchy_with_info : CaretHierarchy :=
  (addItem (mkItem "c" "" [("colour", "red"); ("k", "v")] []) ""
     hierarchy_ab).2.

Lemma hierarchy_with_info_well_formed : well_formed hierarchy_with_info.
Proof.
  split; [split; [done|split]|].
  - assert (E : names (m_root hierarchy_with_info) = [""; "a"; "b"; "c"])
      by by vm_compute.
    rewrite E. by apply (bool_decide_unpack _).
  - assert (E : names (m_root hierarchy_with_info) = [""; "a"; "b"; "c"])
      by by vm_compute.
    assert (E' : m_usedNames hierarchy_with_info =
                 {[ "c" ]} ∪ ({[ "b" ]} ∪ ({[ "a" ]} ∪ {[ "" ]}))) by done.
    intros n. rewrite E, E'. set_solver.
  - assert (E : m_root hierarchy_with_info =
                mkItem "" "" []
                  [mkItem "a" "" [] [mkItem "b" "" [] []];
                   mkItem "c" "" [("colour", "red"); ("k", "v")] []])
      by by vm_compute.
    rewrite E. repeat constructor; simpl; set_solver.
Defined.

Lemma hierarchy_with_info_reachable : reachable hierarchy_with_info.
Proof. apply reach_addItem, hierarchy_ab_reachable. Defined.

Lemma xml_round_trip_witness :
  reachable hierarchy_with_info ∧
  NoDup (names (m_root hierarchy_with_info)) ∧
  kv_ok (m_root hierarchy_with_info) ∧
  ∃ h', readXMLText (writeXMLToString hierarchy_with_info) CaretHierarchyNew
          = (Returns, h') ∧
        name (m_root h') = "" ∧
        Forall2 (Item_iso eq) (children (m_root hierarchy_with_info))
                (children (m_root h')) ∧
        ∀ n, n ∈ m_usedNames h' ↔ n ∈ names (m_root hierarchy_with_info).
Proof.
  split; [apply hierarchy_with_info_reachable|].
  split; [apply hierarchy_with_info_well_formed|].
  split; [apply hierarchy_with_info_well_formed|].
  apply (xml_round_trip hierarchy_with_info CaretHierarchyNew
           hierarchy_with_info_reachable
           (proj1 (proj2 (proj1 hierarchy_with_info_well_formed)))
           (proj2 hierarchy_with_info_well_formed)).
Defined.

(** the hierarchy after one call of [addItem] with an item that brings two
    children of the same name *)
Definition hierarchy_shared_name : CaretHierarchy :=
  (addItem (mkItem "a" "" [] [ItemNamed "b"; ItemNamed "b"]) ""
     CaretHierarchyNew).2.

Lemma hierarchy_shared_name_reachable : reachable hierarchy_shared_name.
Proof. apply reach_addItem, reach_new. Defined.

(** the hierarchy after one call of [addItem] with an item that brings a
    child named by the empty string *)
Definition hierarchy_empty_name : CaretHierarchy :=
  (addItem (mkItem "a" "" [] [mkItem "" "" [] [ItemNamed "b"]]) ""
     CaretHierarchyNew).2.

Lemma hierarchy_empty_name_reachable : reachable hierarchy_empty_name.
Proof. apply reach_addItem, reach_new. Defined.

(** C7, as stated, fails.  The hierarchy [hierarchy_shared_name], which
    the class can hold, has two items named "b": the XML written for it
    has two [Item] elements of that name and reading it throws at the
    second.  In [hierarchy_empty_name] the item "b" is the child of an
    item with the empty name, which is not written: "b" is read back as
    the child of "a". *)
Lemma xml_round_trip_shared_name :
  (reachable hierarchy_shared_name ∧
   kv_ok (m_root hierarchy_shared_name) ∧
   (readXMLText (writeXMLToString hierarchy_shared_name) CaretHierarchyNew).1
   = Throws "Hierarchy XML error: failed to add item 'b' to hierarchy, check for a duplicate, empty, or missing Name attribute" ∧
   ¬ ∃ h', readXMLText (writeXMLToString hierarchy_shared_name)
             CaretHierarchyNew = (Returns, h') ∧
           Forall2 (Item_iso eq) (children (m_root hierarchy_shared_name))
                   (children (m_root h'))) ∧
  (reachable hierarchy_empty_name ∧
   kv_ok (m_root hierarchy_empty_name) ∧
   children (m_root (readXMLText (writeXMLToString hierarchy_empty_name)
                       CaretHierarchyNew).2)
   = [mkItem "a" "" [] [ItemNamed "b"]] ∧
   ¬ ∃ h', readXMLText (writeXMLToString hierarchy_empty_name)
             CaretHierarchyNew = (Returns, h') ∧
           Forall2 (Item_iso eq) (children (m_root hierarchy_empty_name))
                   (children (m_root h'))).
Proof.
  split.
  - assert (E : (readXMLText (writeXMLToString hierarchy_shared_name)
                   CaretHierarchyNew).1
                = Throws "Hierarchy XML error: failed to add item 'b' to hierarchy, check for a duplicate, empty, or missing Name attribute")
      by by vm_compute.
    split; [apply hierarchy_shared_name_reachable|]. split; [|split; [done|]].
    + assert (Er : m_root hierarchy_shared_name =
                   mkItem "" "" [] [mkItem "a" "" [] [ItemNamed "b"; ItemNamed "b"]])
        by by vm_compute.
      rewrite Er. repeat constructor.
    + intros (h' & Hr & _). by rewrite Hr in E.
  - assert (E : children (m_root (readXMLText
                   (writeXMLToString hierarchy_empty_name) CaretHierarchyNew).2)
                = [mkItem "a" "" [] [ItemNamed "b"]]) by by vm_compute.
    split; [apply hierarchy_empty_name_reachable|]. split; [|split; [done|]].
    + assert (Er : m_root hierarchy_empty_name =
                   mkItem "" "" [] [mkItem "a" "" [] [mkItem "" "" [] [ItemNamed "b"]]])
        by by vm_compute.
      rewrite Er. repeat constructor.
    + intros (h' & Hr & Hiso). rewrite Hr in E. simpl in E. rewrite E in Hiso.
      assert (Er : children (m_root hierarchy_empty_name) =
                   [mkItem "a" "" [] [mkItem "" "" [] [ItemNamed "b"]]])
        by by vm_compute.
      rewrite Er in Hiso. apply Forall2_cons in Hiso as [Hc _].
      inversion Hc as [? ? _ _ Hcs]; subst. simpl in Hcs.
      apply Forall2_cons in Hcs as [Hb _]. by inversion Hb.
Qed.


(** ** JSON: objects *)

Lemma obj_value_insert key value o k :
  obj_value (obj_insert key value o) k =
  if String.eqb key k then value else obj_value o k.
Proof.
  induction o as [|[k0 v0] o IH]; simpl; [done|].
  destruct (AString_ltb key k0) eqn:E1; simpl; [done|].
  destruct (AString_ltb k0 key) eqn:E2; simpl.
  - rewrite IH. destruct (String.eqb_spec k0 k) as [->|]; [|done].
    destruct (String.eqb_spec key k) as [->|]; [|done].
    by rewrite AString_ltb_irrefl in E2.
  - assert (key = k0) as -> by by apply AString_ltb_total.
    by destruct (String.eqb k0 k).
Qed.

Lemma obj_contains_insert key value o k :
  obj_contains (obj_insert key value o) k =
  String.eqb key k || obj_contains o k.
Proof.
  unfold obj_contains. induction o as [|[k0 v0] o IH]; simpl; [done|].
  destruct (AString_ltb key k0) eqn:E1; simpl; [done|].
  destruct (AString_ltb k0 key) eqn:E2; simpl.
  - rewrite IH. by destruct (String.eqb k0 k), (String.eqb key k).
  - assert (key = k0) as -> by by apply AString_ltb_total.
    by destruct (String.eqb k0 k).
Qed.

Lemma obj_insert_Permutation key value o :
  key ∉ map fst o → obj_insert key value o ≡ₚ (key, value) :: o.
Proof.
  induction o as [|[k0 v0] o IH]; simpl; [done|].
  rewrite not_elem_of_cons. intros [Hne Hin].
  destruct (AString_ltb key k0) eqn:E1; [done|].
  destruct (AString_ltb k0 key) eqn:E2.
  - rewrite IH by done. apply perm_swap.
  - exfalso. apply Hne. by apply AString_ltb_total.
Qed.

Lemma obj_value_NoDup o k v :
  NoDup (map fst o) → (k, v) ∈ o → obj_value o k = v.
Proof.
  induction o as [|[k0 v0] o IH]; simpl; [by intros _ ?%elem_of_nil|].
  intros [Hk0 Hnd]%NoDup_cons [[= -> ->]|Hin]%elem_of_cons.
  - by rewrite String.eqb_refl.
  - destruct (String.eqb_spec k0 k) as [->|]; [|by apply IH].
    exfalso. apply Hk0. apply list_elem_of_fmap. by exists (k, v).
Qed.

(** what the loop over the keys keeps of one member *)
Definition member_info (m : string * QJsonValue) : list (string * string) :=
  if String.eqb m.1 "name" then []
  else if String.eqb m.1 "children" then []
  else
    match m.2 with
    | JBool b => [(m.1, if b then "True" else "False")]
    | JDouble g16 => [(m.1, g16)]
    | JString s => [(m.1, s)]
    | _ => []
    end.

Lemma map_fst_member_info o :
  ∀ k, k ∈ map fst (flat_map member_info o) → k ∈ map fst o.
Proof.
  induction o as [|[k0 v0] o IH]; intros k; simpl; [done|].
  rewrite map_app, elem_of_app, elem_of_cons. intros [Hk|Hk]; [|right; by apply IH].
  left. unfold member_info in Hk. simpl in Hk.
  destruct (String.eqb k0 "name"); [by apply elem_of_nil in Hk|].
  destruct (String.eqb k0 "children"); [by apply elem_of_nil in Hk|].
  destruct v0; simpl in Hk; try (by apply elem_of_nil in Hk);
    by apply list_elem_of_singleton in Hk.
Qed.

Lemma handleJsonMembers_flat_map thisobj :
  NoDup (map fst thisobj) →
  fold_left (handleJsonMember thisobj) (obj_keys thisobj) kv_clear =
  flat_map member_info thisobj.
Proof.
  intros Hnd.
  assert (H : ∀ done todo kv,
    thisobj = done ++ todo → kv = flat_map member_info done →
    fold_left (handleJsonMember thisobj) (obj_keys todo) kv =
    flat_map member_info thisobj).
  { intros done todo. revert done.
    induction todo as [|[k v] todo IH]; intros done kv Ho Hkv.
    - rewrite app_nil_r in Ho. by subst.
    - simpl. apply (IH (done ++ [(k, v)])).
      + by rewrite <- app_assoc.
      + rewrite flat_map_app. simpl. rewrite app_nil_r.
        unfold handleJsonMember, member_info at 2. simpl.
        destruct (String.eqb k "name"); [by rewrite app_nil_r|].
        rewrite (obj_value_NoDup thisobj k v Hnd)
          by (rewrite Ho, elem_of_app; right; apply list_elem_of_here).
        assert (Hfresh : k ∉ map fst kv).
        { rewrite Hkv. intros Hin%map_fst_member_info.
          rewrite Ho, map_app in Hnd. apply NoDup_app in Hnd as (_ & Hd & _).
          apply (Hd _ Hin). simpl. apply list_elem_of_here. }
        destruct v; simpl; destruct (String.eqb k "children");
          rewrite ?app_nil_r; try done; rewrite kv_set_fresh by done; by subst. }
  by apply (H [] thisobj).
Qed.

Lemma member_info_Permutation o o' :
  o ≡ₚ o' → flat_map member_info o ≡ₚ flat_map member_info o'.
Proof.
  induction 1 as [|m o o' _ IH|m1 m2 o|o o' o'' _ IH1 _ IH2]; simpl.
  - done.
  - by rewrite IH.
  - rewrite !app_assoc. f_equiv. apply Permutation_app_comm.
  - by etrans.
Qed.


(** ** JSON: what is written *)

(** the object [writeJsonHelper] makes for one child *)
Definition written_object (child : Item) : QJsonObject :=
  let childObj := obj_insert "name" (JString (name child)) [] in
  let childObj :=
    fold_left (λ o (item : string * string),
                 obj_insert item.1 (JString item.2) o)
              (getAllData (extraInfo child)) childObj in
  if (0 <? length (children child))%nat then
    obj_insert "children" (JArray (writeJsonHelper child)) childObj
  else childObj.

Lemma writeJsonHelper_eq t :
  writeJsonHelper t = map (λ c, JObject (written_object c)) (children t).
Proof. by destruct t. Qed.

(** no annotation has one of the keys the JSON reader reserves *)
Inductive reserved_free : Item → Prop :=
| reserved_free_intro n i e cs :
    "name" ∉ map fst e → "children" ∉ map fst e →
    Forall reserved_free cs → reserved_free (mkItem n i e cs).

Definition annotated (e : OrderedKVStore) (o : QJsonObject) : QJsonObject :=
  fold_left (λ o (item : string * string),
               obj_insert item.1 (JString item.2) o) e o.

Definition as_members (e : OrderedKVStore) : QJsonObject :=
  map (λ kv : string * string, (kv.1, JString kv.2)) e.

Lemma obj_insert_keys key value o k :
  k ∈ map fst (obj_insert key value o) ↔ k = key ∨ k ∈ map fst o.
Proof.
  induction o as [|[k0 v0] o IH]; simpl.
  - rewrite list_elem_of_singleton. set_solver.
  - destruct (AString_ltb key k0) eqn:E1; simpl; [set_solver|].
    destruct (AString_ltb k0 key) eqn:E2; simpl.
    + rewrite !elem_of_cons, IH. naive_solver.
    + assert (key = k0) as -> by by apply AString_ltb_total. set_solver.
Qed.

Lemma annotated_Permutation e o :
  NoDup (map fst e ++ map fst o) → annotated e o ≡ₚ as_members e ++ o.
Proof.
  revert o. induction e as [|[k v] e IH]; intros o Hnd; simpl; [done|].
  simpl in Hnd. apply NoDup_cons in Hnd as [Hk Hnd].
  rewrite not_elem_of_app in Hk. destruct Hk as [Hke Hko].
  unfold annotated in *. rewrite IH.
  - rewrite obj_insert_Permutation by done. by rewrite <- Permutation_middle.
  - apply NoDup_app in Hnd as (Hnde & Hd & Hndo).
    apply NoDup_app. split; [done|]. split.
    + intros x Hx [->|Hxo]%obj_insert_keys; [done|]. by apply (Hd x).
    + rewrite (Permutation_map fst
                 (obj_insert_Permutation k (JString v) o Hko)).
      simpl. by apply NoDup_cons.
Qed.

Lemma obj_value_annotated e o k :
  k ∉ map fst e → obj_value (annotated e o) k = obj_value o k.
Proof.
  revert o. induction e as [|[k0 v0] e IH]; intros o; simpl; [done|].
  rewrite not_elem_of_cons. intros [Hne Hin]. unfold annotated in *.
  rewrite IH by done. rewrite obj_value_insert.
  destruct (String.eqb_spec k0 k); [congruence|done].
Qed.

Lemma obj_contains_annotated e o k :
  k ∉ map fst e → obj_contains (annotated e o) k = obj_contains o k.
Proof.
  revert o. induction e as [|[k0 v0] e IH]; intros o; simpl; [done|].
  rewrite not_elem_of_cons. intros [Hne Hin]. unfold annotated in *.
  rewrite IH by done. rewrite obj_contains_insert.
  destruct (String.eqb_spec k0 k); [congruence|done].
Qed.

Lemma written_object_name c :
  "name" ∉ map fst (extraInfo c) →
  obj_value (written_object c) "name" = JString (name c).
Proof.
  intros H. unfold written_object, getAllData. fold (annotated (extraInfo c)).
  destruct (0 <? length (children c))%nat.
  - rewrite obj_value_insert. simpl. by rewrite obj_value_annotated.
  - by rewrite obj_value_annotated.
Qed.

Lemma written_object_children c :
  "children" ∉ map fst (extraInfo c) →
  obj_contains (written_object c) "children" = negb (is_empty (children c)) ∧
  (children c ≠ [] →
   obj_value (written_object c) "children" = JArray (writeJsonHelper c)).
Proof.
  intros H. unfold written_object, getAllData. fold (annotated (extraInfo c)).
  destruct (children c) as [|c0 cs] eqn:E; simpl.
  - split; [|done]. by rewrite obj_contains_annotated.
  - split; [by rewrite obj_contains_insert|].
    intros _. by rewrite obj_value_insert.
Qed.

Lemma member_info_as_members e :
  "name" ∉ map fst e → "children" ∉ map fst e →
  flat_map member_info (as_members e) = e.
Proof.
  induction e as [|[k v] e IH]; simpl; [done|].
  rewrite !not_elem_of_cons. intros [H1 H1'] [H2 H2'].
  unfold member_info at 1. simpl.
  destruct (String.eqb_spec k "name"); [congruence|].
  destruct (String.eqb_spec k "children"); [congruence|].
  simpl. by rewrite IH.
Qed.

Lemma written_object_Permutation c :
  NoDup (map fst (extraInfo c)) →
  "name" ∉ map fst (extraInfo c) → "children" ∉ map fst (extraInfo c) →
  NoDup (map fst (written_object c)) ∧
  flat_map member_info (written_object c) ≡ₚ extraInfo c.
Proof.
  intros Hnd Hn Hc.
  assert (Hp : annotated (extraInfo c) (obj_insert "name" (JString (name c)) [])
               ≡ₚ as_members (extraInfo c) ++ [("name", JString (name c))]).
  { apply annotated_Permutation. simpl. apply NoDup_app.
    split; [done|]. split; [|apply NoDup_singleton].
    by intros x Hx ->%list_elem_of_singleton. }
  assert (Hkeys : map fst (as_members (extraInfo c)) = map fst (extraInfo c)).
  { unfold as_members. rewrite map_map. done. }
  assert (Hnd1 : NoDup (map fst (annotated (extraInfo c)
                    (obj_insert "name" (JString (name c)) [])))).
  { rewrite (Permutation_map fst Hp), map_app.
    rewrite Hkeys. simpl. apply NoDup_app.
    split; [done|]. split; [|apply NoDup_singleton].
    by intros x Hx ->%list_elem_of_singleton. }
  assert (Hm1 : flat_map member_info (annotated (extraInfo c)
                    (obj_insert "name" (JString (name c)) [])) ≡ₚ extraInfo c).
  { rewrite (member_info_Permutation _ _ Hp), flat_map_app.
    rewrite member_info_as_members by done. simpl. by rewrite app_nil_r. }
  unfold written_object, getAllData. fold (annotated (extraInfo c)).
  destruct (0 <? length (children c))%nat; [|done].
  assert (Hfresh : "children" ∉ map fst (annotated (extraInfo c)
                      (obj_insert "name" (JString (name c)) []))).
  { intros Hin. rewrite (Permutation_map fst Hp), map_app, elem_of_app in Hin.
    rewrite Hkeys in Hin. destruct Hin as [Hin|Hin]; [done|].
    by apply list_elem_of_singleton in Hin. }
  pose proof (obj_insert_Permutation "children"
                (JArray (writeJsonHelper c)) _ Hfresh) as Hp2.
  split.
  - rewrite (Permutation_map fst Hp2). simpl.
    by apply NoDup_cons.
  - rewrite (member_info_Permutation _ _ Hp2). simpl. done.
Qed.


(** ** JSON: reading back what was written *)

(** the annotations read back from the object written for an item *)
Definition json_kv (c : Item) : OrderedKVStore :=
  fold_left (handleJsonMember (written_object c))
            (obj_keys (written_object c)) kv_clear.

(** an item as the JSON reader builds it from what was written *)
Fixpoint json_norm (t : Item) : Item :=
  match t with
  | mkItem n i e cs => mkItem n "" (json_kv (mkItem n i e cs)) (map json_norm cs)
  end.

Lemma names_json_norm t : names (json_norm t) = names t.
Proof.
  induction t as [n i e cs IH] using Item_ind'. simpl. f_equal.
  induction cs as [|c cs IHcs]; [done|].
  apply Forall_cons in IH as [Hc Hcs]. simpl. by rewrite Hc, IHcs.
Qed.

Lemma list_max_elem (l : list nat) x : x ∈ l → (x ≤ list_max l)%nat.
Proof.
  intros Hin. pose proof (proj1 (list_max_le l (list_max l)) (le_n _)) as H.
  rewrite List.Forall_forall in H. by apply H, list_elem_of_In.
Qed.

Lemma json_depth_member o k v :
  (k, v) ∈ o → (S (json_depth v) ≤ json_depth (JObject o))%nat.
Proof.
  intros Hin. simpl. apply le_n_S, list_max_elem, list_elem_of_fmap.
  by exists (k, v).
Qed.

Lemma json_depth_element a v :
  v ∈ a → (S (json_depth v) ≤ json_depth (JArray a))%nat.
Proof.
  intros Hin. simpl. apply le_n_S, list_max_elem, list_elem_of_fmap.
  by exists v.
Qed.

Lemma obj_insert_elem key value o : (key, value) ∈ obj_insert key value o.
Proof.
  induction o as [|[k0 v0] o IH]; simpl; [apply list_elem_of_here|].
  destruct (AString_ltb key k0); [apply list_elem_of_here|].
  destruct (AString_ltb k0 key); [by apply list_elem_of_further|].
  apply list_elem_of_here.
Qed.

Lemma json_depth_children c ci :
  ci ∈ children c →
  (S (S (json_depth (JObject (written_object ci)))) ≤
   json_depth (JObject (written_object c)))%nat.
Proof.
  intros Hin.
  assert (Hm : ("children", JArray (writeJsonHelper c)) ∈ written_object c).
  { unfold written_object. destruct (children c) as [|c0 cs]; [by apply elem_of_nil in Hin|].
    simpl. apply obj_insert_elem. }
  apply json_depth_member in Hm.
  assert (He : JObject (written_object ci) ∈ writeJsonHelper c).
  { rewrite writeJsonHelper_eq. apply list_elem_of_fmap. by exists ci. }
  apply json_depth_element in He. lia.
Qed.

Lemma recurseJsonArrayish_cons handle h x a parent :
  recurseJsonArrayish handle h (JArray (x :: a)) parent =
  match handle h (toObject x) parent with
  | (Returns, h') => recurseJsonArrayish handle h' (JArray a) parent
  | r => r
  end.
Proof. done. Qed.

Definition json_item_reads (c : Item) : Prop :=
  ∀ fuel t used parent,
    (json_depth (JObject (written_object c)) ≤ fuel)%nat →
    NoDup (names t ++ names c) → "" ∈ names t →
    (∀ n, n ∈ used ↔ n ∈ names t) → parent ∈ names t →
    kv_ok c → reserved_free c →
    ∃ t',
      addT t (json_norm c) parent = Some t' ∧
      handleJsonChild fuel (mkHierarchy t used) (written_object c) parent =
      (Returns, mkHierarchy t' (list_to_set (names c) ∪ used)).

Definition json_forest_reads (cs : list Item) : Prop :=
  ∀ fuel t used parent,
    Forall (λ c, (json_depth (JObject (written_object c)) ≤ fuel)%nat) cs →
    NoDup (names t ++ flat_map names cs) → "" ∈ names t →
    (∀ n, n ∈ used ↔ n ∈ names t) → parent ∈ names t →
    Forall kv_ok cs → Forall reserved_free cs →
    ∃ t',
      grafted parent t (map json_norm cs) t' ∧
      recurseJsonArrayish (handleJsonChild fuel) (mkHierarchy t used)
        (JArray (map (λ c, JObject (written_object c)) cs)) parent =
      (Returns, mkHierarchy t' (list_to_set (flat_map names cs) ∪ used)).

Lemma json_forest_of_items cs : Forall json_item_reads cs → json_forest_reads cs.
Proof.
  induction cs as [|c cs IH]; intros Hall fuel t used parent
    Hfuel Hnd Hroot Hused Hparent Hkv Hres.
  - exists t. split; [constructor|]. simpl. by rewrite (left_id_L ∅ (∪)).
  - apply Forall_cons in Hall as [Hc Hcs]. apply Forall_cons in Hkv as [Hkc Hkcs].
    apply Forall_cons in Hres as [Hrc Hrcs].
    apply Forall_cons in Hfuel as [Hfc Hfcs].
    simpl in Hnd.
    destruct (Hc fuel t used parent) as (t1 & Hadd & Hrun1); try done.
    { rewrite app_assoc in Hnd. by apply NoDup_app in Hnd as (? & _ & _). }
    pose proof (addT_names _ _ _ _ Hadd) as Hn1. rewrite names_json_norm in Hn1.
    destruct (IH Hcs fuel t1 (list_to_set (names c) ∪ used) parent)
      as (t' & Hg & Hrun2); try done.
    { by rewrite Hn1, <- app_assoc. }
    { rewrite Hn1, elem_of_app. by left. }
    { intros n. rewrite Hn1, elem_of_union, elem_of_list_to_set, elem_of_app, Hused.
      naive_solver. }
    { rewrite Hn1, elem_of_app. by left. }
    exists t'. split; [by econstructor|].
    cbn [map]. rewrite recurseJsonArrayish_cons. cbn [toObject].
    rewrite Hrun1, Hrun2.
    assert (EU : list_to_set (flat_map names cs) ∪ (list_to_set (names c) ∪ used)
                 = (list_to_set (flat_map names (c :: cs)) ∪ used : gset string))
      by (simpl; rewrite list_to_set_app_L; set_solver).
    by rewrite EU.
Qed.

Lemma is_empty_nil {A} (l : list A) : is_empty l = true → l = [].
Proof. by destruct l. Qed.

Lemma json_item_reads_all c : json_item_reads c.
Proof.
  induction c as [n i e cs IH] using Item_ind'.
  apply json_forest_of_items in IH.
  intros fuel t used parent Hfuel Hnd Hroot Hused Hparent Hkv Hres.
  inversion Hkv as [? ? ? ? Hke Hkcs]; subst.
  inversion Hres as [? ? ? ? Hrn Hrc Hrcs]; subst.
  simpl in Hnd.
  assert (Hn : n ∉ names t).
  { apply NoDup_app in Hnd as (_ & Hd & _). intros Hin.
    apply (Hd _ Hin), list_elem_of_here. }
  assert (Hne : String.eqb n "" = false).
  { apply String.eqb_neq. by intros ->. }
  destruct fuel as [|fuel]; [simpl in Hfuel; lia|].
  set (x := mkItem n "" (json_kv (mkItem n i e cs)) []).
  destruct (addT_is_Some t x parent Hparent) as [t1 Hadd1].
  pose proof Hadd1 as Hadd1'. unfold addT in Hadd1'.
  destruct (add t x parent) as [[t1' p]|] eqn:Eadd; [|done].
  simpl in Hadd1'. injection Hadd1' as ->.
  assert (Hstart : addItem x parent (mkHierarchy t used) =
                   (Some p, mkHierarchy t1 ({[ n ]} ∪ used))).
  { apply addItem_Some; [simpl; by rewrite Hused|by apply Hused|exact Eadd]. }
  destruct (written_object_children (mkItem n i e cs) Hrc) as [Hcont Hval].
  pose proof (written_object_name (mkItem n i e cs) Hrn) as Hname.
  cbn [name children] in Hcont, Hval, Hname.
  cbn [handleJsonChild]. rewrite Hname. cbn [toString]. rewrite Hne.
  fold (json_kv (mkItem n i e cs)). fold x. rewrite Hstart, Hcont.
  destruct (is_empty cs) eqn:Ecs; cbn [negb].
  - apply is_empty_nil in Ecs. subst cs. exists t1. split; [done|].
    assert (EU : {[ n ]} ∪ used = (list_to_set [n] ∪ used : gset string))
      by (simpl; set_solver).
    simpl. by rewrite EU.
  - rewrite Hval by (by intros ->). rewrite writeJsonHelper_eq. cbn [children].
    pose proof (addT_names _ _ _ _ Hadd1) as Hn1. simpl in Hn1.
    destruct (IH fuel t1 ({[ n ]} ∪ used) n) as (t' & Hg & Hrun); try done.
    { apply Forall_forall. intros ci Hci.
      pose proof (json_depth_children (mkItem n i e cs) ci Hci). lia. }
    { by rewrite Hn1, <- app_assoc. }
    { rewrite Hn1, elem_of_app. by left. }
    { intros m. rewrite Hn1, elem_of_union, elem_of_singleton, elem_of_app,
        list_elem_of_singleton, Hused. naive_solver. }
    { rewrite Hn1, elem_of_app. right. apply list_elem_of_here. }
    exists t'. split.
    + apply (grafted_children t x parent t1 _ t' Hn Hadd1 Hg).
    + rewrite Hrun.
      assert (EU : list_to_set (flat_map names cs) ∪ ({[ n ]} ∪ used)
                   = (list_to_set (n :: flat_map names cs) ∪ used : gset string))
        by (simpl; set_solver).
      simpl. by rewrite EU.
Qed.

Lemma json_kv_Permutation c :
  NoDup (map fst (extraInfo c)) →
  "name" ∉ map fst (extraInfo c) → "children" ∉ map fst (extraInfo c) →
  json_kv c ≡ₚ extraInfo c.
Proof.
  intros Hnd Hn Hc.
  destruct (written_object_Permutation c Hnd Hn Hc) as [Hndo Hp].
  unfold json_kv. by rewrite handleJsonMembers_flat_map.
Qed.

Lemma Item_iso_json_norm c :
  kv_ok c → reserved_free c → Item_iso (≡ₚ) c (json_norm c).
Proof.
  induction c as [n i e cs IH] using Item_ind'. intros Hkv Hres.
  inversion Hkv as [? ? ? ? Hke Hkcs]; subst.
  inversion Hres as [? ? ? ? Hrn Hrc Hrcs]; subst.
  constructor; [done|..].
  - simpl. symmetry. by apply (json_kv_Permutation (mkItem n i e cs)).
  - simpl. clear Hkv Hres Hke Hrn Hrc.
    induction cs as [|c cs IHcs]; [constructor|].
    apply Forall_cons in IH as [Hc Hcs].
    apply Forall_cons in Hkcs as [? ?]. apply Forall_cons in Hrcs as [? ?].
    constructor; [by apply Hc|by apply IHcs].
Qed.

Lemma readJsonFile_written_forest cs i e h0 :
  NoDup ("" :: flat_map names cs) → Forall kv_ok cs → Forall reserved_free cs →
  readJsonFile (JArray (writeJsonHelper (mkItem "" i e cs))) h0 =
  (Returns,
   mkHierarchy (mkItem "" "" [] (map json_norm cs))
               (list_to_set (flat_map names cs) ∪ {[ "" ]})).
Proof.
  intros Hnd Hkv Hres. unfold readJsonFile. rewrite writeJsonHelper_eq.
  cbn [children].
  destruct (json_forest_of_items cs
              (proj2 (Forall_forall _ _) (λ c _, json_item_reads_all c))
              (S (json_depth (JArray (map (λ c, JObject (written_object c)) cs))))
              ItemNew {[ "" ]} "")
    as (t' & Hg & Hrun); try done.
  { apply Forall_forall. intros c Hc.
    assert (He : JObject (written_object c) ∈
                 map (λ c, JObject (written_object c)) cs)
      by (apply list_elem_of_fmap; by exists c).
    apply json_depth_element in He. lia. }
  { apply list_elem_of_here. }
  { intros n. simpl. by rewrite elem_of_singleton, list_elem_of_singleton. }
  { apply list_elem_of_here. }
  apply (grafted_root []) in Hg. simpl in Hg. subst t'. exact Hrun.
Qed.

(** C8 (amended): for every hierarchy the class can hold in which no two
    items share a name (the implicit root, named by the empty string,
    counted among them), no item has two annotations of the same key and
    no annotation has the key "name" or "children", reading the JSON
    written for it succeeds and gives a tree with the same items under the
    root: the same names, the same children in the same order, and on each
    item the same annotation key/value pairs (all of them strings); the
    used names of the hierarchy read are the names of the items.  And a
    document with an item that has a member [true] is read as that item
    with the string annotation "True", which is written again as a JSON
    string. *)
Theorem json_round_trip h h0 :
  reachable h → NoDup (names (m_root h)) → kv_ok (m_root h) →
  reserved_free (m_root h) →
  (∃ h', readJsonFile (writeJsonFile h) h0 = (Returns, h') ∧
         name (m_root h') = "" ∧
         Forall2 (Item_iso (≡ₚ)) (children (m_root h)) (children (m_root h')) ∧
         ∀ n, n ∈ m_usedNames h' ↔ n ∈ names (m_root h)) ∧
  (∀ key n, key ≠ "name" → key ≠ "children" → n ≠ "" →
     let myjson :=
       JArray [JObject (obj_insert key (JBool true) [("name", JString n)])] in
     (readJsonFile myjson h0).1 = Returns ∧
     children (m_root (readJsonFile myjson h0).2) =
       [mkItem n "" [(key, "True")] []] ∧
     writeJsonFile (readJsonFile myjson h0).2 =
       JArray [JObject (obj_insert key (JString "True") [("name", JString n)])]).
Proof.
  intros (Hname & _)%reachable_used_in_tree Hnd Hkv Hres. split.
  - destruct h as [[n i e cs] used]. simpl in Hname, Hnd, Hkv, Hres.
    subst n.
    inversion Hkv as [? ? ? ? _ Hkcs]; subst.
    inversion Hres as [? ? ? ? _ _ Hrcs]; subst.
    change (writeJsonFile _) with (JArray (writeJsonHelper (mkItem "" i e cs))).
    rewrite (readJsonFile_written_forest cs i e h0 Hnd Hkcs Hrcs).
    eexists. split; [done|]. simpl. split; [done|]. split.
    + clear Hnd Hkv Hres.
      induction cs as [|c cs IH]; [constructor|].
      apply Forall_cons in Hkcs as [? ?]. apply Forall_cons in Hrcs as [? ?].
      constructor; [by apply Item_iso_json_norm|by apply IH].
    + intros m. set_solver.
  - intros key n Hk1 Hk2 Hn myjson.
    assert (Hname' : obj_value (obj_insert key (JBool true) [("name", JString n)])
                       "name" = JString n).
    { rewrite obj_value_insert. by apply String.eqb_neq in Hk1 as ->. }
    assert (Hcont : obj_contains (obj_insert key (JBool true) [("name", JString n)])
                      "children" = false).
    { rewrite obj_contains_insert. by apply String.eqb_neq in Hk2 as ->. }
    assert (Hinfo : fold_left
              (handleJsonMember (obj_insert key (JBool true) [("name", JString n)]))
              (obj_keys (obj_insert key (JBool true) [("name", JString n)]))
              kv_clear = [(key, "True")]).
    { rewrite handleJsonMembers_flat_map.
      - simpl. destruct (AString_ltb key "name") eqn:E1; simpl.
        + unfold member_info at 1. simpl.
          apply String.eqb_neq in Hk1 as ->. by apply String.eqb_neq in Hk2 as ->.
        + destruct (AString_ltb "name" key) eqn:E2; simpl.
          * unfold member_info at 1. simpl.
            apply String.eqb_neq in Hk1 as ->. by apply String.eqb_neq in Hk2 as ->.
          * exfalso. apply Hk1. by apply AString_ltb_total.
      - simpl. destruct (AString_ltb key "name") eqn:E1; simpl.
        + apply NoDup_cons. split; [|apply NoDup_singleton].
          by intros ->%list_elem_of_singleton.
        + destruct (AString_ltb "name" key) eqn:E2; simpl.
          * apply NoDup_cons. split; [|apply NoDup_singleton].
            by intros <-%list_elem_of_singleton.
          * apply NoDup_singleton. }
    assert (Hadd : addItem (mkItem n "" [(key, "True")] []) "" (clear h0) =
                   (Some [0%nat],
                    mkHierarchy (mkItem "" "" [] [mkItem n "" [(key, "True")] []])
                                ({[ n ]} ∪ {[ "" ]}))).
    { apply addItem_Some; [|set_solver|done].
      simpl. by intros ->%elem_of_singleton. }
    assert (Hread : readJsonFile myjson h0 =
                    (Returns,
                     mkHierarchy (mkItem "" "" [] [mkItem n "" [(key, "True")] []])
                                 ({[ n ]} ∪ {[ "" ]}))).
    { unfold readJsonFile, myjson. rewrite recurseJsonArrayish_cons.
      cbn [toObject handleJsonChild]. rewrite Hname'. cbn [toString].
      apply String.eqb_neq in Hn as ->. rewrite Hinfo, Hadd, Hcont. done. }
    rewrite Hread. split; [done|]. split; [done|]. done.
Qed.

(** an item whose annotations use a key the JSON reader reserves *)
Definition hierarchy_reserved : CaretHierarchy :=
  (addItem (mkItem "c" "" [("name", "zz")] []) "" CaretHierarchyNew).2.

(** C8, as stated, fails.  The hierarchy [hierarchy_reserved], which the
    class can hold and in which the names are unique, has an annotation
    with the key "name": what is read back from the JSON written for it is
    an item named "zz" without annotations.  The hierarchy
    [hierarchy_shared_name], which the class can hold and which has no
    annotation at all, has two items named "b": reading the JSON written
    for it throws at the second. *)
Lemma json_round_trip_reserved_key :
  (reachable hierarchy_reserved ∧
   NoDup (names (m_root hierarchy_reserved)) ∧
   kv_ok (m_root hierarchy_reserved) ∧
   children (m_root (readJsonFile (writeJsonFile hierarchy_reserved)
                       CaretHierarchyNew).2) = [ItemNamed "zz"] ∧
   ¬ ∃ h', readJsonFile (writeJsonFile hierarchy_reserved) CaretHierarchyNew
             = (Returns, h') ∧
           Forall2 (Item_iso (≡ₚ)) (children (m_root hierarchy_reserved))
                   (children (m_root h'))) ∧
  (reachable hierarchy_shared_name ∧
   kv_ok (m_root hierarchy_shared_name) ∧
   reserved_free (m_root hierarchy_shared_name) ∧
   (readJsonFile (writeJsonFile hierarchy_shared_name) CaretHierarchyNew).1
   = Throws "failed to add hierarchy item 'b', check whether all 'name's are unique" ∧
   ¬ ∃ h', readJsonFile (writeJsonFile hierarchy_shared_name)
             CaretHierarchyNew = (Returns, h') ∧
           Forall2 (Item_iso (≡ₚ)) (children (m_root hierarchy_shared_name))
                   (children (m_root h'))).
Proof.
  split.
  - assert (E : children (m_root (readJsonFile (writeJsonFile hierarchy_reserved)
                   CaretHierarchyNew).2) = [ItemNamed "zz"]) by by vm_compute.
    assert (Er : m_root hierarchy_reserved =
                 mkItem "" "" [] [mkItem "c" "" [("name", "zz")] []])
      by by vm_compute.
    split; [apply reach_addItem, reach_new|].
    split; [|split; [|split; [done|]]].
    + rewrite Er. by apply (bool_decide_unpack _).
    + rewrite Er. repeat constructor; simpl; set_solver.
    + intros (h' & Hr & Hiso). rewrite Hr in E. simpl in E. rewrite E in Hiso.
      rewrite Er in Hiso. simpl in Hiso. apply Forall2_cons in Hiso as [Hc _].
      by inversion Hc.
  - assert (E : (readJsonFile (writeJsonFile hierarchy_shared_name)
                   CaretHierarchyNew).1
                = Throws "failed to add hierarchy item 'b', check whether all 'name's are unique")
      by by vm_compute.
    assert (Er : m_root hierarchy_shared_name =
                 mkItem "" "" [] [mkItem "a" "" [] [ItemNamed "b"; ItemNamed "b"]])
      by by vm_compute.
    split; [apply hierarchy_shared_name_reachable|].
    split; [|split; [|split; [done|]]].
    + rewrite Er. repeat constructor.
    + rewrite Er. repeat constructor; simpl; set_solver.
    + intros (h' & Hr & _). by rewrite Hr in E.
Qed.

Lemma hierarchy_with_info_reserved_free : reserved_free (m_root hierarchy_with_info).
Proof.
  assert (E : m_root hierarchy_with_info =
              mkItem "" "" []
                [mkItem "a" "" [] [mkItem "b" "" [] []];
                 mkItem "c" "" [("colour", "red"); ("k", "v")] []])
    by by vm_compute.
  rewrite E. repeat constructor; simpl; set_solver.
Defined.

Lemma json_round_trip_witness :
  reachable hierarchy_with_info ∧
  NoDup (names (m_root hierarchy_with_info)) ∧
  kv_ok (m_root hierarchy_with_info) ∧
  reserved_free (m_root hierarchy_with_info) ∧
  ∃ h', readJsonFile (writeJsonFile hierarchy_with_info) CaretHierarchyNew
          = (Returns, h') ∧
        name (m_root h') = "" ∧
        Forall2 (Item_iso (≡ₚ)) (children (m_root hierarchy_with_info))
                (children (m_root h')) ∧
        ∀ n, n ∈ m_usedNames h' ↔ n ∈ names (m_root hierarchy_with_info).
Proof.
  split; [apply hierarchy_with_info_reachable|].
  split; [apply hierarchy_with_info_well_formed|].
  split; [apply hierarchy_with_info_well_formed|].
  split; [apply hierarchy_with_info_reserved_free|].
  apply (json_round_trip hierarchy_with_info CaretHierarchyNew
           hierarchy_with_info_reachable
           (proj1 (proj2 (proj1 hierarchy_with_info_well_formed)))
           (proj2 hierarchy_with_info_well_formed)
           hierarchy_with_info_reserved_free).
Defined.


(** ** The bounds of the loops of the model are never reached *)

Definition tokens_left (xml : QXmlStreamReader) : nat :=
  if atEnd xml then 0%nat else S (length (pending xml)).

Lemma tokens_left_readNext xml :
  (tokens_left (readNext xml) ≤ length (pending xml))%nat.
Proof.
  destruct xml as [t ts]. unfold readNext, tokens_left. simpl.
  destruct t; simpl; try lia;
    destruct ts as [|t' ts']; simpl; try lia; destruct (atEnd _); simpl; lia.
Qed.

Lemma kv_readXML_loop_bound pending current kv :
  (length (Hierarchy.pending (kv_readXML_loop pending current kv).2)
   ≤ length pending)%nat ∧
  (kv_readXML_loop pending current kv).1.1 ≠ NoFuel ∧
  (kv_readXML_loop pending current kv).1.1 ≠ Undefined.
Proof.
  revert current kv. induction pending as [|t ts IH]; intros current kv.
  - simpl. destruct (atEnd _); [done|].
    destruct current; simpl; try done; by destruct (negb _).
  - simpl. destruct (atEnd _); [simpl; split; [lia|done]|].
    assert (Hc : ∀ kv', (length (Hierarchy.pending (kv_readXML_loop ts t kv').2)
                         ≤ S (length ts))%nat ∧
                        (kv_readXML_loop ts t kv').1.1 ≠ NoFuel ∧
                        (kv_readXML_loop ts t kv').1.1 ≠ Undefined).
    { intros kv'. destruct (IH t kv') as (? & ? & ?). split; [lia|done]. }
    destruct current; simpl; try apply Hc;
      destruct (negb _); simpl; try apply Hc; split; (lia || done).
Qed.

Lemma readXML_body_bound xml st :
  atEnd xml = false →
  match readXML_body xml st with
  | Continue xml' _ => (tokens_left xml' < tokens_left xml)%nat
  | Stop o _ => o ≠ NoFuel
  end.
Proof.
  intros Hend.
  assert (Hnext : (tokens_left (readNext xml) < tokens_left xml)%nat).
  { pose proof (tokens_left_readNext xml). unfold tokens_left at 2.
    rewrite Hend. lia. }
  unfold readXML_body.
  destruct (current xml) as [| | | |tagname attributes|tag|] eqn:Ec; try done.
  - destruct (String.eqb tagname "CaretHierarchy").
    { destruct (haveRoot st); [done|]. destruct (negb _); [done|].
      by destruct (negb _). }
    destruct (String.eqb tagname "Item").
    { destruct (negb _); [done|]. destruct (rootEnded st); [done|].
      destruct (parents st); [done|]. by destruct (addItem _ _ _) as [[?|] ?]. }
    destruct (String.eqb tagname "Info"); [|done].
    destruct (addedInfo st); [done|].
    pose proof (kv_readXML_loop_bound (pending (readNext xml))
                  (current (readNext xml)) kv_clear) as (Hlen & Hno & _).
    fold (kv_readXML xml) in Hlen, Hno.
    destruct (kv_readXML xml) as [[o kv] xml']. simpl in *.
    destruct o; try done.
    pose proof (tokens_left_readNext xml').
    assert ((length (pending (readNext xml)) ≤ length (pending xml))%nat).
    { destruct xml as [t ts]. unfold readNext. simpl in *. subst t.
      destruct ts; simpl; lia. }
    unfold tokens_left at 2. rewrite Hend. lia.
  - destruct (String.eqb tag "Item"); [|done].
    by destruct (addedInfo st), (parents st).
Qed.

Lemma readXML_loop_bound fuel xml st :
  (tokens_left xml ≤ fuel)%nat → (readXML_loop fuel xml st).1.1 ≠ NoFuel.
Proof.
  revert xml st. induction fuel as [|fuel IH]; intros xml st Hfuel; simpl;
    destruct (atEnd xml) eqn:Hend; try done.
  - unfold tokens_left in Hfuel. rewrite Hend in Hfuel. lia.
  - pose proof (readXML_body_bound xml st Hend) as Hb.
    destruct (readXML_body xml st); [apply IH; lia|done].
Qed.

(** [readXML] is total: the bound of its loop is not reached. *)
Lemma readXML_terminates xml h : (readXML xml h).1 ≠ NoFuel.
Proof.
  unfold readXML.
  pose proof (readXML_loop_bound (S (length (pending xml))) xml
                (mkReadState (clear h) [""] [] false false)) as H.
  destruct (readXML_loop _ _ _) as [[o st] xml']. simpl in H.
  assert (o ≠ NoFuel).
  { apply H. unfold tokens_left. destruct (atEnd xml); lia. }
  destruct o; try done. by destruct (hasError xml').
Qed.

Lemma json_depth_toObject v :
  (json_depth (JObject (toObject v)) ≤ json_depth v)%nat.
Proof. destruct v; simpl; lia. Qed.

Lemma obj_contains_value o k :
  obj_contains o k = true → (k, obj_value o k) ∈ o.
Proof.
  unfold obj_contains. induction o as [|[k0 v0] o IH]; simpl; [done|].
  destruct (String.eqb_spec k0 k) as [->|]; simpl.
  - intros _. apply list_elem_of_here.
  - intros H. by apply list_elem_of_further, IH.
Qed.

Lemma recurseJsonArrayish_bound handle fuel h elements parent :
  (∀ h o p, (json_depth (JObject o) ≤ fuel)%nat → (handle h o p).1 ≠ NoFuel) →
  (json_depth elements ≤ S fuel)%nat →
  (match elements with JArray _ => True | _ => json_depth elements ≤ fuel end)%nat →
  (recurseJsonArrayish handle h elements parent).1 ≠ NoFuel.
Proof.
  intros Hh Hd Hd'. unfold recurseJsonArrayish.
  destruct elements as [| | | |a| |];
    try (apply Hh; pose proof (json_depth_toObject JNull); simpl in *; lia).
  revert h. induction a as [|x a IH]; intros h; [done|].
    assert (Hx : (json_depth (JObject (toObject x)) ≤ fuel)%nat).
    { pose proof (json_depth_toObject x).
      pose proof (json_depth_element (x :: a) x (list_elem_of_here _ _)). lia. }
    specialize (Hh h (toObject x) parent Hx).
    destruct (handle h (toObject x) parent) as [o h']. simpl in Hh.
    destruct o; try done. apply IH.
    simpl in *. lia.
Qed.

Lemma handleJsonChild_bound fuel h thisobj parent :
  (json_depth (JObject thisobj) ≤ fuel)%nat →
  (handleJsonChild fuel h thisobj parent).1 ≠ NoFuel.
Proof.
  revert h thisobj parent. induction fuel as [|fuel IH];
    intros h thisobj parent Hd; [simpl in Hd; lia|].
  cbn [handleJsonChild].
  destruct (String.eqb _ ""); [by destruct (String.eqb parent "")|].
  destruct (addItem _ parent h) as [[p|] h']; [|done].
  destruct (obj_contains thisobj "children") eqn:Hc; [|done].
  apply obj_contains_value, json_depth_member in Hc.
  apply (recurseJsonArrayish_bound _ fuel); [done|lia|].
  destruct (obj_value thisobj "children"); try done; simpl in *; lia.
Qed.

(** [readJsonFile] is total: the bound of its recursion is not reached. *)
Lemma readJsonFile_terminates myjson h : (readJsonFile myjson h).1 ≠ NoFuel.
Proof.
  unfold readJsonFile. apply (recurseJsonArrayish_bound _ (S (json_depth myjson))).
  - intros h' o p. apply handleJsonChild_bound.
  - lia.
  - destruct myjson; try done; simpl; lia.
Qed.


(** ** The empty name and the pointer handed back by [addItem] *)

(** X8: the empty name stays reserved for the implicit root: in every
    state the hierarchy can be in, the root is named by the empty string
    and [addItem] refuses an item whose name is empty, whatever the parent,
    and changes nothing. *)
Theorem addItem_refuses_empty_name x parent h :
  reachable h → name x = "" →
  name (m_root h) = "" ∧ addItem x parent h = (None, h).
Proof.
  intros (Hroot & Hused & _)%reachable_used_in_tree Hx. split; [done|].
  unfold addItem. rewrite Hx. by rewrite bool_decide_true.
Qed.

Lemma add_reverse_node_at x parent cs index cs' p :
  Forall (λ c, ∀ c' q, add c x parent = Some (c', q) → node_at q c' = Some x)
         cs →
  add_reverse (λ c, add c x parent) cs index = Some (cs', p) →
  ∃ k q c', p = (index + k)%nat :: q ∧ cs' !! k = Some c' ∧
            node_at q c' = Some x.
Proof.
  intros Hall. revert index cs'.
  induction Hall as [|c cs Hc _ IH]; intros index cs'; simpl; [done|].
  destruct (add_reverse _ cs (S index)) as [[rest' q]|] eqn:E.
  - intros [= <- <-]. destruct (IH _ _ E) as (k & q' & c' & -> & Hk & Hn).
    exists (S k), q', c'. split; [f_equal; lia|done].
  - destruct (add c x parent) as [[c' q]|] eqn:Ec; [|done].
    intros [= <- <-]. exists 0%nat, q, c'.
    split; [f_equal; lia|]. split; [done|]. by apply Hc.
Qed.

Lemma add_node_at t x parent t' p :
  add t x parent = Some (t', p) → node_at p t' = Some x.
Proof.
  revert t' p. induction t as [n i e cs IH] using Item_ind'. intros t' p.
  simpl. destruct (String.eqb n parent).
  - intros [= <- <-]. simpl. by rewrite list_lookup_middle.
  - destruct (add_reverse _ cs 0%nat) as [[cs' q]|] eqn:E; [|done].
    intros [= <- <-].
    destruct (add_reverse_node_at _ _ _ _ _ _ IH E) as (k & q' & c' & -> & Hk & Hn).
    simpl. by rewrite Hk.
Qed.

(** X9: when [addItem] returns true, the pointer it stores in
    [*extraInfoOut] is the address of the annotations of the item just
    added: the item at that place of the tree is the item passed in; and a
    write through the pointer gives the hierarchy that adding the item with
    the annotations so written gives, nothing else being changed. *)
Theorem addItem_pointer x parent h p h' :
  addItem x parent h = (Some p, h') →
  node_at p (m_root h') = Some x ∧
  ∀ f, addItem (with_extraInfo f x) parent h =
       (Some p,
        mkHierarchy (update_extraInfo p f (m_root h')) (m_usedNames h')).
Proof.
  intros Hadd.
  destruct (addItem_cases x parent h)
    as [[E _]|(root' & q & Eadd & Hfresh & Hparent & E)];
    rewrite E in Hadd; [done|].
  injection Hadd as -> <-. simpl. split; [by eapply add_node_at|].
  intros f. unfold addItem, with_extraInfo. simpl.
  rewrite bool_decide_false by done.
  rewrite bool_decide_false by (by intros ?).
  pose proof (add_update_extraInfo f _ _ _ _ _ Eadd) as Ef.
  unfold with_extraInfo in Ef. by rewrite Ef.
Qed.

Lemma addItem_refuses_empty_name_witness :
  reachable hierarchy_ab ∧ name (ItemNamed "") = "" ∧
  name (m_root hierarchy_ab) = "" ∧
  addItem (ItemNamed "") "a" hierarchy_ab = (None, hierarchy_ab).
Proof.
  split; [apply hierarchy_ab_reachable|]. split; [done|].
  apply (addItem_refuses_empty_name (ItemNamed "") "a" hierarchy_ab
           hierarchy_ab_reachable eq_refl).
Defined.

Lemma addItem_pointer_witness :
  addItem (ItemNamed "c") "a" hierarchy_ab =
    (Some [0; 1]%nat,
     mkHierarchy
       (mkItem "" "" [] [mkItem "a" "" [] [ItemNamed "b"; ItemNamed "c"]])
       ({[ "c" ]} ∪ m_usedNames hierarchy_ab)) ∧
  node_at [0; 1]%nat
    (mkItem "" "" [] [mkItem "a" "" [] [ItemNamed "b"; ItemNamed "c"]])
    = Some (ItemNamed "c") ∧
  ∀ f, addItem (with_extraInfo f (ItemNamed "c")) "a" hierarchy_ab =
       (Some [0; 1]%nat,
        mkHierarchy
          (update_extraInfo [0; 1]%nat f
             (mkItem "" "" [] [mkItem "a" "" [] [ItemNamed "b"; ItemNamed "c"]]))
          ({[ "c" ]} ∪ m_usedNames hierarchy_ab)).
Proof.
  assert (E : addItem (ItemNamed "c") "a" hierarchy_ab =
    (Some [0; 1]%nat,
     mkHierarchy
       (mkItem "" "" [] [mkItem "a" "" [] [ItemNamed "b"; ItemNamed "c"]])
       ({[ "c" ]} ∪ m_usedNames hierarchy_ab))) by by vm_compute.
  split; [exact E|].
  apply (addItem_pointer (ItemNamed "c") "a" hierarchy_ab _ _ E).
Defined.


(** ** Documents whose elements nest *)

(** The elements still open after a document, the innermost first, when
    every end element of the document closes the element opened last;
    [open] lists the elements open before it. *)
Fixpoint open_after (open : list string) (text : list XmlToken)
  : option (list string) :=
  match text with
  | [] => Some open
  | StartElement tag _ :: text' => open_after (tag :: open) text'
  | EndElement tag :: text' =>
      match open with
      | o :: open' =>
          if String.eqb o tag then open_after open' text' else None
      | [] => None
      end
  | _ :: text' => open_after open text'
  end.

Lemma open_after_app open a b :
  open_after open (a ++ b) = open_after open a ≫= λ open', open_after open' b.
Proof.
  revert open. induction a as [|t a IH]; intros open; [done|].
  destruct t; simpl; try apply IH.
  destruct open as [|o open']; [done|]. destruct (String.eqb o tag); [apply IH|done].
Qed.

Lemma open_after_info open e : open_after open (info_tokens e) = Some open.
Proof.
  unfold info_tokens. destruct e as [|kv e]; [done|].
  cbn [is_empty open_after]. rewrite open_after_app.
  assert (H : ∀ l, open_after ("Info" :: open) (flat_map info_item_tokens l)
                   = Some ("Info" :: open)).
  { induction l as [|a l IH]; [done|]. simpl. apply IH. }
  by rewrite H.
Qed.

Lemma open_after_items open cs :
  Forall (λ c, ∀ open, open_after open (item_tokens c) = Some open) cs →
  open_after open (flat_map item_tokens cs) = Some open.
Proof.
  induction 1 as [|c cs Hc _ IH]; [done|].
  simpl. by rewrite open_after_app, Hc.
Qed.

Lemma open_after_item t open : open_after open (item_tokens t) = Some open.
Proof.
  revert open. induction t as [n i e cs IH] using Item_ind'. intros open.
  simpl. destruct (String.eqb n ""); [by apply open_after_items|].
  cbn [open_after]. rewrite open_after_app, open_after_info. simpl.
  rewrite open_after_app, open_after_items by done. simpl.
  done.
Qed.

(** in the document that [writeXMLToString] writes, every end element
    closes the element opened last *)
Lemma writeXMLToString_nested h :
  open_after [] (writeXMLToString h) = Some [].
Proof.
  rewrite writeXMLToString_tokens. cbn [open_after].
  by rewrite open_after_app, open_after_item.
Qed.

(** ** The items that a written document names *)

(** the [Item] start elements of a document, in its order, each by the
    name it carries and the number of [Item] elements open around it *)
Fixpoint item_levels (depth : nat) (text : list XmlToken)
  : list (string * nat) :=
  match text with
  | [] => []
  | StartElement tag attributes :: text' =>
      if String.eqb tag "Item" then
        (attribute_value attributes "Name", depth) :: item_levels (S depth) text'
      else item_levels depth text'
  | EndElement tag :: text' =>
      if String.eqb tag "Item" then item_levels (pred depth) text'
      else item_levels depth text'
  | _ :: text' => item_levels depth text'
  end.

(** the items below [t], and [t] itself, that have a name, in depth-first
    order, each with the number of its ancestors that have a name, counted
    from [depth] *)
Fixpoint levels (depth : nat) (t : Item) : list (string * nat) :=
  match t with
  | mkItem n _ _ cs =>
      if String.eqb n "" then flat_map (levels depth) cs
      else (n, depth) :: flat_map (levels (S depth)) cs
  end.

Lemma item_levels_info depth e rest :
  item_levels depth (info_tokens e ++ rest) = item_levels depth rest.
Proof.
  unfold info_tokens. destruct e as [|kv e]; [done|].
  cbn [is_empty app item_levels String.eqb Ascii.eqb Bool.eqb].
  rewrite <- app_assoc.
  induction (kv :: e) as [|a l IH]; [done|]. exact IH.
Qed.

Lemma item_levels_items depth cs rest :
  Forall (λ c, ∀ depth rest, item_levels depth (item_tokens c ++ rest) =
                             levels depth c ++ item_levels depth rest) cs →
  item_levels depth (flat_map item_tokens cs ++ rest) =
  flat_map (levels depth) cs ++ item_levels depth rest.
Proof.
  induction 1 as [|c cs Hc _ IH]; [done|].
  cbn [flat_map]. by rewrite <- !app_assoc, Hc, IH.
Qed.

Lemma item_levels_item t depth rest :
  item_levels depth (item_tokens t ++ rest) =
  levels depth t ++ item_levels depth rest.
Proof.
  revert depth rest. induction t as [n i e cs IH] using Item_ind'.
  intros depth rest. cbn [item_tokens levels].
  destruct (String.eqb n ""); [by apply item_levels_items|].
  cbn [app item_levels String.eqb Ascii.eqb Bool.eqb attribute_value].
  rewrite <- app_assoc, item_levels_info, <- app_assoc.
  by rewrite item_levels_items.
Qed.

(** X10: the [Item] elements of the document that [writeXMLToString]
    writes are, in the order of the document and each with the number of
    [Item] elements it lies in, the items of the hierarchy that have a
    name, in depth-first order and each with the number of its ancestors
    that have a name: every such item is written once, inside the element
    of its parent and after its elder siblings, and an item whose name is
    empty, as the root's is, is written as no element, its children in its
    place. *)
Theorem writeXMLToString_item_levels h :
  item_levels 0 (writeXMLToString h) = levels 0 (m_root h).
Proof.
  rewrite writeXMLToString_tokens. cbn [item_levels String.eqb Ascii.eqb Bool.eqb].
  rewrite item_levels_item. cbn. by rewrite app_nil_r.
Qed.


(** ** [readXML] on documents whose elements nest *)

Definition count_Item (open : list string) : nat :=
  length (List.filter (String.eqb "Item") open).

(** the reader is on a token before which [open] are the open elements *)
Definition reads (xml : QXmlStreamReader) (open : list string) : Prop :=
  is_Some (open_after open (current xml :: pending xml)).

Lemma readNext_reads xml open :
  is_Some (open_after open (pending xml)) → reads (readNext xml) open.
Proof.
  unfold reads, readNext. intros H.
  destruct (current xml) eqn:E;
    try (destruct (pending xml); [done|exact H]).
  rewrite E. exact H.
Qed.

Lemma count_Item_info n open :
  count_Item (repeat "InfoItem" n ++ "Info" :: open) = count_Item open.
Proof. unfold count_Item. induction n as [|n IH]; [done|]. exact IH. Qed.

Lemma kv_readXML_loop_outcome pending current kv :
  match (kv_readXML_loop pending current kv).1.1 with
  | Returns | Throws _ => True
  | _ => False
  end.
Proof.
  revert current kv. induction pending as [|t ts IH]; intros current kv; simpl.
  - destruct (atEnd _); [done|].
    destruct current; try done; simpl; by destruct (negb _).
  - destruct (atEnd _); [done|].
    destruct current; try apply IH; simpl; destruct (negb _); try done; apply IH.
Qed.

Lemma kv_readXML_loop_reads pending current kv n open :
  reads (mkReader current pending) (repeat "InfoItem" n ++ "Info" :: open) →
  match kv_readXML_loop pending current kv with
  | (Returns, _, xml') =>
      ∃ open', reads (readNext xml') open' ∧ count_Item open' = count_Item open
  | _ => True
  end.
Proof.
  revert current kv n.
  induction pending as [|t ts IH]; intros current kv n Hr.
  - assert (Hend : ∃ open', reads (readNext (readNext (mkReader current [])))
                              open' ∧ count_Item open' = count_Item open).
    { exists open. split; [|done]. apply readNext_reads.
      unfold readNext. simpl. by destruct current. }
    assert (Hat : atEnd (mkReader current []) = true →
                  ∃ open', reads (readNext (mkReader current [])) open'
                           ∧ count_Item open' = count_Item open).
    { intros _. exists open. split; [|done]. by apply readNext_reads. }
    simpl. destruct (atEnd (mkReader current [])) eqn:E; [by apply Hat|].
    destruct current as [|err| | |tag attributes|tag|txt]; try exact Hend.
    + simpl. by destruct (negb (String.eqb tag "InfoItem")).
    + simpl. destruct (negb (String.eqb tag "InfoItem")); [|exact Hend].
      exists open. split; [|done]. by apply readNext_reads.
  - assert (Hskip : ∀ current' kv',
              open_after (repeat "InfoItem" n ++ "Info" :: open)
                         (current' :: t :: ts) =
              open_after (repeat "InfoItem" n ++ "Info" :: open) (t :: ts) →
              reads (mkReader current' (t :: ts))
                    (repeat "InfoItem" n ++ "Info" :: open) →
              match kv_readXML_loop ts t kv' with
              | (Returns, _, xml') =>
                  ∃ open', reads (readNext xml') open'
                           ∧ count_Item open' = count_Item open
              | _ => True
              end).
    { intros current' kv' E Hr'. apply (IH t kv' n).
      unfold reads in *. cbn [Hierarchy.current Hierarchy.pending] in *.
      by rewrite <- E. }
    cbn [kv_readXML_loop].
    destruct (atEnd (mkReader current (t :: ts))) eqn:Eat.
    { exists (repeat "InfoItem" n ++ "Info" :: open).
      split; [|apply count_Item_info]. apply readNext_reads.
      unfold reads in Hr. simpl in *. by destruct current. }
    destruct current as [|err| | |tag attributes|tag|txt];
      try (eapply Hskip; [|exact Hr]; reflexivity).
    + destruct (String.eqb tag "InfoItem") eqn:Et; [|done]. simpl.
      apply String.eqb_eq in Et as ->.
      apply (IH t _ (S n)). exact Hr.
    + unfold reads in Hr. cbn [Hierarchy.current Hierarchy.pending open_after] in Hr.
      destruct (String.eqb tag "InfoItem") eqn:Et; simpl.
      * apply String.eqb_eq in Et as ->.
        destruct n as [|n]; simpl in Hr; [by destruct Hr|]. by apply (IH t _ n).
      * destruct n as [|n]; cbn [repeat app] in Hr.
        -- destruct (String.eqb "Info" tag); [|by destruct Hr].
           exists open. split; [|done]. by apply readNext_reads.
        -- destruct (String.eqb_spec "InfoItem" tag) as [<-|_];
             [by rewrite String.eqb_refl in Et|by destruct Hr].
Qed.

(** the stacks of [readXML] have an entry for each open [Item] element *)
Definition stacks_ok (xml : QXmlStreamReader) (st : ReadState) : Prop :=
  ∃ open, reads xml open ∧
          length (addedInfo st) = count_Item open ∧
          length (parents st) = S (count_Item open).

Lemma count_Item_cons tag open :
  count_Item (tag :: open) =
  if String.eqb "Item" tag then S (count_Item open) else count_Item open.
Proof.
  unfold count_Item. cbn [List.filter]. by destruct (String.eqb "Item" tag).
Qed.

Lemma readXML_body_stacks xml st :
  stacks_ok xml st →
  match readXML_body xml st with
  | Continue xml' st' => stacks_ok xml' st'
  | Stop o _ => o ≠ Undefined
  end.
Proof.
  intros (open & Hr & Hai & Hp). unfold readXML_body.
  unfold reads in Hr.
  destruct (current xml) as [|err| | |tagname attributes|tag|txt] eqn:Ec;
    cbn [open_after] in Hr;
    try (exists open; split; [by apply readNext_reads|done]).
  - destruct (String.eqb_spec tagname "CaretHierarchy") as [->|_].
    { destruct (haveRoot st); [done|]. cbn [parents addedInfo].
      destruct (negb _); [done|]. destruct (negb _); [done|].
      exists ("CaretHierarchy" :: open). split; [by apply readNext_reads|].
      by rewrite count_Item_cons. }
    destruct (String.eqb_spec tagname "Item") as [->|Hni].
    { destruct (negb _); [done|]. destruct (rootEnded st); [done|].
      destruct (parents st) as [|back ps] eqn:Eps; [done|].
      destruct (addItem _ back (hier st)) as [[kvptr|] h']; [|done].
      exists ("Item" :: open). split; [by apply readNext_reads|].
      rewrite count_Item_cons. simpl in *. by rewrite Hai, Hp. }
    destruct (String.eqb_spec tagname "Info") as [->|_]; [|done].
    destruct (addedInfo st) as [|kvptr ai] eqn:Eai; [done|].
    unfold kv_readXML.
    pose proof (kv_readXML_loop_reads (pending (readNext xml))
                  (current (readNext xml)) kv_clear 0 open) as Hkv.
    pose proof (kv_readXML_loop_outcome (pending (readNext xml))
                  (current (readNext xml)) kv_clear) as Ho.
    destruct (kv_readXML_loop _ _ _) as [[o kv] xml'].
    cbn [fst] in Ho.
    destruct o; try done.
    destruct Hkv as (open' & Hr' & Hc).
    { pose proof (readNext_reads xml ("Info" :: open) Hr) as H.
      by destruct (readNext xml). }
    exists open'. split; [done|]. cbn [addedInfo parents].
    by rewrite Hc.
  - destruct open as [|o open']; [by destruct Hr|].
    destruct (String.eqb_spec o tag) as [->|_]; [|by destruct Hr].
    rewrite count_Item_cons in Hai, Hp.
    destruct (String.eqb_spec tag "Item") as [->|Hni].
    + simpl in Hai, Hp.
      destruct (addedInfo st) as [|a ai]; [done|].
      destruct (parents st) as [|b ps]; [done|].
      exists open'. split; [by apply readNext_reads|].
      simpl in *. lia.
    + exists open'. split; [by apply readNext_reads|].
      cbn [addedInfo parents].
      destruct (String.eqb_spec "Item" tag) as [<-|_]; done.
Qed.

Lemma readXML_loop_stacks fuel xml st :
  stacks_ok xml st → (readXML_loop fuel xml st).1.1 ≠ Undefined.
Proof.
  revert xml st. induction fuel as [|fuel IH]; intros xml st Hs; simpl.
  - by destruct (atEnd xml).
  - destruct (atEnd xml); [done|].
    pose proof (readXML_body_stacks xml st Hs) as Hb.
    destruct (readXML_body xml st) as [xml' st'|o st']; [by apply IH|done].
Qed.

(** X11: on a document whose elements nest, as [QXmlStreamReader] delivers
    them, [readXML] never takes the [back()] of an empty vector nor pops
    one: its two stacks hold an entry for each [Item] element that is
    open, whatever else the document holds and however the parse ends. *)
Theorem readXML_stacks_safe text h :
  is_Some (open_after [] text) → (readXMLText text h).1 ≠ Undefined.
Proof.
  intros Hn. unfold readXMLText, readXML.
  pose proof (readXML_loop_stacks
                (S (length (pending (QXmlStreamReaderNew text))))
                (QXmlStreamReaderNew text)
                (mkReadState (clear h) [""] [] false false)) as H.
  destruct (readXML_loop _ _ _) as [[o st] xml'].
  cbn [fst] in H.
  assert (Ho : o ≠ Undefined).
  { apply H. exists []. split; [exact Hn|done]. }
  destruct o; try done. by destruct (hasError xml').
Qed.

Lemma readXML_stacks_safe_witness :
  is_Some (open_after [] (writeXMLToString hierarchy_with_info)) ∧
  (readXMLText (writeXMLToString hierarchy_with_info) CaretHierarchyNew).1
    ≠ Undefined.
Proof.
  assert (H : is_Some (open_after [] (writeXMLToString hierarchy_with_info)))
    by (exists []; by vm_compute).
  split; [exact H|].
  apply (readXML_stacks_safe _ CaretHierarchyNew H).
Defined.


(** ** What the readers build *)

(** a property of the id and the annotations of an item that holds for
    every item of a tree *)
Inductive every (Q : string → OrderedKVStore → Prop) : Item → Prop :=
| every_intro n i e cs :
    Q i e → Forall (every Q) cs → every Q (mkItem n i e cs).

Lemma every_append_child_at Q p x t :
  every Q t → every Q x → every Q (append_child_at p x t).
Proof.
  intros Ht Hx. revert t Ht. induction p as [|k p IH]; intros t Ht.
  - destruct Ht as [n i e cs HQ Hcs]. simpl. constructor; [done|].
    apply Forall_app. split; [done|by constructor].
  - destruct Ht as [n i e cs HQ Hcs]. simpl. constructor; [done|].
    apply Forall_alter; [done|]. intros c _ Hc. by apply IH.
Qed.

Lemma every_update_extraInfo Q p f t :
  (∀ i e, Q i e → Q i (f e)) →
  every Q t → every Q (update_extraInfo p f t).
Proof.
  intros Hf. revert t. induction p as [|k p IH]; intros t Ht.
  - destruct Ht as [n i e cs HQ Hcs]. simpl. constructor; [by apply Hf|done].
  - destruct Ht as [n i e cs HQ Hcs]. simpl. constructor; [done|].
    apply Forall_alter; [done|]. intros c _ Hc. by apply IH.
Qed.

Lemma every_addItem Q x parent h :
  every Q (m_root h) → every Q x → every Q (m_root (addItem x parent h).2).
Proof.
  intros Hh Hx.
  destruct (addItem_cases x parent h) as [[-> _]|(root' & p & E & _ & _ & ->)];
    [done|]. simpl.
  assert (E' : addT (m_root h) x parent = Some root')
    by (unfold addT; by rewrite E).
  rewrite addT_find in E'.
  destruct (find_parent (m_root h) parent) as [q|]; [|done].
  injection E' as <-. by apply every_append_child_at.
Qed.

Section Products.
(** a property of the hierarchy kept by the additions the readers make
    (of the items [Q]) and by writes of annotations with one value per key
    to an item other than the root *)
Variable P : CaretHierarchy → Prop.
Variable Q : Item → Prop.
Hypothesis P_addItem : ∀ x parent h, Q x → P h → P (addItem x parent h).2.
Hypothesis P_update :
  ∀ p kv h, p ≠ [] → NoDup (map fst kv) → P h →
            P (mkHierarchy (update_extraInfo p (λ _, kv) (m_root h))
                           (m_usedNames h)).
Hypothesis Q_named : ∀ n, Q (ItemNamed n).
Hypothesis Q_member :
  ∀ thisobj,
    Q (mkItem (toString (obj_value thisobj "name")) ""
         (fold_left (handleJsonMember thisobj) (obj_keys thisobj) kv_clear)
         []).

Lemma readXML_body_product xml st :
  read_inv P st →
  match readXML_body xml st with
  | Continue _ st' => read_inv P st'
  | Stop _ st' => read_inv P st'
  end.
Proof using P_addItem P_update Q_named.
  intros [HP Hptr]. unfold readXML_body.
  destruct (current xml) as [|err| | |tagname attributes|tag|txt]; try done.
  - destruct (String.eqb tagname "CaretHierarchy").
    { destruct (haveRoot st); [done|]. simpl.
      destruct (negb _); [done|]. by destruct (negb _). }
    destruct (String.eqb tagname "Item").
    { destruct (negb _); [done|]. destruct (rootEnded st); [done|].
      destruct (parents st) as [|back ?]; [done|].
      pose proof (P_addItem (ItemNamed (attribute_value attributes "Name"))
                    back (hier st) (Q_named _) HP) as HP'.
      destruct (addItem_cases (ItemNamed (attribute_value attributes "Name"))
                  back (hier st)) as [[E _]|(root' & p & Eadd & _ & _ & E)];
        rewrite E in HP' |- *; [done|].
      split; [done|]. constructor; [|done]. by eapply add_path. }
    destruct (String.eqb tagname "Info"); [|done].
    destruct (addedInfo st) as [|kvptr ?] eqn:Eai;
      [split; [done|by rewrite Eai]|].
    pose proof (kv_readXML_NoDup xml) as Hkv.
    destruct (kv_readXML xml) as [[o kv] xml']. simpl in Hkv.
    apply Forall_cons in Hptr as [Hkvptr Hptr].
    pose proof (P_update kvptr kv (hier st) Hkvptr Hkv HP).
    destruct o; (split; [done|]; simpl; by constructor).
  - destruct (String.eqb tag "Item"); [|done].
    destruct (addedInfo st) eqn:Eai, (parents st);
      try (split; [done|by rewrite Eai]).
    split; [done|]. simpl. by apply Forall_cons in Hptr as [_ ?].
Qed.

Lemma readXML_loop_product fuel xml st :
  read_inv P st → read_inv P (readXML_loop fuel xml st).1.2.
Proof using P_addItem P_update Q_named.
  revert xml st. induction fuel as [|fuel IH]; intros xml st HP; simpl;
    destruct (atEnd xml); try done.
  pose proof (readXML_body_product xml st HP) as Hb.
  destruct (readXML_body xml st); [by apply IH|done].
Qed.

Lemma readXML_product xml h :
  (∀ h, P (clear h)) → P (readXML xml h).2.
Proof using P_addItem P_update Q_named.
  intros Hclear. unfold readXML.
  assert (Hinv : read_inv P (mkReadState (clear h) [""] [] false false))
    by (split; [apply Hclear|constructor]).
  pose proof (readXML_loop_product (S (length (pending xml))) xml _ Hinv)
    as [HP _].
  destruct (readXML_loop _ _ _) as [[o st] xml']. simpl in HP.
  destruct o; try done. by destruct (hasError xml').
Qed.

Lemma handleJsonChild_product fuel h thisobj parent :
  P h → P (handleJsonChild fuel h thisobj parent).2.
Proof using P_addItem Q_member.
  revert h thisobj parent. induction fuel as [|fuel IH];
    intros h thisobj parent HP; [done|].
  simpl. destruct (String.eqb _ ""); [by destruct (String.eqb parent "")|].
  match goal with |- context [addItem ?x parent h] =>
    pose proof (P_addItem x parent h (Q_member thisobj) HP) as HP';
    destruct (addItem x parent h) as [[kvptr|] h'] end; [|done].
  simpl in HP'. destruct (obj_contains thisobj "children"); [|done].
  by apply recurseJsonArrayish_preserves.
Qed.

Lemma readJsonFile_product myjson h :
  (∀ h, P (clear h)) → P (readJsonFile myjson h).2.
Proof using P_addItem Q_member.
  intros Hclear. unfold readJsonFile.
  apply recurseJsonArrayish_preserves; [|done].
  intros h' o p. apply handleJsonChild_product.
Qed.
End Products.

(** no id, and one value per annotation key *)
Definition plain (i : string) (e : OrderedKVStore) : Prop :=
  i = "" ∧ NoDup (map fst e).

(** the hierarchies [readXML] leaves *)
Definition xml_product (h : CaretHierarchy) : Prop :=
  partial_ok h ∧ every plain (m_root h).

Lemma readXML_xml_product xml h : xml_product (readXML xml h).2.
Proof.
  apply (readXML_product xml_product
           (λ x, children x = [] ∧ every plain x)).
  - intros x parent h' [Hx Hp] [Hok He].
    split; [by apply partial_ok_addItem|by apply every_addItem].
  - intros p kv h' Hp Hkv [Hok He].
    split; [by apply partial_ok_update|].
    apply every_update_extraInfo; [|done]. by intros i e [-> _].
  - intros n. split; [done|]. constructor; [|constructor].
    split; [done|constructor].
  - intros h'. split; [apply partial_ok_clear|].
    constructor; [|constructor]. split; [done|constructor].
Qed.

Lemma every_plain_xml_norm c : every plain c → xml_norm c = c.
Proof.
  induction c as [n i e cs IH] using Item_ind'. intros Hc.
  inversion Hc as [? ? ? ? [-> _] Hcs]; subst. simpl. f_equal. clear Hc.
  induction cs as [|c cs IHcs]; [done|].
  apply Forall_cons in IH as [Hc1 Hcs1]. apply Forall_cons in Hcs as [Hc2 Hcs2].
  simpl. rewrite Hc1 by done. f_equal. by apply IHcs.
Qed.

Lemma every_plain_kv_ok c : every plain c → kv_ok c.
Proof.
  induction c as [n i e cs IH] using Item_ind'. intros Hc.
  inversion Hc as [? ? ? ? [_ Hnd] Hcs]; subst. constructor; [done|].
  rewrite Forall_forall in IH, Hcs |- *. intros c Hin. by apply IH, Hcs.
Qed.

(** X12: whatever document [readXML] was given and however the parse
    ended, the hierarchy it leaves can be written and read back: reading
    the text that [writeXMLToString] writes for it succeeds and gives
    exactly that hierarchy again, the used names included. *)
Theorem readXML_write_read xml h h0 :
  readXMLText (writeXMLToString (readXML xml h).2) h0
  = (Returns, (readXML xml h).2).
Proof.
  pose proof (readXML_xml_product xml h) as [[(Hname & Hnd & Hused) [Hi He]] Hp].
  destruct (readXML xml h).2 as [[n i e cs] used]. simpl in *. subst n i e.
  inversion Hp as [? ? ? ? _ Hcs]; subst.
  unfold readXMLText. rewrite writeXMLToString_tokens. simpl.
  rewrite (readXML_written_forest cs h0 Hnd).
  - f_equal. f_equal.
    + f_equal. clear -Hcs. induction Hcs as [|c cs Hc _ IH]; [done|].
      simpl. by rewrite IH, every_plain_xml_norm.
    + apply set_eq. intros m. rewrite Hused. set_solver.
  - eapply Forall_impl; [exact Hcs|]. apply every_plain_kv_ok.
Qed.


(** no id, one value per annotation key, and no annotation under one of
    the two keys the JSON reader reserves *)
Definition clean (i : string) (e : OrderedKVStore) : Prop :=
  i = "" ∧ NoDup (map fst e) ∧
  ("name" ∉ map fst e) ∧ ("children" ∉ map fst e).

(** the hierarchies [readJsonFile] leaves *)
Definition json_product (h : CaretHierarchy) : Prop :=
  partial_ok h ∧ every clean (m_root h).

Lemma handleJsonMember_reserved thisobj kv key (r : string) :
  r = "name" ∨ r = "children" →
  r ∉ map fst kv → r ∉ map fst (handleJsonMember thisobj kv key).
Proof.
  intros Hr Hkv. unfold handleJsonMember.
  destruct (String.eqb_spec key "name") as [->|Hn]; [done|].
  destruct (obj_value thisobj key); simpl;
    destruct (String.eqb_spec key "children") as [->|Hc]; try done;
    rewrite kv_set_keys; case_bool_decide; try done;
    rewrite elem_of_app, list_elem_of_singleton; naive_solver.
Qed.

Lemma handleJsonMembers_reserved thisobj keys kv (r : string) :
  r = "name" ∨ r = "children" →
  r ∉ map fst kv →
  r ∉ map fst (fold_left (handleJsonMember thisobj) keys kv).
Proof.
  intros Hr. revert kv. induction keys as [|k keys IH]; intros kv Hkv; [done|].
  simpl. by apply IH, handleJsonMember_reserved.
Qed.

Lemma readJsonFile_json_product myjson h : json_product (readJsonFile myjson h).2.
Proof.
  apply (readJsonFile_product json_product
           (λ x, children x = [] ∧ every clean x)).
  - intros x parent h' [Hx Hp] [Hok He].
    split; [by apply partial_ok_addItem|by apply every_addItem].
  - intros thisobj. split; [done|]. constructor; [|constructor].
    split; [done|]. split; [|split].
    + apply handleJsonMembers_NoDup. constructor.
    + apply handleJsonMembers_reserved; [by left|]. by intros ?%elem_of_nil.
    + apply handleJsonMembers_reserved; [by right|]. by intros ?%elem_of_nil.
  - intros h'. split; [apply partial_ok_clear|].
    constructor; [|constructor].
    split; [done|]. split; [constructor|]. split; by intros ?%elem_of_nil.
Qed.

Lemma every_clean_kv_ok c : every clean c → kv_ok c.
Proof.
  induction c as [n i e cs IH] using Item_ind'. intros Hc.
  inversion Hc as [? ? ? ? (_ & Hnd & _) Hcs]; subst. constructor; [done|].
  rewrite Forall_forall in IH, Hcs |- *. intros c Hin. by apply IH, Hcs.
Qed.

Lemma every_clean_reserved_free c : every clean c → reserved_free c.
Proof.
  induction c as [n i e cs IH] using Item_ind'. intros Hc.
  inversion Hc as [? ? ? ? (_ & _ & Hn & Hch) Hcs]; subst.
  constructor; [done|done|].
  rewrite Forall_forall in IH, Hcs |- *. intros c Hin. by apply IH, Hcs.
Qed.

(** X13: whatever document [readJsonFile] was given and however the parse
    ended, the hierarchy it leaves can be written and read back: reading
    the document that [writeJsonFile] writes for it succeeds and gives a
    tree with the same names, the same children in the same order and the
    same annotation key/value pairs on each item, and the same used
    names.  No item the reader builds has an annotation under the key
    "name" or "children". *)
Theorem readJsonFile_write_read myjson h h0 :
  let h1 := (readJsonFile myjson h).2 in
  every clean (m_root h1) ∧
  ∃ h', readJsonFile (writeJsonFile h1) h0 = (Returns, h') ∧
        name (m_root h') = "" ∧
        Forall2 (Item_iso (≡ₚ)) (children (m_root h1)) (children (m_root h')) ∧
        m_usedNames h' = m_usedNames h1.
Proof.
  cbn zeta.
  pose proof (readJsonFile_json_product myjson h)
    as [[(Hname & Hnd & Hused) [Hi He]] Hp].
  split; [done|].
  destruct (readJsonFile myjson h).2 as [[n i e cs] used].
  simpl in Hname, Hnd, Hused, Hi, He, Hp. subst n i e.
  inversion Hp as [? ? ? ? _ Hcs]; subst.
  change (writeJsonFile _) with (JArray (writeJsonHelper (mkItem "" "" [] cs))).
  rewrite (readJsonFile_written_forest cs "" [] h0 Hnd).
  - eexists. split; [done|]. simpl. split; [done|]. split.
    + clear -Hcs. induction Hcs as [|c cs Hc _ IH]; constructor; [|done].
      apply Item_iso_json_norm;
        [by apply every_clean_kv_ok|by apply every_clean_reserved_free].
    + apply set_eq. intros m. rewrite Hused. set_solver.
  - eapply Forall_impl; [exact Hcs|]. apply every_clean_kv_ok.
  - eapply Forall_impl; [exact Hcs|]. apply every_clean_reserved_free.
Qed.



(** ** What a parse has added when it stops *)

(** the names that the [Item] start elements among some tokens carry *)
Definition item_names (text : list XmlToken) : list string :=
  flat_map (λ t, match t with
                 | StartElement tag attributes =>
                     if String.eqb tag "Item"
                     then [attribute_value attributes "Name"] else []
                 | _ => []
                 end) text.

(** [before] is what of [text] lies before the token the reader is on, and
    all of [text] once the reader has run off its end *)
Definition behind (text : list XmlToken) (xml : QXmlStreamReader)
  (before : list XmlToken) : Prop :=
  text = before ++ current xml :: pending xml ∨
  (text = before ∧ current xml = Invalid "Premature end of document." ∧
   pending xml = []).

Lemma item_names_app a b : item_names (a ++ b) = item_names a ++ item_names b.
Proof. apply flat_map_app. Qed.

Lemma readNext_behind text xml before :
  behind text xml before →
  ∃ before', behind text (readNext xml) before' ∧
             item_names before' = item_names before ++ item_names [current xml].
Proof.
  destruct xml as [c p]. unfold behind, readNext. simpl.
  intros [E|(E & Hc & Hp)].
  - destruct c as [|err| | |tag attributes|tag|txt];
      try (destruct p as [|t ts];
           [eexists (before ++ [_]); split;
              [right; by rewrite E|by rewrite item_names_app]
           |eexists (before ++ [_]); split;
              [left; rewrite E; simpl; by rewrite <- app_assoc
              |by rewrite item_names_app]]).
    exists before. split; [by left|]. simpl. by rewrite app_nil_r.
  - subst. exists before. split; [by right|]. simpl. by rewrite app_nil_r.
Qed.

Lemma kv_readXML_loop_behind text pending current kv before :
  behind text (mkReader current pending) before →
  ∃ before', behind text (kv_readXML_loop pending current kv).2 before' ∧
             item_names before' = item_names before.
Proof.
  revert current kv before.
  induction pending as [|t ts IH]; intros current kv before Hb.
  - assert (Hnext : item_names [current] = [] →
              ∃ before', behind text (readNext (mkReader current [])) before' ∧
                         item_names before' = item_names before).
    { intros E. destruct (readNext_behind _ _ _ Hb) as (b' & Hb' & En).
      exists b'. split; [done|]. cbn [Hierarchy.current] in En.
      by rewrite En, E, app_nil_r. }
    assert (Hsame : ∃ before', behind text (mkReader current []) before' ∧
                               item_names before' = item_names before)
      by by exists before.
    simpl. destruct (atEnd (mkReader current [])); [exact Hsame|].
    destruct current as [|err| | |tag attributes|tag|txt];
      try (by apply Hnext).
    + destruct (String.eqb tag "InfoItem") eqn:Et; simpl; [|exact Hsame].
      apply Hnext. apply String.eqb_eq in Et as ->. done.
    + destruct (String.eqb tag "InfoItem"); simpl; [|exact Hsame].
      by apply Hnext.
  - assert (Hnext : ∀ kv', atEnd (mkReader current (t :: ts)) = false →
              item_names [current] = [] →
              ∃ before', behind text (kv_readXML_loop ts t kv').2 before' ∧
                         item_names before' = item_names before).
    { intros kv' Hat E. destruct Hb as [Hb|(_ & Hc & _)].
      - destruct (IH t kv' (before ++ [current])) as (b' & Hb' & En).
        + left. simpl in *. by rewrite <- app_assoc.
        + exists b'. split; [done|].
          by rewrite En, item_names_app, E, app_nil_r.
      - simpl in Hc. subst. done. }
    assert (Hsame : ∃ before', behind text (mkReader current (t :: ts)) before' ∧
                               item_names before' = item_names before)
      by by exists before.
    cbn [kv_readXML_loop].
    destruct (atEnd (mkReader current (t :: ts))) eqn:Hat; [exact Hsame|].
    destruct current as [|err| | |tag attributes|tag|txt];
      try (by apply Hnext).
    + destruct (String.eqb tag "InfoItem") eqn:Et; simpl; [|exact Hsame].
      apply Hnext; [done|]. apply String.eqb_eq in Et as ->. done.
    + destruct (String.eqb tag "InfoItem"); simpl; [|exact Hsame].
      by apply Hnext.
Qed.

Lemma kv_readXML_loop_stops pending current kv :
  (kv_readXML_loop pending current kv).1.1 = Returns →
  item_names [Hierarchy.current (kv_readXML_loop pending current kv).2] = [].
Proof.
  revert current kv. induction pending as [|t ts IH]; intros current kv.
  - simpl. destruct (atEnd (mkReader current [])) eqn:Hat.
    { unfold atEnd in Hat. simpl in *. by destruct current. }
    destruct current as [|err| | |tag attributes|tag|txt]; try done.
    + by destruct (String.eqb tag "InfoItem").
    + by destruct (String.eqb tag "InfoItem").
  - cbn [kv_readXML_loop].
    destruct (atEnd (mkReader current (t :: ts))) eqn:Hat.
    { unfold atEnd in Hat. simpl in *. by destruct current. }
    destruct current as [|err| | |tag attributes|tag|txt]; try apply IH.
    + destruct (String.eqb tag "InfoItem"); simpl; [apply IH|done].
    + destruct (String.eqb tag "InfoItem"); simpl; [apply IH|done].
Qed.

(** the hierarchy of the locals holds the items that the [Item] elements
    before the reader's token name, and no other *)
Definition added (text : list XmlToken) (xml : QXmlStreamReader)
  (h : CaretHierarchy) : Prop :=
  ∃ before, behind text xml before ∧
            names (m_root h) ≡ₚ "" :: item_names before.

Lemma added_readNext text xml h h' :
  added text xml h →
  names (m_root h') ≡ₚ names (m_root h) ++ item_names [current xml] →
  added text (readNext xml) h'.
Proof.
  intros (before & Hb & Hn) Hn'.
  destruct (readNext_behind _ _ _ Hb) as (b' & Hb' & En).
  exists b'. split; [done|]. by rewrite Hn', Hn, En.
Qed.

Lemma added_same text xml h h' :
  added text xml h → names (m_root h') = names (m_root h) → added text xml h'.
Proof. intros (before & Hb & Hn) E. exists before. by rewrite E. Qed.

Lemma readXML_body_added text xml st :
  added text xml (hier st) →
  match readXML_body xml st with
  | Continue xml' st' => added text xml' (hier st')
  | Stop _ st' => added text xml (hier st')
  end.
Proof.
  intros Ha.
  assert (Hnext : ∀ h', item_names [current xml] = [] →
            names (m_root h') = names (m_root (hier st)) →
            added text (readNext xml) h').
  { intros h' E Hn. eapply added_readNext; [exact Ha|].
    by rewrite E, app_nil_r, Hn. }
  pose proof (added_readNext text xml (hier st)) as Hitem.
  pose proof (added_same text xml (hier st)) as Hsame.
  pose proof (λ o, kv_readXML_loop_behind text
                (pending (readNext xml)) (current (readNext xml)) o) as Hkv.
  unfold readXML_body.
  destruct (current xml) as [|err| | |tag attributes|tag|txt] eqn:Ec;
    try (by apply Hnext).
  - destruct (String.eqb tag "CaretHierarchy") eqn:Eroot.
    { apply String.eqb_eq in Eroot as ->.
      destruct (haveRoot st); [by apply Hsame|].
      destruct (negb (hasAttribute attributes "Version")); [by apply Hsame|].
      destruct (negb (String.eqb (attribute_value attributes "Version") "1"));
        [by apply Hsame|].
      by apply Hnext. }
    destruct (String.eqb tag "Item") eqn:Eitem.
    { destruct (negb (haveRoot st)); [by apply Hsame|].
      destruct (rootEnded st); [by apply Hsame|].
      destruct (parents st) as [|back ps]; [by apply Hsame|].
      destruct (addItem_cases (ItemNamed (attribute_value attributes "Name"))
                  back (hier st))
        as [[-> _]|(root' & p & E & _ & _ & ->)]; [by apply Hsame|].
      apply Hitem; [done|]. simpl. rewrite Eitem. simpl.
      assert (E' : addT (m_root (hier st))
                     (ItemNamed (attribute_value attributes "Name")) back
                   = Some root') by (unfold addT; by rewrite E).
      by apply addT_names in E'. }
    destruct (String.eqb tag "Info") eqn:Einfo; [|by apply Hsame].
    destruct (addedInfo st) as [|kvptr ai]; [by apply Hsame|].
    unfold kv_readXML.
    pose proof (kv_readXML_loop_stops (pending (readNext xml))
                  (current (readNext xml)) kv_clear) as Hstop.
    specialize (Hkv kv_clear).
    destruct (kv_readXML_loop (pending (readNext xml)) (current (readNext xml))
                kv_clear) as [[o kv] xml'].
    cbn [fst snd] in Hstop, Hkv.
    destruct o;
      try (apply Hsame; [exact Ha|simpl; apply names_update_extraInfo]).
    destruct Ha as (before & Hb & Hn).
    destruct (readNext_behind _ _ _ Hb) as (b1 & Hb1 & En1).
    destruct (Hkv b1) as (b2 & Hb2 & En2).
    { by destruct (readNext xml). }
    destruct (readNext_behind _ _ _ Hb2) as (b3 & Hb3 & En3).
    exists b3. split; [done|]. simpl. rewrite names_update_extraInfo, Hn.
    rewrite En3, Hstop, En2, En1, Ec by done. simpl.
    rewrite Eitem. by rewrite !app_nil_r.
  - destruct (String.eqb tag "Item").
    + destruct (addedInfo st), (parents st); try (by apply Hsame).
      by apply Hnext.
    + by apply Hnext.
Qed.

Lemma readXML_loop_added text fuel xml st :
  added text xml (hier st) →
  added text (readXML_loop fuel xml st).2 (hier (readXML_loop fuel xml st).1.2).
Proof.
  revert xml st. induction fuel as [|fuel IH]; intros xml st Ha; simpl.
  - by destruct (atEnd xml).
  - destruct (atEnd xml); [done|].
    pose proof (readXML_body_added text xml st Ha) as Hbody.
    destruct (readXML_body xml st) as [xml' st'|o st']; [by apply IH|done].
Qed.

(** the loop of [readXML] over a document: how it ends, the locals then, and
    the reader, on the token at which the loop stopped *)
Definition readXML_stops (text : list XmlToken) (h : CaretHierarchy)
  : outcome * ReadState * QXmlStreamReader :=
  readXML_loop (S (length text)) (QXmlStreamReaderNew text)
    (mkReadState (clear h) [""] [] false false).

Lemma readXML_stops_hier text h :
  (readXMLText text h).2 = hier (readXML_stops text h).1.2.
Proof.
  unfold readXMLText, readXML, readXML_stops.
  change (length (pending (QXmlStreamReaderNew text))) with (length text).
  destruct (readXML_loop _ _ _) as [[o st] xml'].
  destruct o; try done. simpl. by destruct (hasError xml').
Qed.

Lemma readXML_stops_added text h :
  added text (readXML_stops text h).2 (readXMLText text h).2.
Proof.
  rewrite readXML_stops_hier. unfold readXML_stops.
  change (readXML_loop (S (length text)) (QXmlStreamReaderNew text)
            (mkReadState (clear h) [""] [] false false))
    with (readXML_loop (length text) (readNext (QXmlStreamReaderNew text))
            (mkReadState (clear h) [""] [] false false)).
  apply readXML_loop_added. exists []. split; [|done].
  destruct text as [|t ts]; [by right|by left].
Qed.

(** the names of the objects of a document in the order in which
    [handleJsonChild] meets them, an object before its children; what is
    no object, or has no string for its name, counts with the empty name *)
Fixpoint json_names (v : QJsonValue) : list string :=
  match v with
  | JObject o =>
      toString (obj_value o "name") ::
      (fix members (ms : list (string * QJsonValue)) : list string :=
         match ms with
         | [] => []
         | (k, c) :: ms' =>
             if String.eqb k "children" then
               match c with
               | JArray a => flat_map json_names a
               | _ => json_names c
               end
             else members ms'
         end) o
  | _ => [""]
  end.

Definition arrayish_names (elements : QJsonValue) : list string :=
  match elements with
  | JArray a => flat_map json_names a
  | _ => json_names elements
  end.

(** the longest prefix of [l] whose names are new: not among [seen] and
    not met earlier in [l] *)
Fixpoint fresh_prefix (seen l : list string) : list string :=
  match l with
  | [] => []
  | n :: l' =>
      if bool_decide (n ∈ seen) then [] else n :: fresh_prefix (n :: seen) l'
  end.

Lemma json_names_toObject v :
  json_names v =
  toString (obj_value (toObject v) "name") ::
  (if obj_contains (toObject v) "children"
   then arrayish_names (obj_value (toObject v) "children") else []).
Proof.
  destruct v as [| | | | |o|]; try done. simpl. f_equal.
  unfold obj_contains.
  induction o as [|[k c] o IH]; simpl; [done|].
  destruct (String.eqb k "children"); [done|exact IH].
Qed.

Lemma fresh_prefix_ext seen seen' l :
  (∀ n, n ∈ seen ↔ n ∈ seen') → fresh_prefix seen l = fresh_prefix seen' l.
Proof.
  revert seen seen'. induction l as [|n l IH]; intros seen seen' H; [done|].
  simpl. rewrite (bool_decide_ext _ _ (H n)).
  case_bool_decide; [done|]. f_equal. apply IH. intros x.
  rewrite !elem_of_cons. by rewrite H.
Qed.

Lemma fresh_prefix_app_all seen seen' l1 l2 :
  fresh_prefix seen l1 = l1 → seen' ≡ₚ seen ++ l1 →
  fresh_prefix seen (l1 ++ l2) = l1 ++ fresh_prefix seen' l2.
Proof.
  revert seen. induction l1 as [|n l IH]; intros seen E Hp; simpl.
  - apply fresh_prefix_ext. intros x. rewrite Hp. by rewrite app_nil_r.
  - simpl in E. case_bool_decide; [done|]. f_equal. apply IH; [congruence|].
    rewrite Hp. symmetry. apply Permutation_middle.
Qed.

Lemma fresh_prefix_app_stop seen l1 l2 :
  fresh_prefix seen l1 ≠ l1 →
  fresh_prefix seen (l1 ++ l2) = fresh_prefix seen l1.
Proof.
  revert seen. induction l1 as [|n l IH]; intros seen E; simpl in *; [done|].
  case_bool_decide; [done|]. f_equal. apply IH. congruence.
Qed.

(** what a run of the JSON reader over objects named [l] has made of [h] *)
Definition json_added (h : CaretHierarchy) (l : list string)
  (r : outcome * CaretHierarchy) : Prop :=
  names_ok r.2 ∧
  names (m_root r.2) ≡ₚ
    names (m_root h) ++ fresh_prefix (names (m_root h)) l ∧
  (r.1 = Returns ↔ fresh_prefix (names (m_root h)) l = l).

Lemma recurseJsonArrayish_names handle fuel h elements parent :
  (∀ h v p, (json_depth v ≤ fuel)%nat → names_ok h → p ∈ names (m_root h) →
            json_added h (json_names v) (handle h (toObject v) p)) →
  (json_depth elements ≤ S fuel)%nat →
  (match elements with JArray _ => True | _ => json_depth elements ≤ fuel end)%nat →
  names_ok h → parent ∈ names (m_root h) →
  json_added h (arrayish_names elements)
             (recurseJsonArrayish handle h elements parent).
Proof.
  intros Hh Hd Hd' Hok Hp. unfold recurseJsonArrayish, arrayish_names.
  destruct elements as [| | | |a| |]; try (by apply Hh).
  assert (Ha : Forall (λ v, json_depth v ≤ fuel)%nat a).
  { apply Forall_forall. intros v Hv.
    pose proof (json_depth_element a v Hv). lia. }
  clear Hd Hd'. revert h Hok Hp.
  induction Ha as [|v a Hv _ IH]; intros h Hok Hp.
  - simpl. split; [done|]. split; [by rewrite app_nil_r|done].
  - cbn [flat_map]. destruct (Hh h v parent Hv Hok Hp) as (Hok1 & Hn1 & Hr1).
    destruct (handle h (toObject v) parent) as [o h1] eqn:Eh.
    cbn [fst snd] in Hok1, Hn1, Hr1.
    assert (o = Returns ∨ o ≠ Returns) as [->|Hne]
      by (clear; destruct o; [by left|by right..]).
    + cbv beta iota.
      assert (E : fresh_prefix (names (m_root h)) (json_names v) = json_names v)
        by by apply Hr1.
      rewrite E in Hn1.
      destruct (IH h1 Hok1) as (Hok2 & Hn2 & Hr2).
      { rewrite Hn1. apply elem_of_app. by left. }
      unfold json_added.
      rewrite (fresh_prefix_app_all _ (names (m_root h1))) by done.
      split; [done|]. split.
      * rewrite Hn2, app_assoc. by apply Permutation_app_tail.
      * rewrite Hr2. split; [by intros ->|]. by intros ?%app_inv_head.
    + assert (E : fresh_prefix (names (m_root h)) (json_names v) ≠ json_names v)
        by (intros E; by apply Hne, Hr1).
      assert (Hlen : (length (fresh_prefix (names (m_root h)) (json_names v))
                      < length (json_names v))%nat).
      { clear -E. revert E. generalize (names (m_root h)).
        induction (json_names v) as [|n l IHl]; intros seen E; simpl in *;
          [done|].
        case_bool_decide; simpl; [lia|].
        assert (E' : fresh_prefix (n :: seen) l ≠ l) by congruence.
        specialize (IHl _ E'). lia. }
      assert (Hgoal : json_added h (json_names v ++ flat_map json_names a)
                                 (o, h1)).
      { unfold json_added. cbn [fst snd].
        rewrite fresh_prefix_app_stop by done.
        split; [done|]. split; [done|]. split; [done|].
        intros E'. apply (f_equal length) in E'. rewrite length_app in E'. lia. }
      by destruct o.
Qed.

Lemma handleJsonChild_names fuel h v parent :
  (json_depth v ≤ fuel)%nat → names_ok h → parent ∈ names (m_root h) →
  json_added h (json_names v) (handleJsonChild fuel h (toObject v) parent).
Proof.
  revert h v parent. induction fuel as [|fuel IH]; intros h v parent Hd Hok Hp.
  { destruct v; simpl in Hd; lia. }
  rewrite json_names_toObject. cbn [handleJsonChild].
  assert (Hroot : "" ∈ names (m_root h)).
  { destruct Hok as (Hn & _). destruct (m_root h). simpl in *. subst.
    apply list_elem_of_here. }
  set (n := toString (obj_value (toObject v) "name")).
  assert (Hstop : ∀ o l, o ≠ Returns → n ∈ names (m_root h) →
            json_added h (n :: l) (o, h)).
  { intros o l Ho Hin. unfold json_added. cbn [fst snd fresh_prefix].
    rewrite bool_decide_true by done.
    split; [done|]. split; [by rewrite app_nil_r|]. by split. }
  destruct (String.eqb_spec n "") as [E|Hne].
  { rewrite E in *. by destruct (String.eqb parent ""); apply Hstop. }
  set (x := mkItem n "" _ []).
  pose proof (names_ok_addItem x parent h eq_refl Hok) as Hok1.
  destruct Hok as (Hname & Hnd & Hu).
  destruct (addItem_cases x parent h)
    as [[-> Hwhy]|(root' & p & E & Hfresh & _ & Eadd)].
  { apply Hstop; [done|].
    destruct Hwhy as [Hin|[Hout|Hnone]]; [by apply Hu| |].
    - exfalso. by apply Hout, Hu.
    - by apply addT_None_iff in Hnone. }
  rewrite Eadd in *. cbn [snd] in Hok1.
  assert (E' : addT (m_root h) x parent = Some root')
    by (unfold addT; by rewrite E).
  apply addT_names in E'. change (names x) with [n] in E'.
  assert (Hfresh' : n ∉ names (m_root h)) by (intros Hin; by apply Hfresh, Hu).
  set (h1 := mkHierarchy root' _) in *.
  assert (Hown : ∀ l r, json_added h1 l r → json_added h (n :: l) r).
  { intros l r (Hok2 & Hn2 & Hr2). unfold json_added. cbn [fresh_prefix].
    rewrite bool_decide_false by done.
    assert (Eext : fresh_prefix (names (m_root h1)) l =
                   fresh_prefix (n :: names (m_root h)) l).
    { apply fresh_prefix_ext. intros y. simpl. rewrite E'.
      rewrite elem_of_app, list_elem_of_singleton, elem_of_cons. naive_solver. }
    rewrite Eext in Hn2, Hr2. split; [done|]. split.
    - rewrite Hn2. simpl. rewrite E'. by rewrite <- app_assoc.
    - rewrite Hr2. split; [by intros ->|]. by intros [= ->]. }
  apply Hown.
  destruct (obj_contains (toObject v) "children") eqn:Hc.
  - pose proof (json_depth_toObject v) as Hdv.
    apply obj_contains_value, json_depth_member in Hc.
    apply (recurseJsonArrayish_names _ fuel); [exact IH|lia| |done|].
    + destruct (obj_value (toObject v) "children"); try done; simpl in *; lia.
    + simpl. rewrite E'. apply elem_of_app. right. apply list_elem_of_here.
  - unfold json_added. simpl. split; [done|]. by rewrite app_nil_r.
Qed.

Lemma readJsonFile_names myjson h :
  json_added (clear h) (arrayish_names myjson) (readJsonFile myjson h).
Proof.
  unfold readJsonFile.
  apply (recurseJsonArrayish_names _ (S (json_depth myjson))).
  - intros h' v p. apply handleJsonChild_names.
  - lia.
  - destruct myjson; try done; simpl; lia.
  - apply partial_ok_clear.
  - apply list_elem_of_here.
Qed.

Lemma readXML_body_stop xml st :
  match readXML_body xml st with
  | Stop o _ => o ≠ Returns
  | Continue _ _ => True
  end.
Proof.
  unfold readXML_body.
  destruct (current xml) as [|err| | |tag attributes|tag|txt]; try done.
  - destruct (String.eqb tag "CaretHierarchy").
    { destruct (haveRoot st); [done|].
      destruct (negb (hasAttribute attributes "Version")); [done|].
      by destruct (negb (String.eqb (attribute_value attributes "Version") "1")). }
    destruct (String.eqb tag "Item").
    { destruct (negb (haveRoot st)); [done|].
      destruct (rootEnded st); [done|].
      destruct (parents st) as [|back ps]; [done|].
      by destruct (addItem _ back (hier st)) as [[p|] h']. }
    destruct (String.eqb tag "Info"); [|done].
    destruct (addedInfo st) as [|kvptr ai]; [done|].
    destruct (kv_readXML xml) as [[o kv] xml']. by destruct o.
  - destruct (String.eqb tag "Item"); [|done].
    by destruct (addedInfo st), (parents st).
Qed.

Lemma readXML_loop_returns fuel xml st :
  (readXML_loop fuel xml st).1.1 = Returns →
  atEnd (readXML_loop fuel xml st).2 = true.
Proof.
  revert xml st. induction fuel as [|fuel IH]; intros xml st; simpl.
  - by destruct (atEnd xml) eqn:E.
  - destruct (atEnd xml) eqn:E; [done|].
    pose proof (readXML_body_stop xml st) as Hstop.
    destruct (readXML_body xml st) as [xml' st'|o st']; [apply IH|done].
Qed.

(** C2 (amended): a hierarchy parse, XML or JSON, starts from the cleared
    state, so what it leaves does not depend on what the hierarchy held
    before, and a parse that fails is not rolled back: the items added
    before the error stay, with unique names that are exactly the used
    names.  The loop of [readXML] stops at a token, the one at which it
    throws or else the end of the document (or the token of a reader
    error), and the hierarchy then holds the root and the items named by
    the [Item] elements before that token, and no other.  After
    [readJsonFile] the hierarchy holds the root and the items named by the
    objects of the document, in the order in which they are met, up to the
    first one whose name is empty (or missing, or no string) or was met
    before, and no other; the call returns exactly when the document has no
    such object.  The hierarchy is in the cleared state exactly when no item
    had been added. *)
Theorem parse_leaves_partial_tree :
  (∀ xml h,
     (∀ h', readXML xml h' = readXML xml h) ∧
     names_ok (readXML xml h).2 ∧
     (children (m_root (readXML xml h).2) = [] ↔ (readXML xml h).2 = clear h)) ∧
  (∀ text h,
     (readXMLText text h).2 = hier (readXML_stops text h).1.2 ∧
     ((readXML_stops text h).1.1 = Returns →
      atEnd (readXML_stops text h).2 = true) ∧
     ∃ before, behind text (readXML_stops text h).2 before ∧
               names (m_root (readXMLText text h).2) ≡ₚ
                 "" :: item_names before) ∧
  (∀ myjson h,
     (∀ h', readJsonFile myjson h' = readJsonFile myjson h) ∧
     names_ok (readJsonFile myjson h).2 ∧
     (children (m_root (readJsonFile myjson h).2) = [] ↔
      (readJsonFile myjson h).2 = clear h) ∧
     names (m_root (readJsonFile myjson h).2) ≡ₚ
       "" :: fresh_prefix [""] (arrayish_names myjson) ∧
     ((readJsonFile myjson h).1 = Returns ↔
      fresh_prefix [""] (arrayish_names myjson) = arrayish_names myjson)).
Proof.
  split; [|split].
  - intros xml h. split; [done|].
    pose proof (readXML_partial_ok xml h) as Hok.
    split; [apply Hok|]. split.
    + by apply partial_ok_no_children.
    + by intros ->.
  - intros text h. split; [apply readXML_stops_hier|].
    split; [apply readXML_loop_returns|]. apply readXML_stops_added.
  - intros myjson h. split; [done|].
    pose proof (readJsonFile_partial_ok myjson h) as Hok.
    split; [apply Hok|]. split; [split|].
    + by apply partial_ok_no_children.
    + by intros ->.
    + destruct (readJsonFile_names myjson h) as (_ & Hn & Hr). by split.
Qed.

End Hierarchy.

(** * Label selection model *)

Module LabelModel.

(** ** The label table *)

(** [std::array<uint8_t, 4>] *)
Definition RGBA : Type := Z * Z * Z * Z.

(** Modelled from the spec: [GiftiLabel] (GiftiLabel.h is not part of the
    sources): a label of the table, with its key and its colour.  The four
    [float] components are kept as rationals. *)
Record GiftiLabel := mkGiftiLabel {
  getKey : Z;
  getRed : Q;
  getGreen : Q;
  getBlue : Q;
  getAlpha : Q;
}.

(** Modelled from the spec: [GiftiLabelTable] (GiftiLabelTable.h is not part
    of the sources), the contract the model consumes: the hierarchy of the
    table, the key of the unassigned label, the keys ordered by label name,
    the name of a key, and the label of a name ([None] for [NULL]). *)
Record GiftiLabelTable := mkGiftiLabelTable {
  getHierarchy : Hierarchy.CaretHierarchy;
  getUnassignedLabelKey : Z;
  getLabelKeysSortedByName : list Z;
  getLabelName : Z → string;
  getLabel : string → option GiftiLabel;
}.

(** [static_cast<int32_t>(f * 255.0)], which truncates, clamped to a byte *)
Definition to_byte (f : Q) : Z :=
  let scaled := Qmult f (inject_Z 255) in
  let c := Z.quot (Qnum scaled) (Z.pos (Qden scaled)) in
  if 255 <? c then 255 else if c <? 0 then 0 else c.

(** [LabelSelectionItemModel::getLabelRGBA] *)
Definition getLabelRGBA (label : option GiftiLabel) : RGBA :=
  match label with
  | None => (255, 255, 255, 255)
  | Some l =>
      (to_byte (getRed l), to_byte (getGreen l), to_byte (getBlue l),
       to_byte (getAlpha l))
  end.

(** ** Display items *)

(** [LabelSelectionItem::ItemType] and [Qt::CheckState] *)
Inductive ItemType := ITEM_LABEL | ITEM_HIERARCHY.
Inductive CheckState := Unchecked | PartiallyChecked | Checked.

(** A [LabelSelectionItem*] is the address of an item made with [new]: its
    index in the sequence of the items allocated so far. *)
Definition ItemPtr : Type := nat.

(** [LabelSelectionItem] with the state of its [QStandardItem] base that
    the build touches: text, tooltip, enabled flag, check state and rows. *)
Record LabelSelectionItem := mkLabelSelectionItem {
  text : string;
  m_itemType : ItemType;
  m_ontologyID : string;
  m_labelIndex : Z;
  m_labelRGBA : RGBA;
  m_rawClusters : list Clusters.Cluster;
  toolTip : list string;
  isEnabled : bool;
  checkState : CheckState;
  rows : list ItemPtr;
}.

(** Modelled from the spec: the two constructors of [LabelSelectionItem]
    (LabelSelectionItem.cxx is not part of the sources): an item bound to a
    label carries its key and colour, a plain grouping item has no label
    binding (label key -1). A new item is enabled, unchecked, and has no
    tooltip, cluster or row. *)
Definition LabelSelectionItemLabel (textIn ontologyID : string)
    (labelIndex : Z) (labelRGBA : RGBA) : LabelSelectionItem :=
  mkLabelSelectionItem textIn ITEM_LABEL ontologyID labelIndex labelRGBA
                       [] [] true Unchecked [].

Definition LabelSelectionItemHierarchy (textIn ontologyID : string)
  : LabelSelectionItem :=
  mkLabelSelectionItem textIn ITEM_HIERARCHY ontologyID (-1)
                       (255, 255, 255, 255) [] [] true Unchecked [].

(** Modelled from the spec: the setters of an item the build calls
    ([setClusters], [appendToToolTip] of LabelSelectionItem.cxx, and
    [setEnabled], [setCheckState], [appendRow] of the Qt base). *)
Definition item_setClusters (clusters : list Clusters.Cluster)
    (it : LabelSelectionItem) : LabelSelectionItem :=
  mkLabelSelectionItem (text it) (m_itemType it) (m_ontologyID it)
    (m_labelIndex it) (m_labelRGBA it) clusters (toolTip it) (isEnabled it)
    (checkState it) (rows it).

Definition item_appendToToolTip (line : string) (it : LabelSelectionItem)
  : LabelSelectionItem :=
  mkLabelSelectionItem (text it) (m_itemType it) (m_ontologyID it)
    (m_labelIndex it) (m_labelRGBA it) (m_rawClusters it)
    (toolTip it ++ [line]) (isEnabled it) (checkState it) (rows it).

Definition item_setEnabled (enabled : bool) (it : LabelSelectionItem)
  : LabelSelectionItem :=
  mkLabelSelectionItem (text it) (m_itemType it) (m_ontologyID it)
    (m_labelIndex it) (m_labelRGBA it) (m_rawClusters it) (toolTip it)
    enabled (checkState it) (rows it).

Definition item_setCheckState (state : CheckState) (it : LabelSelectionItem)
  : LabelSelectionItem :=
  mkLabelSelectionItem (text it) (m_itemType it) (m_ontologyID it)
    (m_labelIndex it) (m_labelRGBA it) (m_rawClusters it) (toolTip it)
    (isEnabled it) state (rows it).

Definition item_appendRow (row : ItemPtr) (it : LabelSelectionItem)
  : LabelSelectionItem :=
  mkLabelSelectionItem (text it) (m_itemType it) (m_ontologyID it)
    (m_labelIndex it) (m_labelRGBA it) (m_rawClusters it) (toolTip it)
    (isEnabled it) (checkState it) (rows it ++ [row]).

(** ** The model *)

(** [std::set<AString>], kept in ascending order *)
Fixpoint names_insert (name : string) (s : list string) : list string :=
  match s with
  | [] => [name]
  | x :: s' =>
      if AString_ltb name x then name :: s
      else if AString_ltb x name then x :: names_insert name s'
      else s
  end.

Definition names_contains (name : string) (s : list string) : bool :=
  existsb (String.eqb name) s.

(** [std::map<int32_t, LabelSelectionItem*>], kept in ascending order of
    the keys: [operator[]] followed by an assignment, and [find]. *)
Fixpoint map_assign (key : Z) (item : ItemPtr) (s : list (Z * ItemPtr))
  : list (Z * ItemPtr) :=
  match s with
  | [] => [(key, item)]
  | (k, v) :: s' =>
      if key <? k then (key, item) :: s
      else if k <? key then (k, v) :: map_assign key item s'
      else (key, item) :: s'
  end.

Fixpoint map_find (key : Z) (s : list (Z * ItemPtr)) : option ItemPtr :=
  match s with
  | [] => None
  | (k, v) :: s' => if k =? key then Some v else map_find key s'
  end.

(** The members of [LabelSelectionItemModel] the build reads or writes.
    [m_items] holds the items made with [new], by address;
    [invisibleRootItem] the rows of the root of the Qt model; [logged] the
    texts given to [CaretLogInfo], each as the list of its lines. *)
Record LabelSelectionItemModel := mkModel {
  m_fileAndMapName : string;
  m_giftiLabelTable : GiftiLabelTable;
  m_logMismatchedLabelsFlag : bool;
  m_items : list LabelSelectionItem;
  invisibleRootItem : list ItemPtr;
  m_labelKeyToLabelSelectionItem : list (Z * ItemPtr);
  m_buildTreeMissingLabelNames : list string;
  m_hierarchyParentNames : list string;
  m_validFlag : bool;
  logged : list (list string);
}.

Definition isValid (m : LabelSelectionItemModel) : bool := m_validFlag m.

Definition with_items (items : list LabelSelectionItem)
    (m : LabelSelectionItemModel) : LabelSelectionItemModel :=
  mkModel (m_fileAndMapName m) (m_giftiLabelTable m)
    (m_logMismatchedLabelsFlag m) items (invisibleRootItem m)
    (m_labelKeyToLabelSelectionItem m) (m_buildTreeMissingLabelNames m)
    (m_hierarchyParentNames m) (m_validFlag m) (logged m).

Definition with_rootRows (rootRows : list ItemPtr)
    (m : LabelSelectionItemModel) : LabelSelectionItemModel :=
  mkModel (m_fileAndMapName m) (m_giftiLabelTable m)
    (m_logMismatchedLabelsFlag m) (m_items m) rootRows
    (m_labelKeyToLabelSelectionItem m) (m_buildTreeMissingLabelNames m)
    (m_hierarchyParentNames m) (m_validFlag m) (logged m).

Definition with_labelKeyToLabelSelectionItem (keyToItem : list (Z * ItemPtr))
    (m : LabelSelectionItemModel) : LabelSelectionItemModel :=
  mkModel (m_fileAndMapName m) (m_giftiLabelTable m)
    (m_logMismatchedLabelsFlag m) (m_items m) (invisibleRootItem m)
    keyToItem (m_buildTreeMissingLabelNames m)
    (m_hierarchyParentNames m) (m_validFlag m) (logged m).

Definition with_buildTreeMissingLabelNames (missing : list string)
    (m : LabelSelectionItemModel) : LabelSelectionItemModel :=
  mkModel (m_fileAndMapName m) (m_giftiLabelTable m)
    (m_logMismatchedLabelsFlag m) (m_items m) (invisibleRootItem m)
    (m_labelKeyToLabelSelectionItem m) missing
    (m_hierarchyParentNames m) (m_validFlag m) (logged m).

Definition with_hierarchyParentNames (parents : list string)
    (m : LabelSelectionItemModel) : LabelSelectionItemModel :=
  mkModel (m_fileAndMapName m) (m_giftiLabelTable m)
    (m_logMismatchedLabelsFlag m) (m_items m) (invisibleRootItem m)
    (m_labelKeyToLabelSelectionItem m) (m_buildTreeMissingLabelNames m)
    parents (m_validFlag m) (logged m).

Definition with_validFlag (valid : bool)
    (m : LabelSelectionItemModel) : LabelSelectionItemModel :=
  mkModel (m_fileAndMapName m) (m_giftiLabelTable m)
    (m_logMismatchedLabelsFlag m) (m_items m) (invisibleRootItem m)
    (m_labelKeyToLabelSelectionItem m) (m_buildTreeMissingLabelNames m)
    (m_hierarchyParentNames m) valid (logged m).

(** [CaretLogInfo(text)] *)
Definition CaretLogInfo (lines : list string)
    (m : LabelSelectionItemModel) : LabelSelectionItemModel :=
  mkModel (m_fileAndMapName m) (m_giftiLabelTable m)
    (m_logMismatchedLabelsFlag m) (m_items m) (invisibleRootItem m)
    (m_labelKeyToLabelSelectionItem m) (m_buildTreeMissingLabelNames m)
    (m_hierarchyParentNames m) (m_validFlag m) (logged m ++ [lines]).

(** [new LabelSelectionItem(...)]: the item gets the next address. *)
Definition new (it : LabelSelectionItem) (m : LabelSelectionItemModel)
  : ItemPtr * LabelSelectionItemModel :=
  (length (m_items m), with_items (m_items m ++ [it]) m).

(** a call [item->f(...)] of a setter through the pointer *)
Definition through (item : ItemPtr)
    (f : LabelSelectionItem → LabelSelectionItem)
    (m : LabelSelectionItemModel) : LabelSelectionItemModel :=
  with_items (alter f item (m_items m)) m.

Definition hasChildren (item : ItemPtr) (m : LabelSelectionItemModel) : bool :=
  match m_items m !! item with
  | Some it => match rows it with [] => false | _ :: _ => true end
  | None => false
  end.

(** The guarded use of the cluster container, as it is written at each of
    its three places (in [buildTree] twice, in [buildModel] for the labels
    of the table only):
    [if (clusterContainer != NULL)
       item->setClusters(clusterContainer->getClustersWithKey(labelKey));]
    The container is [const], the call fills its [mutable] index. *)
Definition setClustersIfNotNull (item : ItemPtr) (labelKey : Z)
    (clusterContainer : option Clusters.ClusterContainer)
    (m : LabelSelectionItemModel)
  : option Clusters.ClusterContainer * LabelSelectionItemModel :=
  match clusterContainer with
  | Some container =>
      let (clusters, container) :=
        Clusters.getClustersWithKey labelKey container in
      (Some container, through item (item_setClusters clusters) m)
  | None => (None, m)
  end.

(** [LabelSelectionItemModel::buildTree]; the result is [itemOut]. *)
Fixpoint buildTree (hierarchyItem : Hierarchy.Item)
    (giftiLabelTable : GiftiLabelTable)
    (clusterContainer : option Clusters.ClusterContainer)
    (m : LabelSelectionItemModel)
  : ItemPtr * option Clusters.ClusterContainer * LabelSelectionItemModel :=
  match hierarchyItem with
  | Hierarchy.mkItem name id _ children =>
      let label := getLabel giftiLabelTable name in
      let rgba :=
        match label with
        | Some _ => getLabelRGBA label
        | None => (255, 255, 255, 255)
        end in
      let labelKey :=
        match label with Some l => getKey l | None => -1 end in
      match children with
      | _ :: _ =>
          let '(itemOut, clusterContainer, m) :=
            match label with
            | Some _ =>
                let (itemOut, m) :=
                  new (LabelSelectionItemLabel name id labelKey rgba) m in
                let (clusterContainer, m) :=
                  setClustersIfNotNull itemOut labelKey clusterContainer m in
                (itemOut, clusterContainer, m)
            | None =>
                let (itemOut, m) :=
                  new (LabelSelectionItemHierarchy name id) m in
                (itemOut, clusterContainer, m)
            end in
          let '(clusterContainer, m) :=
            fold_left
              (λ '(clusterContainer, m) child,
                 let '(row, clusterContainer, m) :=
                   buildTree child giftiLabelTable clusterContainer m in
                 (clusterContainer, through itemOut (item_appendRow row) m))
              children (clusterContainer, m) in
          let m :=
            if 0 <=? labelKey then
              with_labelKeyToLabelSelectionItem
                (map_assign labelKey itemOut
                            (m_labelKeyToLabelSelectionItem m)) m
            else m in
          let m :=
            with_hierarchyParentNames
              (names_insert name (m_hierarchyParentNames m)) m in
          (itemOut, clusterContainer, m)
      | [] =>
          let (itemOut, m) :=
            new (LabelSelectionItemLabel name id labelKey rgba) m in
          let (clusterContainer, m) :=
            setClustersIfNotNull itemOut labelKey clusterContainer m in
          let m :=
            if 0 <=? labelKey then
              with_labelKeyToLabelSelectionItem
                (map_assign labelKey itemOut
                            (m_labelKeyToLabelSelectionItem m)) m
            else m in
          let m :=
            match label with
            | None =>
                let m :=
                  with_buildTreeMissingLabelNames
                    (names_insert name (m_buildTreeMissingLabelNames m)) m in
                let m :=
                  through itemOut
                    (item_appendToToolTip
                       "There is no label in the label table for this name")
                    m in
                if negb (hasChildren itemOut m) then
                  through itemOut (item_setEnabled false) m
                else m
            | Some _ => m
            end in
          (itemOut, clusterContainer, m)
      end
  end.


(** [QStandardItem::text] through the pointer *)
Definition text_of (item : ItemPtr) (m : LabelSelectionItemModel) : string :=
  match m_items m !! item with Some it => text it | None => "" end.

(** the character written as a quotation mark inside the literals *)
Definition dquote : string := String (Ascii.ascii_of_nat 34) EmptyString.

(** How a call of [buildModel] ends: it returns, or it reads through the
    NULL cluster container. *)
Inductive completion (A : Type) :=
  | Completes (a : A)
  | NullDereference.
Arguments Completes {A} a.
Arguments NullDereference {A}.

Section Build.

(** The methods of [LabelSelectionItem] that walk the rows below an item
    are defined in LabelSelectionItem.cxx, which is not part of the
    sources. They are parameters here; each acts on the allocated items
    through the pointer it is called on. *)
Variable setAllChildrenChecked :
  bool → ItemPtr → list LabelSelectionItem → list LabelSelectionItem.
Variable setCheckStateFromChildren :
  ItemPtr → list LabelSelectionItem → CheckState * list LabelSelectionItem.
Variable setCenterOfGravityFromChildren :
  ItemPtr → list LabelSelectionItem → list LabelSelectionItem.

(** [LabelSelectionItemModel::getTopLevelItems] *)
Definition getTopLevelItems (m : LabelSelectionItemModel) : list ItemPtr :=
  invisibleRootItem m.

(** [LabelSelectionItemModel::setCheckedStatusOfAllItems] *)
Definition setCheckedStatusOfAllItems (checked : bool)
    (m : LabelSelectionItemModel) : LabelSelectionItemModel :=
  fold_left
    (λ m labelItem,
       let m :=
         through labelItem
           (item_setCheckState (if checked then Checked else Unchecked)) m in
       with_items (setAllChildrenChecked checked labelItem (m_items m)) m)
    (invisibleRootItem m) m.

(** [LabelSelectionItemModel::updateCheckedStateOfAllItems] *)
Definition updateCheckedStateOfAllItems (m : LabelSelectionItemModel)
  : LabelSelectionItemModel :=
  fold_left
    (λ m labelItem,
       with_items (setCheckStateFromChildren labelItem (m_items m)).2 m)
    (invisibleRootItem m) m.

(** [LabelSelectionItemModel::buildModel].  [text] is kept as the list of
    the lines appended to it. *)
Definition buildModel (clusterContainer : option Clusters.ClusterContainer)
    (m : LabelSelectionItemModel)
  : completion (option Clusters.ClusterContainer * LabelSelectionItemModel) :=
  let m := with_labelKeyToLabelSelectionItem [] m in
  let m := with_buildTreeMissingLabelNames [] m in
  let caretHierarchy := getHierarchy (m_giftiLabelTable m) in
  if Hierarchy.isEmpty caretHierarchy then Completes (clusterContainer, m)
  else
  let caretRootItem := Hierarchy.getInvisibleRoot caretHierarchy in
  let '(topLevelItems, clusterContainer, m) :=
    fold_left
      (λ '(topLevelItems, clusterContainer, m) child,
         let '(item, clusterContainer, m) :=
           buildTree child (m_giftiLabelTable m) clusterContainer m in
         (topLevelItems ++ [item], clusterContainer, m))
      (Hierarchy.children caretRootItem) ([], clusterContainer, m) in
  let text : list string := [] in
  let text :=
    if negb (Clusters.is_empty (m_buildTreeMissingLabelNames m)) then
      text
      ++ ["   No labels in the label table were found for these childless elements in the hierarchy:"]
      ++ map (λ name, "      " +:+ name) (m_buildTreeMissingLabelNames m)
    else text in
  let unassignedLabelKey := getUnassignedLabelKey (m_giftiLabelTable m) in
  let labelKeys := getLabelKeysSortedByName (m_giftiLabelTable m) in
  let '(buildTreeMissingHierarchyNames, labelIsParentInHierarchyNames) :=
    fold_left
      (λ '(missingNames, parentNames) key,
         if negb (key =? unassignedLabelKey) then
           match map_find key (m_labelKeyToLabelSelectionItem m) with
           | None =>
               let labelName := getLabelName (m_giftiLabelTable m) key in
               if names_contains labelName (m_hierarchyParentNames m) then
                 (missingNames, names_insert labelName parentNames)
               else
                 (names_insert labelName missingNames, parentNames)
           | Some _ => (missingNames, parentNames)
           end
         else (missingNames, parentNames))
      labelKeys ([], []) in
  let '(topLevelItems, clusterContainer, m, text) :=
    if negb (Clusters.is_empty buildTreeMissingHierarchyNames) then
      let emptyOntologyID := "" in
      let (parentItem, m) :=
        new (LabelSelectionItemHierarchy "Label Table Only" emptyOntologyID)
            m in
      let '(clusterContainer, m) :=
        fold_left
          (λ '(clusterContainer, m) name,
             match getLabel (m_giftiLabelTable m) name with
             | Some giftiLabel =>
                 let labelKey := getKey giftiLabel in
                 let (item, m) :=
                   new (LabelSelectionItemLabel name emptyOntologyID labelKey
                          (getLabelRGBA (Some giftiLabel))) m in
                 let (clusterContainer, m) :=
                   setClustersIfNotNull item labelKey clusterContainer m in
                 let m := through parentItem (item_appendRow item) m in
                 let m :=
                   with_labelKeyToLabelSelectionItem
                     (map_assign labelKey item
                                 (m_labelKeyToLabelSelectionItem m)) m in
                 (clusterContainer, m)
             | None => (clusterContainer, m)
             end)
          buildTreeMissingHierarchyNames (clusterContainer, m) in
      let topLevelItems := topLevelItems ++ [parentItem] in
      let text :=
        text
        ++ ["   These labels not in hierarchy have been added to the group "
            +:+ dquote +:+ text_of parentItem m +:+ dquote +:+ ": "]
        ++ map (λ name, "      " +:+ name) buildTreeMissingHierarchyNames in
      (topLevelItems, clusterContainer, m, text)
    else (topLevelItems, clusterContainer, m, text) in
  let text :=
    if negb (Clusters.is_empty labelIsParentInHierarchyNames) then
      text
      ++ ["   Label from label table is in the element hierarchy but element contains children:"]
      ++ map (λ name, "      " +:+ name) labelIsParentInHierarchyNames
    else text in
  let m :=
    if negb (Clusters.is_empty text) then
      if m_logMismatchedLabelsFlag m then
        CaretLogInfo (m_fileAndMapName m :: text) m
      else m
    else m in
  let m :=
    fold_left
      (λ m item, with_rootRows (invisibleRootItem m ++ [item]) m)
      topLevelItems m in
  match clusterContainer with
  | None =>
      (* [clusterContainer->getKeysThatAreNotInAnyClusters()] without a
         test of the pointer *)
      NullDereference
  | Some container =>
      let keysNotInClusters :=
        Clusters.getKeysThatAreNotInAnyClusters container in
      let m :=
        fold_left
          (λ m (keyItem : Z * ItemPtr),
             let key := keyItem.1 in
             if existsb (Z.eqb key) keysNotInClusters then
               let labelItem := keyItem.2 in
               let m :=
                 through labelItem
                   (item_appendToToolTip
                      "This label is not used by any brainordinates") m in
               if negb (hasChildren labelItem m) then
                 through labelItem (item_setEnabled false) m
               else m
             else m)
          (m_labelKeyToLabelSelectionItem m) m in
      let m := setCheckedStatusOfAllItems true m in
      let m := updateCheckedStateOfAllItems m in
      let m :=
        fold_left
          (λ m item,
             with_items (setCenterOfGravityFromChildren item (m_items m)) m)
          (getTopLevelItems m) m in
      let m := with_validFlag true m in
      Completes (Some container, m)
  end.

(** Modelled from the spec: the initial value of [m_validFlag]
    (LabelSelectionItemModel.h is not part of the sources): a model is not
    valid before its build has completed.

    [LabelSelectionItemModel::LabelSelectionItemModel]: the members are
    initialized and the model is built.  The display group and the tab
    index are only stored, for the synchronization of the selections; the
    build does not read them and they are left out. *)
Definition LabelSelectionItemModelNew (fileAndMapName : string)
    (giftiLabelTable : GiftiLabelTable)
    (clusterContainer : option Clusters.ClusterContainer)
    (logMismatchedLabelsFlag : bool)
  : completion (option Clusters.ClusterContainer * LabelSelectionItemModel) :=
  buildModel clusterContainer
    (mkModel fileAndMapName giftiLabelTable logMismatchedLabelsFlag
             [] [] [] [] [] false []).

End Build.


(** ** The pointer to the cluster container stays what it is *)

Lemma setClustersIfNotNull_null item labelKey clusterContainer m :
  (setClustersIfNotNull item labelKey clusterContainer m).1 = None
  ↔ clusterContainer = None.
Proof.
  unfold setClustersIfNotNull. destruct clusterContainer as [c|]; [|done].
  destruct (Clusters.getClustersWithKey labelKey c). simpl. done.
Qed.

Lemma buildTree_rows_null giftiLabelTable itemOut children :
  Forall
    (λ child, ∀ clusterContainer m,
       (buildTree child giftiLabelTable clusterContainer m).1.2 = None
       ↔ clusterContainer = None) children →
  ∀ clusterContainer m,
    (fold_left
       (λ '(clusterContainer, m) child,
          let '(row, clusterContainer, m) :=
            buildTree child giftiLabelTable clusterContainer m in
          (clusterContainer, through itemOut (item_appendRow row) m))
       children (clusterContainer, m)).1 = None
    ↔ clusterContainer = None.
Proof.
  induction 1 as [|child children H _ IH]; intros cc m; [done|].
  cbn [fold_left].
  destruct (buildTree child giftiLabelTable cc m) as [[row cc1] m1] eqn:E.
  rewrite IH, <- (H cc m), E. done.
Qed.

Lemma buildTree_null hierarchyItem giftiLabelTable clusterContainer m :
  (buildTree hierarchyItem giftiLabelTable clusterContainer m).1.2 = None
  ↔ clusterContainer = None.
Proof.
  revert clusterContainer m.
  induction hierarchyItem as [n i e cs IH] using Hierarchy.Item_ind'.
  intros cc m. destruct cs as [|c cs].
  - simpl.
    destruct (setClustersIfNotNull _ _ cc _) as [cc' m'] eqn:E.
    pose proof (f_equal fst E) as E1. cbn [fst] in E1.
    simpl. rewrite <- E1. apply setClustersIfNotNull_null.
  - cbn -[fold_left].
    destruct (getLabel giftiLabelTable n) as [l|].
    + destruct (setClustersIfNotNull _ _ cc _) as [cc' m'] eqn:E.
      pose proof (f_equal fst E) as E1. cbn [fst] in E1.
      destruct (fold_left _ _ _) as [cc2 m2] eqn:EF.
      pose proof (f_equal fst EF) as E2. cbn [fst] in E2.
      cbn [fst snd]. rewrite <- E2, buildTree_rows_null by done.
      rewrite <- E1. apply setClustersIfNotNull_null.
    + destruct (fold_left _ _ _) as [cc2 m2] eqn:EF.
      pose proof (f_equal fst EF) as E2. cbn [fst] in E2.
      cbn [fst snd]. rewrite <- E2, buildTree_rows_null by done. done.
Qed.



Lemma buildModel_top_null children :
  ∀ topLevelItems clusterContainer m,
    (fold_left
       (λ '(topLevelItems, clusterContainer, m) child,
          let '(item, clusterContainer, m) :=
            buildTree child (m_giftiLabelTable m) clusterContainer m in
          (topLevelItems ++ [item], clusterContainer, m))
       children (topLevelItems, clusterContainer, m)).1.2 = None
    ↔ clusterContainer = None.
Proof.
  induction children as [|child children IH]; intros top cc m; [done|].
  cbn [fold_left].
  destruct (buildTree child (m_giftiLabelTable m) cc m) as [[row cc1] m1] eqn:E.
  rewrite IH, <- (buildTree_null child (m_giftiLabelTable m) cc m), E. done.
Qed.

Lemma buildModel_table_only_null parentItem emptyOntologyID names :
  ∀ clusterContainer m,
    (fold_left
       (λ '(clusterContainer, m) name,
          match getLabel (m_giftiLabelTable m) name with
          | Some giftiLabel =>
              let labelKey := getKey giftiLabel in
              let (item, m) :=
                new (LabelSelectionItemLabel name emptyOntologyID labelKey
                       (getLabelRGBA (Some giftiLabel))) m in
              let (clusterContainer, m) :=
                setClustersIfNotNull item labelKey clusterContainer m in
              let m := through parentItem (item_appendRow item) m in
              let m :=
                with_labelKeyToLabelSelectionItem
                  (map_assign labelKey item
                              (m_labelKeyToLabelSelectionItem m)) m in
              (clusterContainer, m)
          | None => (clusterContainer, m)
          end)
       names (clusterContainer, m)).1 = None
    ↔ clusterContainer = None.
Proof.
  induction names as [|name names IH]; intros cc m; [done|].
  cbn [fold_left].
  destruct (getLabel (m_giftiLabelTable m) name) as [l|]; [|apply IH].
  cbn [new].
  destruct (setClustersIfNotNull _ _ cc _) as [cc' m'] eqn:E.
  pose proof (f_equal fst E) as E1. cbn [fst] in E1.
  etrans; [apply IH|]. rewrite <- E1. apply setClustersIfNotNull_null.
Qed.

(** ** How a build ends *)

Section Completion.

Variable setAllChildrenChecked :
  bool → ItemPtr → list LabelSelectionItem → list LabelSelectionItem.
Variable setCheckStateFromChildren :
  ItemPtr → list LabelSelectionItem → CheckState * list LabelSelectionItem.
Variable setCenterOfGravityFromChildren :
  ItemPtr → list LabelSelectionItem → list LabelSelectionItem.

Lemma buildModel_completion clusterContainer m :
  Hierarchy.isEmpty (getHierarchy (m_giftiLabelTable m)) = false →
  match buildModel setAllChildrenChecked setCheckStateFromChildren
          setCenterOfGravityFromChildren clusterContainer m with
  | NullDereference => clusterContainer = None
  | Completes (_, m') => is_Some clusterContainer ∧ isValid m' = true
  end.
Proof.
  intros Hne. unfold buildModel.
  cbn [m_giftiLabelTable with_labelKeyToLabelSelectionItem
       with_buildTreeMissingLabelNames].
  rewrite Hne.
  destruct (fold_left _ (Hierarchy.children _) _) as [[top cc1] m1] eqn:E1.
  assert (T1 : cc1 = None ↔ clusterContainer = None).
  { change cc1 with (top, cc1, m1).1.2. rewrite <- E1.
    apply buildModel_top_null. }
  destruct (fold_left _ (getLabelKeysSortedByName _) _) as [missing parents].
  destruct (negb (Clusters.is_empty missing)).
  - cbn [new].
    destruct (fold_left _ missing _) as [cc2 m2] eqn:E2.
    assert (T2 : cc2 = None ↔ cc1 = None).
    { change cc2 with (cc2, m2).1. rewrite <- E2.
      apply (buildModel_table_only_null (length (m_items m1)) ""). }
    destruct cc2 as [container|].
    + split; [|done]. destruct clusterContainer; [done|].
      by apply proj2 in T1, T2; specialize (T1 eq_refl); specialize (T2 T1).
    + by apply T1, T2.
  - destruct cc1 as [container|].
    + split; [|done]. destruct clusterContainer; [done|].
      by apply proj2 in T1; specialize (T1 eq_refl).
    + by apply T1.
Qed.


(** With a cluster container the build of a model over a non-empty
    hierarchy completes, and the model is valid. *)
Lemma construction_with_container fileAndMapName giftiLabelTable container
    logMismatchedLabelsFlag :
  Hierarchy.isEmpty (getHierarchy giftiLabelTable) = false →
  ∃ container' m,
    LabelSelectionItemModelNew setAllChildrenChecked
      setCheckStateFromChildren setCenterOfGravityFromChildren
      fileAndMapName giftiLabelTable (Some container)
      logMismatchedLabelsFlag = Completes (container', m)
    ∧ isValid m = true.
Proof.
  intros Hne. unfold LabelSelectionItemModelNew.
  match goal with
  | |- context [buildModel _ _ _ ?cc ?m] =>
      pose proof (buildModel_completion cc m Hne) as H;
      destruct (buildModel _ _ _ cc m) as [[container' m']|]
  end; [|done].
  exists container', m'. by destruct H.
Qed.

(** Over an empty hierarchy the build returns at once, whatever the
    pointer to the cluster container, and the model is not valid. *)
Lemma construction_over_empty_hierarchy fileAndMapName giftiLabelTable
    clusterContainer logMismatchedLabelsFlag :
  Hierarchy.isEmpty (getHierarchy giftiLabelTable) = true →
  ∃ m,
    LabelSelectionItemModelNew setAllChildrenChecked
      setCheckStateFromChildren setCenterOfGravityFromChildren
      fileAndMapName giftiLabelTable clusterContainer
      logMismatchedLabelsFlag = Completes (clusterContainer, m)
    ∧ isValid m = false ∧ invisibleRootItem m = [].
Proof.
  intros He. unfold LabelSelectionItemModelNew, buildModel.
  cbn [m_giftiLabelTable with_labelKeyToLabelSelectionItem
       with_buildTreeMissingLabelNames].
  rewrite He. by eexists.
Qed.

(** C3, as the code has it: for every label table whose hierarchy is not
    empty, the construction of a [LabelSelectionItemModel] with a NULL
    cluster container does not complete.  The uses of the container in
    [buildTree] and for the labels of the table only are guarded, the call
    [clusterContainer->getKeysThatAreNotInAnyClusters()] of [buildModel] is
    not: the build reads through the NULL pointer there, before
    [m_validFlag] is set, and no valid model results. *)
Theorem construction_with_null_container fileAndMapName giftiLabelTable
    logMismatchedLabelsFlag :
  Hierarchy.isEmpty (getHierarchy giftiLabelTable) = false →
  LabelSelectionItemModelNew setAllChildrenChecked
    setCheckStateFromChildren setCenterOfGravityFromChildren
    fileAndMapName giftiLabelTable None logMismatchedLabelsFlag
  = NullDereference.
Proof.
  intros Hne. unfold LabelSelectionItemModelNew.
  match goal with
  | |- buildModel _ _ _ None ?m = _ =>
      pose proof (buildModel_completion None m Hne) as H;
      destruct (buildModel _ _ _ None m) as [[container' m']|]
  end; [|done].
  destruct H as [[? H] _]. done.
Qed.

End Completion.


(** ** Concrete runs *)

(** Modelled from the spec: [LabelSelectionItem::setAllChildrenChecked]
    and [LabelSelectionItem::setCheckStateFromChildren]
    (LabelSelectionItem.cxx is not part of the sources): every item below
    the item gets the check state; the check state of an item with rows is
    recomputed bottom-up from its rows, checked if all are checked,
    unchecked if none is, else partial.  The rows of the allocated items
    form a tree, and the number of the items bounds its depth. *)
Fixpoint setAllChildrenChecked_below (depth : nat) (checked : bool)
    (item : ItemPtr) (items : list LabelSelectionItem)
  : list LabelSelectionItem :=
  match depth with
  | O => items
  | S depth =>
      match items !! item with
      | Some it =>
          fold_left
            (λ items row,
               setAllChildrenChecked_below depth checked row
                 (alter (item_setCheckState
                           (if checked then Checked else Unchecked))
                        row items))
            (rows it) items
      | None => items
      end
  end.

Definition setAllChildrenChecked (checked : bool) (item : ItemPtr)
    (items : list LabelSelectionItem) : list LabelSelectionItem :=
  setAllChildrenChecked_below (length items) checked item items.

Definition state_of_rows (states : list CheckState) : CheckState :=
  if forallb (λ s, match s with Checked => true | _ => false end) states
  then Checked
  else if forallb (λ s, match s with Unchecked => true | _ => false end)
                  states
  then Unchecked
  else PartiallyChecked.

Fixpoint setCheckStateFromChildren_below (depth : nat) (item : ItemPtr)
    (items : list LabelSelectionItem)
  : CheckState * list LabelSelectionItem :=
  match depth with
  | O => (Unchecked, items)
  | S depth =>
      match items !! item with
      | Some it =>
          match rows it with
          | [] => (checkState it, items)
          | _ :: _ =>
              let '(states, items) :=
                fold_left
                  (λ '(states, items) row,
                     let (state, items) :=
                       setCheckStateFromChildren_below depth row items in
                     (states ++ [state], items))
                  (rows it) ([], items) in
              let state := state_of_rows states in
              (state, alter (item_setCheckState state) item items)
          end
      | None => (Unchecked, items)
      end
  end.

Definition setCheckStateFromChildren (item : ItemPtr)
    (items : list LabelSelectionItem)
  : CheckState * list LabelSelectionItem :=
  setCheckStateFromChildren_below (length items) item items.

(** The center of gravity of a cluster is not part of [Clusters.Cluster];
    the items are left as they are. *)
Definition setCenterOfGravityFromChildren (item : ItemPtr)
    (items : list LabelSelectionItem) : list LabelSelectionItem :=
  items.

(** A table with the one label "a" of key 5, over the hierarchy in which
    "b" is the child of "a": "b" has no label. *)
Definition label_a : GiftiLabel := mkGiftiLabel 5 1 0 0 1.

Definition table_ab : GiftiLabelTable :=
  mkGiftiLabelTable Hierarchy.hierarchy_ab 0 [5]
    (λ key, if key =? 5 then "a" else "")
    (λ name, if String.eqb name "a" then Some label_a else None).

Definition construct (giftiLabelTable : GiftiLabelTable)
    (clusterContainer : option Clusters.ClusterContainer) :=
  LabelSelectionItemModelNew setAllChildrenChecked setCheckStateFromChildren
    setCenterOfGravityFromChildren "ab.dlabel.nii" giftiLabelTable
    clusterContainer true.

Lemma construction_with_null_container_witness :
  Hierarchy.isEmpty (getHierarchy table_ab) = false
  ∧ construct table_ab None = NullDereference.
Proof.
  split; [vm_compute; reflexivity|].
  apply construction_with_null_container. vm_compute. reflexivity.
Defined.

(** With the container of the three clusters of key 5 the same table
    gives a valid model: the item of "a" carries the three clusters and is
    checked, the item of "b" is disabled, with a tooltip, and the missing
    label is logged. *)
Lemma construction_example5 :
  ∃ container m,
    construct table_ab (Some Clusters.example5) = Completes (container, m)
    ∧ isValid m = true
    ∧ invisibleRootItem m = [0%nat]
    ∧ m_labelKeyToLabelSelectionItem m = [(5, 0%nat)]
    ∧ m_items m =
        [ mkLabelSelectionItem "a" ITEM_LABEL "" 5 (255, 0, 0, 255)
            [Clusters.central5; Clusters.left5; Clusters.right5]
            [] true Checked [1%nat];
          mkLabelSelectionItem "b" ITEM_LABEL "" (-1) (255, 255, 255, 255)
            [] ["There is no label in the label table for this name"]
            false Checked [] ]
    ∧ logged m =
        [[ "ab.dlabel.nii";
           "   No labels in the label table were found for these childless elements in the hierarchy:";
           "      b" ]].
Proof. do 2 eexists. vm_compute. repeat split. Qed.


End LabelModel.
